(** * vllm-loader: port allocator, launch arguments, process supervisor,
      download coordinator

    A shallow embedding of [src/lib/port-manager.ts], [src/lib/vllm-config.ts],
    [src/lib/process-manager.ts], [src/lib/download-manager.ts] and
    [src/lib/model-registry.ts], of the route handlers for one process and one
    model, and of the hook [useProcessStatus].

    Conventions of the embedding.
    - A JavaScript [Map<string, V>] is a [gmap string V]; a [Set<number>] of
      ports is a [gset Z] (the allocator only ever stores the integers of its
      loop counter and the ports of records).
    - A [number] that is measured or configured (sizes, fractions, byte
      counts) is an IEEE-754 binary64 [float], as in JavaScript.
    - [Date.now()] is an integer number of milliseconds ([Z]); in the process
      supervisor every clock reading is [new Date().toISOString()] and is
      kept as the [string] the code stores.
    - The port of a process record is a whole number ([Z]), as [allocate]
      hands it out and as every state file that the supervisor writes holds
      it; a state file from elsewhere, with another JSON value for a port, is
      outside the embedding.
    - The singletons ([portManager], [processManager], [downloadManager]) are
      threaded through the operations as explicit state.
    - A method that can [throw] returns a [Result]. *)

From Stdlib Require Import ZArith List Ascii String Bool PrimFloat Uint63 Lia.
From Stdlib Require Import FloatAxioms SpecFloat FloatOps.
From stdpp Require Import base gmap sets list strings pretty sorting.

Open Scope string_scope.
Open Scope list_scope.
Open Scope Z_scope.

#[local] Set Warnings "-inexact-float".
#[local] Set Warnings "-clear-no-such-hyp".

(** ** JavaScript values *)

Module Js.

(** Result of a call that may [throw new Error(message)]. *)
Inductive Result (A : Type) : Type :=
| Ok (value : A)
| Throw (message : string).
Arguments Ok {A} value.
Arguments Throw {A} message.

(** Truthiness of an optional string: defined and not empty. *)
Definition truthy_string (s : option string) : bool :=
  match s with
  | Some s => negb (String.eqb s "")
  | None => false
  end.

(** Truthiness of an optional number: defined, not [0], not [-0], not [NaN]. *)
Definition truthy_number (x : option float) : bool :=
  match x with
  | Some x => negb (PrimFloat.eqb x 0%float) && PrimFloat.eqb x x
  | None => false
  end.

(** Truthiness of an optional boolean. *)
Definition truthy_bool (b : option bool) : bool :=
  match b with
  | Some b => b
  | None => false
  end.

(** [haystack.includes(needle)]. *)
Definition includes (haystack needle : string) : bool :=
  match String.index 0 needle haystack with
  | Some _ => true
  | None => false
  end.

End Js.

Import Js.

(** ** [src/lib/port-manager.ts] *)

Module PortManager.

Definition BASE_PORT : Z := 8000.
Definition MAX_PORT : Z := 8100.

(** The private field [usedPorts : Set<number>], a [gset Z], is the whole
    state of the singleton. *)

(** The loop [for (let port = BASE_PORT; port <= MAX_PORT; port++)] of
    [allocate], with [n] the number of iterations still to run: the first
    [port] that the set does not hold, or [None] when the loop falls through. *)
Fixpoint scan (n : nat) (port : Z) (usedPorts : gset Z) : option Z :=
  match n with
  | O => None
  | S n' =>
      if decide (port ∈ usedPorts) then scan n' (port + 1) usedPorts
      else Some port
  end.

(** [allocate(): number] — returns the port and the set with it added, or
    throws and leaves the set as it was. *)
Definition allocate (usedPorts : gset Z) : Result Z * gset Z :=
  match scan (Z.to_nat (MAX_PORT - BASE_PORT + 1)) BASE_PORT usedPorts with
  | Some port => (Ok port, usedPorts ∪ {[port]})
  | None => (Throw "No available ports in range", usedPorts)
  end.

(** [release(port): void] — [this.usedPorts.delete(port)]. *)
Definition release (port : Z) (usedPorts : gset Z) : gset Z :=
  usedPorts ∖ {[port]}.

(** [isAvailable(port): boolean]. *)
Definition isAvailable (port : Z) (usedPorts : gset Z) : bool :=
  negb (bool_decide (port ∈ usedPorts))
  && (BASE_PORT <=? port) && (port <=? MAX_PORT).

(** [getUsedPorts(): number[]] — ascending. *)
Definition getUsedPorts (usedPorts : gset Z) : list Z :=
  merge_sort Z.le (elements usedPorts).

(** [reserve(port): boolean]. *)
Definition reserve (port : Z) (usedPorts : gset Z) : bool * gset Z :=
  if isAvailable port usedPorts then (true, usedPorts ∪ {[port]})
  else (false, usedPorts).

(** A client of the allocator, for statements about call sequences: the ports
    handed out by [allocate] and not given back by [release] since are the
    live allocations. *)
Inductive call : Type :=
| Allocate
| Release (port : Z).

Record client : Type := mkClient {
  usedPorts : gset Z;
  live : list Z
}.

Definition fresh : client := {| usedPorts := ∅; live := [] |}.

Definition run_call (c : call) (s : client) : client :=
  match c with
  | Allocate =>
      match allocate (usedPorts s) with
      | (Ok port, used') => {| usedPorts := used'; live := port :: live s |}
      | (Throw _, used') => {| usedPorts := used'; live := live s |}
      end
  | Release port =>
      {| usedPorts := release port (usedPorts s);
         live := filter (λ q, q ≠ port) (live s) |}
  end.

Definition run (calls : list call) : client :=
  fold_left (λ s c, run_call c s) calls fresh.

(** What ties a client's live allocations to the allocator's set: the set
    holds exactly the live ports, and none of them twice. *)
Definition consistent (s : client) : Prop :=
  NoDup (live s) ∧ ∀ q, q ∈ usedPorts s ↔ q ∈ live s.

(** The ports of the range [[BASE_PORT, MAX_PORT]]. *)
Definition range : gset Z :=
  list_to_set (seqZ BASE_PORT (MAX_PORT - BASE_PORT + 1)).

(** Every port that the set holds is one of the range. *)
Definition within_range (usedPorts : gset Z) : Prop :=
  ∀ port, port ∈ usedPorts → BASE_PORT ≤ port ≤ MAX_PORT.

End PortManager.

(** ** [src/lib/vllm-config.ts] and the configuration types of [src/types] *)

Module VllmConfig.

Inductive TokenizerMode : Type := tokenizer_auto | tokenizer_slow.
Inductive Dtype : Type := dtype_auto | float16 | bfloat16 | float32.
Inductive LoadFormat : Type := load_auto | gguf | safetensors.

Definition TokenizerMode_text (m : TokenizerMode) : string :=
  match m with tokenizer_auto => "auto" | tokenizer_slow => "slow" end.

Definition Dtype_text (d : Dtype) : string :=
  match d with
  | dtype_auto => "auto"
  | float16 => "float16"
  | bfloat16 => "bfloat16"
  | float32 => "float32"
  end.

Definition LoadFormat_text (f : LoadFormat) : string :=
  match f with
  | load_auto => "auto"
  | gguf => "gguf"
  | safetensors => "safetensors"
  end.

(** [interface VLLMConfig]. An optional field is an [option]; [port] is the
    integer the allocator handed out. *)
Record VLLMConfig : Type := mkConfig {
  port : Z;
  host : string;
  tokenizer : option string;
  tokenizerMode : option TokenizerMode;
  tensorParallelSize : option float;
  pipelineParallelSize : option float;
  dtype : option Dtype;
  maxModelLen : option float;
  gpuMemoryUtilization : option float;
  quantization : option string;
  loadFormat : option LoadFormat;
  apiKey : option string;
  servedModelName : option string;
  enforceEager : option bool;
  maxNumSeqs : option float;
  trustRemoteCode : option bool
}.

(** [Partial<Omit<VLLMConfig, "port" | "host">>]: what a caller may override. *)
Record UserConfig : Type := mkUserConfig {
  u_tokenizer : option string;
  u_tokenizerMode : option TokenizerMode;
  u_tensorParallelSize : option float;
  u_pipelineParallelSize : option float;
  u_dtype : option Dtype;
  u_maxModelLen : option float;
  u_gpuMemoryUtilization : option float;
  u_quantization : option string;
  u_loadFormat : option LoadFormat;
  u_apiKey : option string;
  u_servedModelName : option string;
  u_enforceEager : option bool;
  u_maxNumSeqs : option float;
  u_trustRemoteCode : option bool
}.

(** [getDefaultConfig(port)]. *)
Definition getDefaultConfig (port : Z) : VLLMConfig :=
  {| port := port;
     host := "127.0.0.1";
     tokenizer := None;
     tokenizerMode := None;
     tensorParallelSize := None;
     pipelineParallelSize := None;
     dtype := Some dtype_auto;
     maxModelLen := None;
     gpuMemoryUtilization := Some 0.9%float;
     quantization := None;
     loadFormat := None;
     apiKey := None;
     servedModelName := None;
     enforceEager := Some false;
     maxNumSeqs := None;
     trustRemoteCode := Some false |}.

(** One field of [{ ...defaults, ...userConfig }]: the override when the caller
    gave one, the default otherwise. *)
Definition spread {A : Type} (override base : option A) : option A :=
  match override with
  | Some v => Some v
  | None => base
  end.

(** [{ ...getDefaultConfig(port), ...userConfig, port, host: "127.0.0.1" }],
    the merge of [ProcessManager.spawn]. *)
Definition mergeConfig (port : Z) (u : UserConfig) : VLLMConfig :=
  let d := getDefaultConfig port in
  {| port := port;
     host := "127.0.0.1";
     tokenizer := spread (u_tokenizer u) (tokenizer d);
     tokenizerMode := spread (u_tokenizerMode u) (tokenizerMode d);
     tensorParallelSize := spread (u_tensorParallelSize u) (tensorParallelSize d);
     pipelineParallelSize :=
       spread (u_pipelineParallelSize u) (pipelineParallelSize d);
     dtype := spread (u_dtype u) (dtype d);
     maxModelLen := spread (u_maxModelLen u) (maxModelLen d);
     gpuMemoryUtilization :=
       spread (u_gpuMemoryUtilization u) (gpuMemoryUtilization d);
     quantization := spread (u_quantization u) (quantization d);
     loadFormat := spread (u_loadFormat u) (loadFormat d);
     apiKey := spread (u_apiKey u) (apiKey d);
     servedModelName := spread (u_servedModelName u) (servedModelName d);
     enforceEager := spread (u_enforceEager u) (enforceEager d);
     maxNumSeqs := spread (u_maxNumSeqs u) (maxNumSeqs d);
     trustRemoteCode := spread (u_trustRemoteCode u) (trustRemoteCode d) |}.

(** The empty override. *)
Definition noOverrides : UserConfig :=
  mkUserConfig None None None None None None None None None None None None
    None None.

(** [x > y] and [x <= y] on optional numbers that the guard has already found
    truthy; an absent number compares as [NaN] does. *)
Definition gt (x : option float) (y : float) : bool :=
  match x with Some x => PrimFloat.ltb y x | None => false end.

Definition le (x : option float) (y : float) : bool :=
  match x with Some x => PrimFloat.leb x y | None => false end.

Section Args.

(** [Number.prototype.toString] on a configured number: the shortest decimal
    that reads back as the same double. Its digits play no part below. *)
Variable Number_toString : float → string.

Definition num (x : option float) : string :=
  match x with Some x => Number_toString x | None => "undefined" end.

Definition str (s : option string) : string := default "" s.

(** [if (cond) { args.push(...items) }]. *)
Definition push_if (cond : bool) (items : list string) (args : list string)
  : list string :=
  if cond then args ++ items else args.

(** [buildVLLMArgs(modelPath, config): string[]]. *)
Definition buildVLLMArgs (modelPath : string) (config : VLLMConfig)
  : list string :=
  let args := ["serve"; modelPath] in
  (* Required arguments *)
  let args := push_if true ["--port"; pretty (port config)] args in
  let args := push_if true ["--host"; host config] args in
  (* Optional tokenizer *)
  let args :=
    push_if (truthy_string (tokenizer config))
      ["--tokenizer"; str (tokenizer config)] args in
  let args :=
    push_if (truthy_string (TokenizerMode_text <$> tokenizerMode config))
      ["--tokenizer-mode"; str (TokenizerMode_text <$> tokenizerMode config)]
      args in
  (* Parallelism *)
  let args :=
    push_if (truthy_number (tensorParallelSize config)
             && gt (tensorParallelSize config) 1)
      ["--tensor-parallel-size"; num (tensorParallelSize config)] args in
  let args :=
    push_if (truthy_number (pipelineParallelSize config)
             && gt (pipelineParallelSize config) 1)
      ["--pipeline-parallel-size"; num (pipelineParallelSize config)] args in
  (* Data type *)
  let args :=
    push_if (truthy_string (Dtype_text <$> dtype config)
             && negb (String.eqb (str (Dtype_text <$> dtype config)) "auto"))
      ["--dtype"; str (Dtype_text <$> dtype config)] args in
  (* Memory settings *)
  let args :=
    push_if (truthy_number (maxModelLen config))
      ["--max-model-len"; num (maxModelLen config)] args in
  let args :=
    push_if (truthy_number (gpuMemoryUtilization config)
             && gt (gpuMemoryUtilization config) 0
             && le (gpuMemoryUtilization config) 1)
      ["--gpu-memory-utilization"; num (gpuMemoryUtilization config)] args in
  (* Quantization *)
  let args :=
    push_if (truthy_string (quantization config))
      ["--quantization"; str (quantization config)] args in
  let args :=
    push_if (truthy_string (LoadFormat_text <$> loadFormat config)
             && negb (String.eqb (str (LoadFormat_text <$> loadFormat config))
                        "auto"))
      ["--load-format"; str (LoadFormat_text <$> loadFormat config)] args in
  (* Server options *)
  let args :=
    push_if (truthy_string (apiKey config))
      ["--api-key"; str (apiKey config)] args in
  let args :=
    push_if (truthy_string (servedModelName config))
      ["--served-model-name"; str (servedModelName config)] args in
  (* Advanced options *)
  let args :=
    push_if (truthy_bool (enforceEager config)) ["--enforce-eager"] args in
  let args :=
    push_if (truthy_number (maxNumSeqs config))
      ["--max-num-seqs"; num (maxNumSeqs config)] args in
  let args :=
    push_if (truthy_bool (trustRemoteCode config)) ["--trust-remote-code"]
      args in
  args.

End Args.

(** How the launched server reads the vector: after the sub-command and the
    model path come option names, each followed by its value unless it is one
    of the two switches. [option_names] lists the names in option position;
    a flag "appears" in a vector when it is among them. *)
Definition switches : list string := ["--enforce-eager"; "--trust-remote-code"].

Definition takes_value (name : string) : bool :=
  negb (bool_decide (name ∈ switches)).

Fixpoint names_from (is_value : bool) (args : list string) : list string :=
  match args with
  | [] => []
  | a :: rest =>
      if is_value then names_from false rest
      else a :: names_from (takes_value a) rest
  end.

Definition option_names (args : list string) : list string :=
  names_from false (drop 2 args).

(** [x < y] on an optional number. *)
Definition lt (x : option float) (y : float) : bool :=
  match x with Some x => PrimFloat.ltb x y | None => false end.

(** [x !== undefined]. *)
Definition defined {A : Type} (x : option A) : bool :=
  match x with Some _ => true | None => false end.

(** [validateConfig(config)]: the messages, in the order of the checks. The
    argument is a [Partial<VLLMConfig>]: [port] is its port, the rest are the
    fields that a caller may override. *)
Definition validateConfig (port : option float) (config : UserConfig)
  : list string :=
  let errors : list string := [] in
  let errors :=
    push_if (defined port && (lt port 1024 || gt port 65535))
      ["Port must be between 1024 and 65535"] errors in
  let errors :=
    push_if (defined (u_gpuMemoryUtilization config)
             && (le (u_gpuMemoryUtilization config) 0
                 || gt (u_gpuMemoryUtilization config) 1))
      ["GPU memory utilization must be between 0 and 1"] errors in
  let errors :=
    push_if (defined (u_tensorParallelSize config)
             && lt (u_tensorParallelSize config) 1)
      ["Tensor parallel size must be at least 1"] errors in
  let errors :=
    push_if (defined (u_maxModelLen config) && lt (u_maxModelLen config) 1)
      ["Max model length must be at least 1"] errors in
  let errors :=
    push_if (defined (u_maxNumSeqs config) && lt (u_maxNumSeqs config) 1)
      ["Max number of sequences must be at least 1"] errors in
  errors.

(** [const { port: _, host: __, ...userConfig } = config], of [restart]. *)
Definition overrides_of (config : VLLMConfig) : UserConfig :=
  {| u_tokenizer := tokenizer config;
     u_tokenizerMode := tokenizerMode config;
     u_tensorParallelSize := tensorParallelSize config;
     u_pipelineParallelSize := pipelineParallelSize config;
     u_dtype := dtype config;
     u_maxModelLen := maxModelLen config;
     u_gpuMemoryUtilization := gpuMemoryUtilization config;
     u_quantization := quantization config;
     u_loadFormat := loadFormat config;
     u_apiKey := apiKey config;
     u_servedModelName := servedModelName config;
     u_enforceEager := enforceEager config;
     u_maxNumSeqs := maxNumSeqs config;
     u_trustRemoteCode := trustRemoteCode config |}.

(** Every option that [buildVLLMArgs] knows, in the order of its pushes. *)
Definition all_option_names : list string :=
  ["--port"; "--host"; "--tokenizer"; "--tokenizer-mode";
   "--tensor-parallel-size"; "--pipeline-parallel-size"; "--dtype";
   "--max-model-len"; "--gpu-memory-utilization"; "--quantization";
   "--load-format"; "--api-key"; "--served-model-name"; "--enforce-eager";
   "--max-num-seqs"; "--trust-remote-code"].

(** The number is not [NaN]. *)
Definition is_number (x : float) : Prop := PrimFloat.eqb x x = true.

End VllmConfig.

(** ** [src/lib/process-manager.ts] and the process types of [src/types]

    [spawn] and [kill] are asynchronous: each is given up to the point where
    it waits, and what its closures do afterwards (the readers of the two
    output streams, the ["error"] and ["exit"] handlers, the timers) is one
    operation per event. [restart] is a [kill] followed, after the exit, by
    a [spawn]; [checkHealth], [getLogs] and the subscriptions read only. *)

Module ProcessManager.

Inductive ProcessStatus : Type := starting | running | stopping | stopped | error.

#[export] Instance ProcessStatus_eq_dec : EqDecision ProcessStatus.
Proof. solve_decision. Defined.

(** [status === "stopped" || status === "error"]. *)
Definition is_terminal (s : ProcessStatus) : bool :=
  match s with
  | stopped | error => true
  | _ => false
  end.

(** [interface VLLMProcess]; the optional [error] text is [error_message]
    here, [error] being the status. *)
Record VLLMProcess : Type := mkProcess {
  id : string;
  modelId : string;
  modelName : string;
  modelPath : string;
  port : Z;
  status : ProcessStatus;
  pid : option Z;
  startedAt : option string;
  stoppedAt : option string;
  config : VllmConfig.VLLMConfig;
  error_message : option string
}.

Definition set_status (s : ProcessStatus) (p : VLLMProcess) : VLLMProcess :=
  mkProcess (id p) (modelId p) (modelName p) (modelPath p) (port p) s (pid p)
    (startedAt p) (stoppedAt p) (config p) (error_message p).

Definition set_pid (n : option Z) (p : VLLMProcess) : VLLMProcess :=
  mkProcess (id p) (modelId p) (modelName p) (modelPath p) (port p) (status p)
    n (startedAt p) (stoppedAt p) (config p) (error_message p).

Definition set_stoppedAt (t : option string) (p : VLLMProcess) : VLLMProcess :=
  mkProcess (id p) (modelId p) (modelName p) (modelPath p) (port p) (status p)
    (pid p) (startedAt p) t (config p) (error_message p).

Definition set_error (e : option string) (p : VLLMProcess) : VLLMProcess :=
  mkProcess (id p) (modelId p) (modelName p) (modelPath p) (port p) (status p)
    (pid p) (startedAt p) (stoppedAt p) (config p) e.

(** The operating-system handle of a child ([ChildProcess]), by identity. *)
Definition ChildProcess : Type := nat.

Inductive Signal : Type := SIGTERM | SIGKILL.
Inductive Stream : Type := stdout | stderr.

Definition Stream_text (s : Stream) : string :=
  match s with stdout => "stdout" | stderr => "stderr" end.

(** [interface ManagedProcess]. *)
Record ManagedProcess : Type := mkManaged {
  info : VLLMProcess;
  process : option ChildProcess;
  logs : list string
}.

Definition set_info (i : VLLMProcess) (m : ManagedProcess) : ManagedProcess :=
  mkManaged i (process m) (logs m).

Definition set_process (c : option ChildProcess) (m : ManagedProcess)
  : ManagedProcess :=
  mkManaged (info m) c (logs m).

Definition set_logs (l : list string) (m : ManagedProcess) : ManagedProcess :=
  mkManaged (info m) (process m) l.

(** [interface ProcessEvent]: the [type] is ["status"] or ["log"] as the
    payload is. *)
Inductive EventData : Type :=
| StatusData (status : ProcessStatus)
| LogData (message : string) (stream : Stream).

Record ProcessEvent : Type := mkEvent {
  ev_processId : string;
  ev_timestamp : string;
  ev_data : EventData
}.

(** The supervisor and what it acts on.
    - [processes] is the private [Map]; [detached] keeps the
      [ManagedProcess] objects that [removeProcess] dropped from the map and
      that the closures of [spawn] and [kill] still hold (ids are fresh
      [uuidv4] values, so a closure's object is the map's entry for its id for
      as long as the record is in the map).
    - [usedPorts] is the [portManager] singleton.
    - [state_file] is the content of [STATE_FILE] ([None]: no file, or one
      that does not parse, which [restoreState] catches); a write is taken
      to succeed (the code logs a failed write and carries on).
    - [events] are the events emitted so far, oldest first; every event goes
      to the broadcast channel and to the channel of its process.
    - [signals] are the signals sent to children so far, oldest first. *)
Record Supervisor : Type := mkSupervisor {
  processes : gmap string ManagedProcess;
  detached : gmap string ManagedProcess;
  usedPorts : gset Z;
  state_file : option (list VLLMProcess);
  events : list ProcessEvent;
  signals : list (ChildProcess * Signal)
}.

Definition set_processes (ps : gmap string ManagedProcess) (st : Supervisor)
  : Supervisor :=
  mkSupervisor ps (detached st) (usedPorts st) (state_file st) (events st)
    (signals st).

Definition set_detached (ds : gmap string ManagedProcess) (st : Supervisor)
  : Supervisor :=
  mkSupervisor (processes st) ds (usedPorts st) (state_file st) (events st)
    (signals st).

Definition set_usedPorts (u : gset Z) (st : Supervisor) : Supervisor :=
  mkSupervisor (processes st) (detached st) u (state_file st) (events st)
    (signals st).

Definition set_state_file (f : option (list VLLMProcess)) (st : Supervisor)
  : Supervisor :=
  mkSupervisor (processes st) (detached st) (usedPorts st) f (events st)
    (signals st).

Definition maxLogLines : nat := 1000.

(** [getProcess(processId)]. *)
Definition getProcess (processId : string) (st : Supervisor)
  : option VLLMProcess :=
  info <$> processes st !! processId.

(** [getAllProcesses()]: the records of the map (in the order in which
    [map_to_list] enumerates it). *)
Definition getAllProcesses (st : Supervisor) : list VLLMProcess :=
  (map_to_list (info <$> processes st)).*2.

(** [getRunningProcesses()]. *)
Definition getRunningProcesses (st : Supervisor) : list VLLMProcess :=
  filter (λ p, status p = running) (getAllProcesses st).

(** [saveState()]: the whole record set replaces the file. *)
Definition saveState (st : Supervisor) : Supervisor :=
  set_state_file (Some (getAllProcesses st)) st.

(** [emitEvent(event)]. *)
Definition emitEvent (event : ProcessEvent) (st : Supervisor) : Supervisor :=
  mkSupervisor (processes st) (detached st) (usedPorts st) (state_file st)
    (events st ++ [event]) (signals st).

(** [child.kill(signal)]. *)
Definition send (child : ChildProcess) (signal : Signal) (st : Supervisor)
  : Supervisor :=
  mkSupervisor (processes st) (detached st) (usedPorts st) (state_file st)
    (events st) (signals st ++ [(child, signal)]).

(** [addLog(processId, message, stream)]. *)
Definition addLog (now : string) (processId message : string) (stream : Stream)
    (st : Supervisor) : Supervisor :=
  match processes st !! processId with
  | None => st
  | Some managed =>
      let logLine :=
        "[" +:+ now +:+ "] [" +:+ Stream_text stream +:+ "] " +:+ message in
      let pushed := logs managed ++ [logLine] in
      (* Trim logs if they exceed max *)
      let trimmed :=
        if (maxLogLines <? length pushed)%nat
        then drop (length pushed - maxLogLines)%nat pushed
        else pushed in
      emitEvent (mkEvent processId now (LogData logLine stream))
        (set_processes (<[processId := set_logs trimmed managed]> (processes st))
           st)
  end.

(** [updateStatus(processId, status, error?)]. *)
Definition updateStatus (now : string) (processId : string)
    (status : ProcessStatus) (err : option string) (st : Supervisor)
  : Supervisor :=
  match processes st !! processId with
  | None => st
  | Some managed =>
      let i := set_status status (info managed) in
      let i := if truthy_string err then set_error err i else i in
      let i := if is_terminal status then set_stoppedAt (Some now) i else i in
      let used :=
        if is_terminal status
        then PortManager.release (port i) (usedPorts st)
        else usedPorts st in
      let st := set_usedPorts used st in
      let st := set_processes (<[processId := set_info i managed]> (processes st)) st in
      let st := saveState st in
      emitEvent (mkEvent processId now (StatusData status)) st
  end.

(** [data.toString().split("\n")]. *)
Fixpoint split_newline (s : string) : list string :=
  match s with
  | EmptyString => [""]
  | String c rest =>
      if Ascii.eqb c "010"%char then "" :: split_newline rest
      else
        match split_newline rest with
        | piece :: pieces => String c piece :: pieces
        | [] => [String c ""]
        end
  end.

(** [data.toString().split("\n").filter(Boolean)]. *)
Definition lines_of (data : string) : list string :=
  filter (λ l, l ≠ "") (split_newline data).

(** The ready signal that the stdout reader looks for. *)
Definition is_ready (line : string) : bool :=
  includes line "Uvicorn running"
  || includes line "Application startup complete".

(** The object a closure of [spawn] or [kill] holds for [processId]. *)
Definition closure_of (processId : string) (st : Supervisor)
  : option ManagedProcess :=
  match processes st !! processId with
  | Some managed => Some managed
  | None => detached st !! processId
  end.

(** [managed.process = undefined] on the closure's object. *)
Definition clear_process (processId : string) (st : Supervisor) : Supervisor :=
  match processes st !! processId with
  | Some managed =>
      set_processes (<[processId := set_process None managed]> (processes st)) st
  | None => set_detached (alter (set_process None) processId (detached st)) st
  end.

(** [spawn], up to its [await]: [child] is what [child_process.spawn] gave,
    a handle and its pid, or the exception it threw. *)
Definition spawn_begin (now : string) (processId modelId modelName modelPath : string)
    (userConfig : VllmConfig.UserConfig)
    (child : Result (ChildProcess * option Z)) (st : Supervisor)
  : Result unit * Supervisor :=
  match PortManager.allocate (usedPorts st) with
  | (Throw message, _) => (Throw message, st)
  | (Ok port, used) =>
      let config := VllmConfig.mergeConfig port userConfig in
      let processInfo :=
        {| id := processId; modelId := modelId; modelName := modelName;
           modelPath := modelPath; port := port; status := starting;
           pid := None; startedAt := Some now; stoppedAt := None;
           config := config; error_message := None |} in
      let managed := {| info := processInfo; process := None; logs := [] |} in
      let st := set_usedPorts used st in
      let st := set_processes (<[processId := managed]> (processes st)) st in
      let st := saveState st in
      match child with
      | Ok (childProcess, childPid) =>
          let managed :=
            set_info (set_pid childPid processInfo)
              (set_process (Some childProcess) managed) in
          (Ok (), set_processes (<[processId := managed]> (processes st)) st)
      | Throw message =>
          (* catch *)
          let st := set_usedPorts (PortManager.release port (usedPorts st)) st in
          (Throw message, updateStatus now processId error (Some message) st)
      end
  end.

(** [spawn], after the two seconds of its [await]; [None] when no call for
    [processId] is suspended. *)
Definition spawn_resume (now : string) (processId : string) (st : Supervisor)
  : option (Result VLLMProcess * Supervisor) :=
  match closure_of processId st with
  | None => None
  | Some managed =>
      if decide (status (info managed) = error) then
        let message :=
          if truthy_string (error_message (info managed))
          then default "" (error_message (info managed))
          else "Process failed to start" in
        (* catch *)
        let st :=
          set_usedPorts
            (PortManager.release (port (info managed)) (usedPorts st)) st in
        Some (Throw message, updateStatus now processId error (Some message) st)
      else Some (Ok (info managed), st)
  end.

(** The [stdout] reader of [spawn], one line. *)
Definition on_stdout_line (now : string) (processId : string) (st : Supervisor)
    (line : string) : Supervisor :=
  let st := addLog now processId line stdout st in
  (* Check for ready signal *)
  if is_ready line then updateStatus now processId running None st else st.

(** The [stdout] reader of [spawn], one chunk of data. *)
Definition on_stdout (now : string) (processId data : string) (st : Supervisor)
  : Supervisor :=
  foldl (on_stdout_line now processId) st (lines_of data).

(** The [stderr] reader of [spawn], one chunk of data. *)
Definition on_stderr (now : string) (processId data : string) (st : Supervisor)
  : Supervisor :=
  foldl (λ st line, addLog now processId line stderr st) st (lines_of data).

(** The ["error"] handler of [spawn]. *)
Definition on_error (now : string) (processId message : string)
    (st : Supervisor) : Supervisor :=
  updateStatus now processId error (Some message) st.

(** The text of [`${code}`]. *)
Definition code_text (code : option Z) : string :=
  match code with
  | Some n => pretty n
  | None => "null"
  end.

(** The ["exit"] handler of [spawn]; [code] is [None] when a signal ended the
    child. The status it tests is the closure's, the update goes through the
    map, so for a record that was forgotten only the handle is cleared. *)
Definition on_exit (now : string) (processId : string) (code : option Z)
    (st : Supervisor) : Supervisor :=
  match closure_of processId st with
  | None => st
  | Some managed =>
      let s := status (info managed) in
      let st :=
        if negb (bool_decide (s = stopping)) && negb (bool_decide (s = stopped))
        then
          updateStatus now processId
            (if bool_decide (code = Some 0) then stopped else error)
            (if negb (bool_decide (code = Some 0))
             then Some ("Process exited with code " +:+ code_text code)
             else None)
            st
        else updateStatus now processId stopped None st in
      clear_process processId st
  end.

(** What [kill] has done when it yields: the process was already dead and
    the promise is resolved, or the signal is out and the promise waits for the
    ["exit"] event. *)
Inductive KillOutcome : Type := AlreadyDead | AwaitingExit.

(** [kill(processId, force)], up to the point where it returns or waits. *)
Definition kill (now : string) (processId : string) (force : bool)
    (st : Supervisor) : Result KillOutcome * Supervisor :=
  match processes st !! processId with
  | None => (Throw ("Process " +:+ processId +:+ " not found"), st)
  | Some managed =>
      match process managed with
      | None =>
          (* Process already dead, just update status *)
          (Ok AlreadyDead, updateStatus now processId stopped None st)
      | Some child =>
          let st := updateStatus now processId stopping None st in
          (Ok AwaitingExit, send child (if force then SIGKILL else SIGTERM) st)
      end
  end.

(** The timer of [kill] ([0] ms when forced, [5000] ms otherwise), when it
    fires before the ["exit"] event cleared it. *)
Definition kill_timeout (processId : string) (st : Supervisor) : Supervisor :=
  match closure_of processId st with
  | Some managed =>
      match process managed with
      | Some child => send child SIGKILL st
      | None => st
      end
  | None => st
  end.

(** [removeProcess(processId)]. *)
Definition removeProcess (processId : string) (st : Supervisor)
  : Result bool * Supervisor :=
  match processes st !! processId with
  | None => (Ok false, st)
  | Some managed =>
      if bool_decide (status (info managed) = running)
         || bool_decide (status (info managed) = starting)
      then (Throw "Cannot remove running process. Stop it first.", st)
      else
        let st := set_detached (<[processId := managed]> (detached st)) st in
        let st := set_processes (delete processId (processes st)) st in
        (Ok true, saveState st)
  end.

(** The body of the loop of [restoreState], for one persisted record. *)
Definition restore_one (now : string) (st : Supervisor) (processInfo : VLLMProcess)
  : Supervisor :=
  (* Mark previously running processes as stopped since they won't survive
     restart *)
  let processInfo :=
    if bool_decide (status processInfo = running)
       || bool_decide (status processInfo = starting)
    then set_stoppedAt (Some now) (set_status stopped processInfo)
    else processInfo in
  let st :=
    set_processes
      (<[id processInfo := {| info := processInfo; process := None; logs := [] |}]>
         (processes st)) st in
  (* Reserve the port if it was in use *)
  if negb (bool_decide (status processInfo = stopped))
  then set_usedPorts (PortManager.reserve (port processInfo) (usedPorts st)).2 st
  else st.

(** [restoreState()]: nothing when there is no state file. *)
Definition restoreState (now : string) (st : Supervisor) : Supervisor :=
  match state_file st with
  | Some data => foldl (restore_one now) st data
  | None => st
  end.

(** [ProcessManager.getInstance()] in a fresh server process whose state file
    holds [file]: empty maps, an allocator with no port in use, then
    [restoreState]. *)
Definition getInstance (now : string) (file : option (list VLLMProcess))
  : Supervisor :=
  restoreState now
    {| processes := ∅; detached := ∅; usedPorts := ∅; state_file := file;
       events := []; signals := [] |}.

(** What can happen to a constructed supervisor: a call of its interface, or
    an event of a child or a timer that one of its closures handles. *)
Inductive Op : Type :=
| OpSpawnBegin (now processId modelId modelName modelPath : string)
    (userConfig : VllmConfig.UserConfig) (child : Result (ChildProcess * option Z))
| OpSpawnResume (now processId : string)
| OpStdout (now processId data : string)
| OpStderr (now processId data : string)
| OpError (now processId message : string)
| OpExit (now processId : string) (code : option Z)
| OpKill (now processId : string) (force : bool)
| OpKillTimeout (processId : string)
| OpRemoveProcess (processId : string).

Definition step (st : Supervisor) (op : Op) : Supervisor :=
  match op with
  | OpSpawnBegin now processId modelId modelName modelPath userConfig child =>
      (spawn_begin now processId modelId modelName modelPath userConfig child st).2
  | OpSpawnResume now processId =>
      match spawn_resume now processId st with
      | Some (_, st') => st'
      | None => st
      end
  | OpStdout now processId data => on_stdout now processId data st
  | OpStderr now processId data => on_stderr now processId data st
  | OpError now processId message => on_error now processId message st
  | OpExit now processId code => on_exit now processId code st
  | OpKill now processId force => (kill now processId force st).2
  | OpKillTimeout processId => kill_timeout processId st
  | OpRemoveProcess processId => (removeProcess processId st).2
  end.

(** The supervisor after [ops], from the one [getInstance] built. *)
Definition run (now : string) (file : option (list VLLMProcess)) (ops : list Op)
  : Supervisor :=
  foldl step (getInstance now file) ops.

(** The status of the record [processId], when there is one. *)
Definition status_of (processId : string) (st : Supervisor)
  : option ProcessStatus :=
  status <$> getProcess processId st.

(** The record that [updateStatus] stores in place of [i]. *)
Definition next_info (now : string) (s : ProcessStatus) (err : option string)
    (i : VLLMProcess) : VLLMProcess :=
  let i := set_status s i in
  let i := if truthy_string err then set_error err i else i in
  if is_terminal s then set_stoppedAt (Some now) i else i.

(** The state file holds the record set as it is in memory. *)
Definition synced (st : Supervisor) : Prop :=
  state_file st = Some (getAllProcesses st).

(** What a status transition of the record [processId] at time [now] leaves
    behind: the record set is on disk, and a record that ended in a terminal
    status has its port free and its stop time stamped. *)
Definition settled (now : string) (processId : string) (st : Supervisor)
  : Prop :=
  synced st
  ∧ ∀ i, getProcess processId st = Some i → is_terminal (status i) = true →
         (port i ∉ usedPorts st) ∧ stoppedAt i = Some now.

(** [st'] has the records, the state file and the allocator of [st]. *)
Definition same_records (st st' : Supervisor) : Prop :=
  info <$> processes st' = info <$> processes st
  ∧ state_file st' = state_file st
  ∧ usedPorts st' = usedPorts st.

(** The clock reading of an operation (none for a timer and for
    [removeProcess], which stamp nothing). *)
Definition clock (op : Op) : string :=
  match op with
  | OpSpawnBegin now _ _ _ _ _ _ | OpSpawnResume now _ | OpStdout now _ _
  | OpStderr now _ _ | OpError now _ _ | OpExit now _ _ | OpKill now _ _ => now
  | OpKillTimeout _ | OpRemoveProcess _ => ""
  end.

(** The id under which an operation creates a record. *)
Definition created (op : Op) : option string :=
  match op with
  | OpSpawnBegin _ processId _ _ _ _ _ => Some processId
  | _ => None
  end.

(** No operating-system handle is left on a record that is [stopped]. *)
Definition stopped_records_have_no_handle (st : Supervisor) : Prop :=
  ∀ processId managed,
    processes st !! processId = Some managed →
    status (info managed) = stopped → process managed = None.

(** [getLogs(processId, tail)], for a whole number [tail]:
    [logs.slice(-tail)] when [tail] is truthy and positive, a copy of the
    buffer otherwise. *)
Definition getLogs (processId : string) (tail : option Z) (st : Supervisor)
  : list string :=
  match processes st !! processId with
  | None => []
  | Some managed =>
      match tail with
      | Some n =>
          if negb (n =? 0) && (0 <? n)
          then drop (length (logs managed) - Z.to_nat n)%nat (logs managed)
          else logs managed
      | None => logs managed
      end
  end.

(** The buffer that [addLog] keeps of [pushed]. *)
Definition trim (pushed : list string) : list string :=
  if (maxLogLines <? length pushed)%nat
  then drop (length pushed - maxLogLines)%nat pushed
  else pushed.

(** The handler of [SIGTERM] and [SIGINT] that [setupShutdownHandlers]
    installs, up to its [await]: [kill] for every key of the map, each call
    with its own reading of the clock; a rejection is logged and dropped. *)
Definition shutdown (now : string → string) (st : Supervisor) : Supervisor :=
  foldl (λ st processId, (kill (now processId) processId false st).2) st
    (map_to_list (processes st)).*1.

(** [restart(processId)], up to the [await] of its [kill]: the record as it
    was read, and what [kill] did. *)
Definition restart_begin (now : string) (processId : string) (st : Supervisor)
  : Result (VLLMProcess * KillOutcome) * Supervisor :=
  match processes st !! processId with
  | None => (Throw ("Process " +:+ processId +:+ " not found"), st)
  | Some managed =>
      match kill now processId false st with
      | (Ok outcome, st) => (Ok (info managed, outcome), st)
      | (Throw message, st) => (Throw message, st)
      end
  end.

(** [restart], once its [kill] has settled: the [spawn] it returns, up to
    that call's [await], under the id [newId] that [uuidv4] draws. *)
Definition restart_resume (now newId : string) (read : VLLMProcess)
    (child : Result (ChildProcess * option Z)) (st : Supervisor)
  : Result unit * Supervisor :=
  spawn_begin now newId (modelId read) (modelName read) (modelPath read)
    (VllmConfig.overrides_of (config read)) child st.

(** [P] holds of every record of the map, under its key. *)
Definition every_record (P : string → ManagedProcess → Prop) (st : Supervisor)
  : Prop :=
  ∀ processId managed, processes st !! processId = Some managed →
                       P processId managed.

(** The log buffer of a record is within [maxLogLines]. *)
Definition logs_bounded (processId : string) (managed : ManagedProcess) : Prop :=
  (length (logs managed) ≤ maxLogLines)%nat.

(** A record as [spawn] makes it: filed under its id, on a port of the
    allocator's range that its configuration repeats, bound to the loopback
    address, with its start time. *)
Definition as_spawned (processId : string) (managed : ManagedProcess) : Prop :=
  id (info managed) = processId
  ∧ VllmConfig.port (config (info managed)) = port (info managed)
  ∧ VllmConfig.host (config (info managed)) = "127.0.0.1"
  ∧ PortManager.BASE_PORT ≤ port (info managed) ≤ PortManager.MAX_PORT
  ∧ startedAt (info managed) ≠ None.

(** A state file that the supervisor wrote itself: none at first, then what
    a server that started from such a file left behind, over any number of
    restarts. The ports of its records are the whole numbers that [allocate]
    handed out; a file from elsewhere may hold any JSON value for a port,
    and [reserve] would take it without a test. *)
Inductive written : option (list VLLMProcess) → Prop :=
| written_none : written None
| written_run (now : string) (file : option (list VLLMProcess))
    (ops : list Op) :
    written file → written (state_file (run now file ops)).

(** A record is filed under its own id. *)
Definition filed_under_id (processId : string) (managed : ManagedProcess)
  : Prop :=
  id (info managed) = processId.


End ProcessManager.

(** ** [src/lib/download-manager.ts] and the download types of [src/types]

    A transfer runs in the background of the call that started it. What the
    network, the object store, the file system and the fetch tool answer is
    an argument of the handler that receives it: the chunk read, the line
    matched, the error a promise rejected with, the exit code, whether
    [unlinkSync] threw. *)

Module DownloadManager.

Inductive DownloadStatus : Type :=
  pending | downloading | paused | completed | error | cancelled.

#[export] Instance DownloadStatus_eq_dec : EqDecision DownloadStatus.
Proof. solve_decision. Defined.

(** [status === "completed" || status === "error" || status === "cancelled"]. *)
Definition is_terminal (s : DownloadStatus) : bool :=
  match s with
  | completed | error | cancelled => true
  | _ => false
  end.

(** [interface DownloadSource], by its [type]. *)
Inductive DownloadSource : Type :=
| SourceUrl (url : string)
| SourceS3 (bucket key : string)
| SourceHuggingFace (repoId filename : string) (revision : option string).

(** [interface DownloadProgress]. *)
Record DownloadProgress : Type := mkProgress {
  downloaded : float;
  total : float;
  percent : float;
  speed : option float;
  eta : option float
}.

(** [interface Download]; timestamps are the clock readings whose ISO text
    the code stores, the optional [error] text is [error_message]. *)
Record Download : Type := mkDownload {
  id : string;
  name : string;
  filename : string;
  source : DownloadSource;
  status : DownloadStatus;
  progress : DownloadProgress;
  startedAt : Z;
  completedAt : option Z;
  error_message : option string
}.

Definition set_status (s : DownloadStatus) (d : Download) : Download :=
  mkDownload (id d) (name d) (filename d) (source d) s (progress d)
    (startedAt d) (completedAt d) (error_message d).

Definition set_progress (p : DownloadProgress) (d : Download) : Download :=
  mkDownload (id d) (name d) (filename d) (source d) (status d) p
    (startedAt d) (completedAt d) (error_message d).

Definition set_completedAt (t : option Z) (d : Download) : Download :=
  mkDownload (id d) (name d) (filename d) (source d) (status d) (progress d)
    (startedAt d) t (error_message d).

Definition set_error (e : option string) (d : Download) : Download :=
  mkDownload (id d) (name d) (filename d) (source d) (status d) (progress d)
    (startedAt d) (completedAt d) e.

(** An [AbortController] and the handle of the fetch tool's child, by
    identity. *)
Definition AbortController : Type := nat.
Definition ChildProcess : Type := nat.

Inductive Signal : Type := SIGTERM.

(** [interface ManagedDownload]. *)
Record ManagedDownload : Type := mkManaged {
  info : Download;
  abortController : option AbortController;
  childProcess : option ChildProcess;
  startTime : Z;
  lastUpdate : Z
}.

Definition set_info (i : Download) (m : ManagedDownload) : ManagedDownload :=
  mkManaged i (abortController m) (childProcess m) (startTime m) (lastUpdate m).

Definition set_childProcess (c : option ChildProcess) (m : ManagedDownload)
  : ManagedDownload :=
  mkManaged (info m) (abortController m) c (startTime m) (lastUpdate m).

Definition set_lastUpdate (t : Z) (m : ManagedDownload) : ManagedDownload :=
  mkManaged (info m) (abortController m) (childProcess m) (startTime m) t.

(** [interface DownloadEvent]: the [type] is as the payload is. *)
Inductive EventData : Type :=
| ProgressData (progress : DownloadProgress)
| StatusData (status : DownloadStatus) (err : option string)
| CompleteData (modelId : string).

Record DownloadEvent : Type := mkEvent {
  ev_downloadId : string;
  ev_timestamp : Z;
  ev_data : EventData
}.

(** An [Error] as a handler sees it. *)
Record JsError : Type := mkError {
  err_name : string;
  err_message : string
}.

(** The coordinator and what it acts on.
    - [downloads] is the private [Map]; [detached] keeps the objects that
      [removeDownload] dropped from it and that closures still hold.
    - [files] are the paths that exist under the models directory.
    - [events] are the events emitted so far, oldest first.
    - [aborted] are the controllers whose [abort()] was called; [signals] are
      the signals sent to fetch-tool children, oldest first.
    - [lastProgressUpdate] is the local variable of that name of each
      [performHuggingFaceDownload] call.
    - [registered] are the calls of [modelRegistry.register], oldest first. *)
Record Coordinator : Type := mkCoordinator {
  downloads : gmap string ManagedDownload;
  detached : gmap string ManagedDownload;
  files : gset string;
  events : list DownloadEvent;
  aborted : gset AbortController;
  signals : list (ChildProcess * Signal);
  lastProgressUpdate : gmap string Z;
  registered : list (string * string * float * DownloadSource)
}.

Definition empty : Coordinator :=
  mkCoordinator ∅ ∅ ∅ [] ∅ [] ∅ [].

Definition set_downloads (ds : gmap string ManagedDownload) (st : Coordinator)
  : Coordinator :=
  mkCoordinator ds (detached st) (files st) (events st) (aborted st)
    (signals st) (lastProgressUpdate st) (registered st).

Definition set_detached (ds : gmap string ManagedDownload) (st : Coordinator)
  : Coordinator :=
  mkCoordinator (downloads st) ds (files st) (events st) (aborted st)
    (signals st) (lastProgressUpdate st) (registered st).

Definition set_files (fs : gset string) (st : Coordinator) : Coordinator :=
  mkCoordinator (downloads st) (detached st) fs (events st) (aborted st)
    (signals st) (lastProgressUpdate st) (registered st).

Definition set_lastProgressUpdate (l : gmap string Z) (st : Coordinator)
  : Coordinator :=
  mkCoordinator (downloads st) (detached st) (files st) (events st)
    (aborted st) (signals st) l (registered st).

(** [emitEvent(event)]. *)
Definition emitEvent (event : DownloadEvent) (st : Coordinator) : Coordinator :=
  mkCoordinator (downloads st) (detached st) (files st) (events st ++ [event])
    (aborted st) (signals st) (lastProgressUpdate st) (registered st).

(** [controller.abort()]. *)
Definition abort (c : AbortController) (st : Coordinator) : Coordinator :=
  mkCoordinator (downloads st) (detached st) (files st) (events st)
    (aborted st ∪ {[c]}) (signals st) (lastProgressUpdate st) (registered st).

(** [child.kill(signal)]. *)
Definition send (child : ChildProcess) (signal : Signal) (st : Coordinator)
  : Coordinator :=
  mkCoordinator (downloads st) (detached st) (files st) (events st)
    (aborted st) (signals st ++ [(child, signal)]) (lastProgressUpdate st)
    (registered st).

(** [modelRegistry.register(name, filename, size, source)]. *)
Definition register (name filename : string) (size : float)
    (source : DownloadSource) (st : Coordinator) : Coordinator :=
  mkCoordinator (downloads st) (detached st) (files st) (events st)
    (aborted st) (signals st) (lastProgressUpdate st)
    (registered st ++ [(name, filename, size, source)]).

(** The object a closure holds for [downloadId]. *)
Definition closure_of (downloadId : string) (st : Coordinator)
  : option ManagedDownload :=
  match downloads st !! downloadId with
  | Some managed => Some managed
  | None => detached st !! downloadId
  end.

(** A write on the closure's object. *)
Definition on_closure (f : ManagedDownload → ManagedDownload)
    (downloadId : string) (st : Coordinator) : Coordinator :=
  match downloads st !! downloadId with
  | Some managed => set_downloads (<[downloadId := f managed]> (downloads st)) st
  | None => set_detached (alter f downloadId (detached st)) st
  end.

(** A count of milliseconds as a [number]. *)
Definition float_of_Z (z : Z) : float :=
  match z with
  | Z0 => 0%float
  | Zpos _ => PrimFloat.of_uint63 (Uint63.of_Z z)
  | Zneg p => PrimFloat.opp (PrimFloat.of_uint63 (Uint63.of_Z (Zpos p)))
  end.

(** [updateProgress(downloadId, downloaded, total)] at [Date.now() = now]. *)
Definition updateProgress (now : Z) (downloadId : string)
    (downloaded total : float) (st : Coordinator) : Coordinator :=
  match downloads st !! downloadId with
  | None => st
  | Some managed =>
      let elapsed := (float_of_Z (now - startTime managed) / 1000)%float in
      let speed :=
        if PrimFloat.ltb 0 elapsed then (downloaded / elapsed)%float
        else 0%float in
      let remaining := (total - downloaded)%float in
      let eta :=
        if PrimFloat.ltb 0 speed then (remaining / speed)%float else 0%float in
      let progress :=
        {| downloaded := downloaded;
           total := total;
           percent :=
             if PrimFloat.ltb 0 total then (downloaded / total * 100)%float
             else 0%float;
           speed := Some speed;
           eta := Some eta |} in
      let managed := set_info (set_progress progress (info managed)) managed in
      (* Throttle events to every 100ms *)
      if 100 <=? now - lastUpdate managed then
        emitEvent (mkEvent downloadId now (ProgressData progress))
          (set_downloads
             (<[downloadId := set_lastUpdate now managed]> (downloads st)) st)
      else set_downloads (<[downloadId := managed]> (downloads st)) st
  end.

(** [updateStatus(downloadId, status, error?)]. *)
Definition updateStatus (now : Z) (downloadId : string)
    (status : DownloadStatus) (err : option string) (st : Coordinator)
  : Coordinator :=
  match downloads st !! downloadId with
  | None => st
  | Some managed =>
      let i := set_status status (info managed) in
      let i := if truthy_string err then set_error err i else i in
      let i := if is_terminal status then set_completedAt (Some now) i else i in
      emitEvent (mkEvent downloadId now (StatusData status err))
        (set_downloads (<[downloadId := set_info i managed]> (downloads st)) st)
  end.
(** [s.endsWith(suffix)]. *)
Definition ends_with (s suffix : string) : bool :=
  String.prefix (String.rev suffix) (String.rev s).

(** A character that [/[^a-zA-Z0-9-_]/] does not match. *)
Definition is_plain (c : ascii) : bool :=
  let n := nat_of_ascii c in
  ((97 <=? n) && (n <=? 122) || (65 <=? n) && (n <=? 90)
   || (48 <=? n) && (n <=? 57) || (n =? 45) || (n =? 95))%nat.

(** [name.replace(/[^a-zA-Z0-9-_]/g, "_")], on ASCII text. *)
Fixpoint sanitize (name : string) : string :=
  match name with
  | EmptyString => EmptyString
  | String c rest =>
      String (if is_plain c then c else "_"%char) (sanitize rest)
  end.

(** The destination file name: [base] when it ends in [.gguf], a slug of the
    display name otherwise. *)
Definition derive_filename (base name : string) : string :=
  if String.eqb base "" || negb (ends_with base ".gguf")
  then sanitize name +:+ ".gguf"
  else base.

(** What the three [downloadFrom...] functions share: the new record is put
    in the map as [pending] and flips to [downloading] at once. *)
Definition start (now : Z) (downloadId name filename : string)
    (source : DownloadSource) (total : float)
    (controller : option AbortController) (st : Coordinator) : Coordinator :=
  let download :=
    {| id := downloadId; name := name; filename := filename; source := source;
       status := pending;
       progress := mkProgress 0 total 0 None None;
       startedAt := now; completedAt := None; error_message := None |} in
  let managed :=
    {| info := download; abortController := controller; childProcess := None;
       startTime := now; lastUpdate := now |} in
  updateStatus now downloadId downloading None
    (set_downloads (<[downloadId := managed]> (downloads st)) st).

(** The [download] object that the three functions return: the record as the
    map holds it when they return. *)
Definition started (downloadId : string) (st : Coordinator) : option Download :=
  info <$> downloads st !! downloadId.

(** [getDownload(downloadId)]. *)
Definition getDownload (downloadId : string) (st : Coordinator)
  : option Download :=
  info <$> downloads st !! downloadId.

(** [getAllDownloads()]. *)
Definition getAllDownloads (st : Coordinator) : list Download :=
  (map_to_list (info <$> downloads st)).*2.

(** [getActiveDownloads()]. *)
Definition getActiveDownloads (st : Coordinator) : list Download :=
  filter (λ d, status d = downloading) (getAllDownloads st).

(** [downloadFromUrl(name, url)] up to its return. [parsed] is what
    [new URL(url)] gave: the protocol and the base name of the path, or
    [None] when it threw. *)
Definition downloadFromUrl (now : Z) (downloadId : string)
    (controller : AbortController) (name url : string)
    (parsed : option (string * string)) (st : Coordinator)
  : Result (option Download) * Coordinator :=
  match parsed with
  | None => (Throw "Invalid URL", st)
  | Some (protocol, base) =>
      if negb (String.eqb protocol "http:" || String.eqb protocol "https:")
      then (Throw "Invalid URL", st)
      else
        let st :=
          start now downloadId name (derive_filename base name) (SourceUrl url)
            0 (Some controller) st in
        (Ok (started downloadId st), st)
  end.

(** [downloadFromS3(name, bucket, key)] up to its return. [credentials] tells
    whether both keys are in the environment, [head] is the [ContentLength]
    of the metadata call or the exception it threw, [base] the base name of
    the key. *)
Definition downloadFromS3 (now : Z) (downloadId : string)
    (controller : AbortController) (name bucket key : string)
    (credentials : bool) (head : Result float) (base : string)
    (st : Coordinator) : Result (option Download) * Coordinator :=
  if negb credentials then (Throw "AWS credentials not configured", st)
  else
    match head with
    | Throw message => (Throw message, st)
    | Ok contentLength =>
        let st :=
          start now downloadId name (derive_filename base name)
            (SourceS3 bucket key) contentLength (Some controller) st in
        (Ok (started downloadId st), st)
    end.

(** [downloadFromHuggingFace(name, repoId, hfFilename, revision)] up to its
    return, with the synchronous start of [performHuggingFaceDownload]:
    [child] is the fetch tool's process. *)
Definition downloadFromHuggingFace (now : Z) (downloadId : string)
    (child : ChildProcess) (name repoId hfFilename : string)
    (revision : option string) (st : Coordinator)
  : Result (option Download) * Coordinator :=
  if String.eqb repoId "" || String.eqb hfFilename ""
  then (Throw "Repository ID and filename are required", st)
  else
    let localFilename :=
      if ends_with hfFilename ".gguf" then hfFilename
      else sanitize name +:+ ".gguf" in
    let st :=
      start now downloadId name localFilename
        (SourceHuggingFace repoId hfFilename revision) 0 None st in
    let st := on_closure (set_childProcess (Some child)) downloadId st in
    let st :=
      set_lastProgressUpdate (<[downloadId := now]> (lastProgressUpdate st)) st in
    (Ok (started downloadId st), st).

(** [performUrlDownload], when the response headers are in:
    [managed.info.progress.total = contentLength]. *)
Definition on_response (downloadId : string) (contentLength : float)
    (st : Coordinator) : Coordinator :=
  match downloads st !! downloadId with
  | Some managed =>
      let p := progress (info managed) in
      let p := mkProgress (downloaded p) contentLength (percent p) (speed p) (eta p) in
      set_downloads
        (<[downloadId := set_info (set_progress p (info managed)) managed]>
           (downloads st)) st
  | None => st
  end.

(** The read callback of [performUrlDownload] and of [performS3Download], for
    one chunk: [downloaded] is the running count with the chunk added. *)
Definition on_chunk (now : Z) (downloadId : string)
    (downloaded contentLength : float) (st : Coordinator) : Coordinator :=
  updateProgress now downloadId downloaded contentLength st.

(** The [stdout] and the [stderr] reader of [performHuggingFaceDownload], for
    one chunk of output. [progressMatch] is what the progress pattern found
    in it: the percentage and the two sizes as [parseInt] and [parseSize]
    read them, or [None] when it did not match. *)
Definition on_hf_data (now : Z) (downloadId : string)
    (progressMatch : option (float * float * float)) (st : Coordinator)
  : Coordinator :=
  match progressMatch, lastProgressUpdate st !! downloadId with
  | Some (percent, downloaded, total), Some last =>
      if 100 <=? now - last then
        let p :=
          {| downloaded := downloaded; total := total; percent := percent;
             speed := None; eta := None |} in
        let st :=
          set_lastProgressUpdate (<[downloadId := now]> (lastProgressUpdate st))
            st in
        let st :=
          on_closure (λ m, set_info (set_progress p (info m)) m) downloadId st in
        emitEvent (mkEvent downloadId now (ProgressData p)) st
      else st
  | _, _ => st
  end.

(** The [try { if (fs.existsSync(destPath)) fs.unlinkSync(destPath) } catch {}]
    of the three catch handlers; [unlink_ok] tells whether [unlinkSync]
    returned or threw. *)
Definition cleanup (destPath : string) (unlink_ok : bool) (st : Coordinator)
  : Coordinator :=
  if bool_decide (destPath ∈ files st) then
    if unlink_ok then set_files (files st ∖ {[destPath]}) st else st
  else st.

(** The [.then] handlers: the artifact is registered under [modelId], the
    record completes, the ["complete"] event follows. *)
Definition on_resolved (now : Z) (downloadId : string) (size : float)
    (modelId : string) (st : Coordinator) : Coordinator :=
  match closure_of downloadId st with
  | None => st
  | Some managed =>
      let i := info managed in
      let st := register (name i) (filename i) size (source i) st in
      let st := updateStatus now downloadId completed None st in
      emitEvent (mkEvent downloadId now (CompleteData modelId)) st
  end.

(** The [.then] handler of [downloadFromUrl]: the size is the record's
    [progress.total]. *)
Definition on_url_resolved (now : Z) (downloadId modelId : string)
    (st : Coordinator) : Coordinator :=
  match closure_of downloadId st with
  | None => st
  | Some managed =>
      on_resolved now downloadId (total (progress (info managed))) modelId st
  end.

(** The [.catch] handler of [downloadFromUrl] and of [downloadFromS3]. *)
Definition on_fetch_rejected (now : Z) (downloadId destPath : string)
    (unlink_ok : bool) (e : JsError) (st : Coordinator) : Coordinator :=
  (* Clean up partial file *)
  let st := cleanup destPath unlink_ok st in
  if String.eqb (err_name e) "AbortError"
  then updateStatus now downloadId cancelled None st
  else updateStatus now downloadId error (Some (err_message e)) st.

(** The [.catch] handler of [downloadFromHuggingFace]. *)
Definition on_hf_rejected (now : Z) (downloadId destPath : string)
    (unlink_ok : bool) (e : JsError) (st : Coordinator) : Coordinator :=
  (* Clean up partial file *)
  let st := cleanup destPath unlink_ok st in
  if String.eqb (err_message e) "Download cancelled"
  then updateStatus now downloadId cancelled None st
  else updateStatus now downloadId error (Some (err_message e)) st.

(** The ["close"] handler of [performHuggingFaceDownload]: how the promise
    settles. [code] is [None] when a signal ended the fetch tool, [stderr]
    is what it wrote to that stream, [downloadedPath] is where it put the
    file and [size] what [statSync] reports for the destination. *)
Definition hf_close (downloadId destPath downloadedPath : string)
    (code : option Z) (stderr : string) (size : float) (st : Coordinator)
  : Result float * Coordinator :=
  let st := on_closure (set_childProcess None) downloadId st in
  match code with
  | Some 0 =>
      (* If the file is in a subdirectory, move it to destPath *)
      let st :=
        if negb (String.eqb downloadedPath destPath)
           && bool_decide (downloadedPath ∈ files st)
        then set_files (files st ∖ {[downloadedPath]} ∪ {[destPath]}) st
        else st in
      if bool_decide (destPath ∈ files st) then (Ok size, st)
      else (Throw "Downloaded file not found", st)
  | None => (Throw "Download cancelled", st)
  | Some n =>
      (Throw ("hf download failed with code " +:+ pretty n +:+ ": " +:+ stderr),
       st)
  end.

(** The ["close"] event of the fetch tool, through to the handler that the
    settled promise runs. *)
Definition on_hf_close (now : Z) (downloadId destPath downloadedPath : string)
    (code : option Z) (stderr : string) (size : float) (modelId : string)
    (unlink_ok : bool) (st : Coordinator) : Coordinator :=
  match hf_close downloadId destPath downloadedPath code stderr size st with
  | (Ok fileSize, st) => on_resolved now downloadId fileSize modelId st
  | (Throw message, st) =>
      on_hf_rejected now downloadId destPath unlink_ok (mkError "Error" message)
        st
  end.

(** The ["error"] event of the fetch tool, through to the catch handler. *)
Definition on_hf_error (now : Z) (downloadId destPath message : string)
    (unlink_ok : bool) (st : Coordinator) : Coordinator :=
  let st := on_closure (set_childProcess None) downloadId st in
  on_hf_rejected now downloadId destPath unlink_ok
    (mkError "Error" ("Failed to spawn hf process: " +:+ message)) st.

(** [cancel(downloadId)]. *)
Definition cancel (downloadId : string) (st : Coordinator)
  : bool * Coordinator :=
  match downloads st !! downloadId with
  | None => (false, st)
  | Some managed =>
      if negb (bool_decide (status (info managed) = downloading))
      then (false, st)
      else
        (* Cancel fetch-based downloads *)
        let st :=
          match abortController managed with
          | Some controller => abort controller st
          | None => st
          end in
        (* Kill child process for HF downloads *)
        let st :=
          match childProcess managed with
          | Some child => send child SIGTERM st
          | None => st
          end in
        (true, st)
  end.

(** [removeDownload(downloadId)]. *)
Definition removeDownload (downloadId : string) (st : Coordinator)
  : bool * Coordinator :=
  match downloads st !! downloadId with
  | None => (false, st)
  | Some managed =>
      let st :=
        if bool_decide (status (info managed) = downloading)
        then (cancel downloadId st).2
        else st in
      let st := set_detached (<[downloadId := managed]> (detached st)) st in
      (true, set_downloads (delete downloadId (downloads st)) st)
  end.

(** The status of the record [downloadId], when there is one. *)
Definition status_of (downloadId : string) (st : Coordinator)
  : option DownloadStatus :=
  status <$> getDownload downloadId st.

(** Where [performUrlDownload] and [performS3Download] stand: at the [await]
    of the request ([fetch(url, { signal })], [s3Client.send(command,
    { abortSignal: signal })]), or, the response being there and the abort
    listener in place, at the [await] of [pipeline(nodeReadable,
    writeStream)]. *)
Inductive Stage : Type := Requesting | Piping.

(** A Node stream of the transfer: live, or destroyed, with the error that
    [destroy] was given, if any. *)
Inductive StreamState : Type :=
| Live
| Destroyed (err : option JsError).

(** [stream.destroy(err)]: a stream that is destroyed already stays as it
    is. *)
Definition destroy (err : option JsError) (stream : StreamState)
  : StreamState :=
  match stream with
  | Live => Destroyed err
  | Destroyed _ => stream
  end.

(** The error with which a request rejects when its signal aborts. *)
Definition abort_error : JsError :=
  mkError "AbortError" "This operation was aborted".

(** The error of [pipeline] for a stream that closed before it ended
    ([ERR_STREAM_PREMATURE_CLOSE]). *)
Definition premature_close : JsError := mkError "Error" "Premature close".

(** The abort of the signal while the body is piped, on the pair of
    [nodeReadable] and [writeStream]. The listener that the transfer put on
    the signal runs at once: [reader.cancel(); nodeReadable.destroy();
    writeStream.destroy()], neither [destroy] with an error. When a
    [reader.read()] was pending it then rejects, and the [catch] of [read()]
    calls [this.destroy(error)] on [nodeReadable]. *)
Definition on_signal_abort (pending_read : bool)
    (streams : StreamState * StreamState) : StreamState * StreamState :=
  let nodeReadable := destroy None streams.1 in
  let writeStream := destroy None streams.2 in
  let nodeReadable :=
    if pending_read then destroy (Some abort_error) nodeReadable
    else nodeReadable in
  (nodeReadable, writeStream).

(** How [pipeline(nodeReadable, writeStream)] rejects when a stream of it is
    destroyed before the data ended: with the error of the stream, and with
    its own error when the stream has none. *)
Definition pipeline_rejection (streams : StreamState * StreamState)
  : option JsError :=
  match streams with
  | (Destroyed (Some e), _) => Some e
  | (_, Destroyed (Some e)) => Some e
  | (Destroyed None, _) => Some premature_close
  | (_, Destroyed None) => Some premature_close
  | (Live, Live) => None
  end.

(** The rejection of the transfer that the abort of its signal brings about,
    by the stage the transfer is at. *)
Definition rejection_on_abort (stage : Stage) (pending_read : bool)
  : JsError :=
  match stage with
  | Requesting => abort_error
  | Piping =>
      default premature_close
        (pipeline_rejection (on_signal_abort pending_read (Live, Live)))
  end.

(** The ["abort"] event of the signal of [downloadId], through to the catch
    handler of [downloadFromUrl] and [downloadFromS3] that the rejected
    promise runs; nothing happens while the controller has not aborted. *)
Definition on_abort (now : Z) (downloadId destPath : string) (unlink_ok : bool)
    (stage : Stage) (pending_read : bool) (st : Coordinator) : Coordinator :=
  match closure_of downloadId st with
  | Some managed =>
      match abortController managed with
      | Some controller =>
          if bool_decide (controller ∈ aborted st)
          then on_fetch_rejected now downloadId destPath unlink_ok
                 (rejection_on_abort stage pending_read) st
          else st
      | None => st
      end
  | None => st
  end.

(** The clock readings of the ["progress"] events of [downloadId], oldest
    first. *)
Definition progress_times (downloadId : string) (evs : list DownloadEvent)
  : list Z :=
  omap
    (λ ev,
       match ev_data ev with
       | ProgressData _ =>
           if String.eqb (ev_downloadId ev) downloadId
           then Some (ev_timestamp ev) else None
       | _ => None
       end)
    evs.

(** Each reading is at least 100 ms after the one before it, the first one
    at least 100 ms after [since]. *)
Fixpoint spaced (since : Z) (times : list Z) : Prop :=
  match times with
  | [] => True
  | t :: rest => since + 100 ≤ t ∧ spaced t rest
  end.

(** The chunks of a URL or object-store transfer as the read loop sees them:
    the clock reading, the running count, the announced length. *)
Definition receive (downloadId : string) (st : Coordinator)
    (chunk : Z * float * float) : Coordinator :=
  on_chunk chunk.1.1 downloadId chunk.1.2 chunk.2 st.

(** The output of the fetch tool as the two readers see it: the clock reading
    and what the progress pattern found. *)
Definition read_output (downloadId : string) (st : Coordinator)
    (output : Z * option (float * float * float)) : Coordinator :=
  on_hf_data output.1 downloadId output.2 st.

(** What a download function leaves behind when it accepts a request at
    [now] and files it under [downloadId]: the record it returns is the one of
    the map, [downloading], for a destination that ends in [.gguf]; one
    status event has announced it; the disk, the registry and the other
    records are as they were. *)
Definition accepted (now : Z) (downloadId : string) (st st' : Coordinator)
    (result : option Download) : Prop :=
  ∃ download,
    result = Some download
    ∧ getDownload downloadId st' = Some download
    ∧ id download = downloadId
    ∧ status download = downloading
    ∧ completedAt download = None
    ∧ ends_with (filename download) ".gguf" = true
    ∧ events st'
      = events st ++ [mkEvent downloadId now (StatusData downloading None)]
    ∧ files st' = files st
    ∧ registered st' = registered st
    ∧ ∀ other, other ≠ downloadId →
               downloads st' !! other = downloads st !! other.

End DownloadManager.

(** ** Scenarios *)

Module Scenarios.
Import ProcessManager.

Definition newline : string := String "010"%char "".

(** A model is launched on a fresh server with no state file; the child gets
    handle [1] and pid [4242]. *)
Definition launch : Op :=
  OpSpawnBegin "2026-01-01T00:00:00.000Z" "p1" "m1" "Model" "/models/a.gguf"
    VllmConfig.noOverrides (Ok (1%nat, Some 4242)).

Definition launched : Supervisor :=
  run "2026-01-01T00:00:00.000Z" None [launch].

(** The child then exits with code [1]. *)
Definition crashed : Supervisor :=
  step launched (OpExit "2026-01-01T00:00:05.000Z" "p1" (Some 1)).

(** Or it is asked to stop and has not exited yet. *)
Definition stopping_now : Supervisor :=
  step launched (OpKill "2026-01-01T00:00:05.000Z" "p1" false).

(** After the crash a second model is launched; its child gets handle [2]
    and pid [4343]. *)
Definition relaunch : Op :=
  OpSpawnBegin "2026-01-01T00:00:10.000Z" "p2" "m2" "Other" "/models/b.gguf"
    VllmConfig.noOverrides (Ok (2%nat, Some 4343)).

Definition relaunched : Supervisor := step crashed relaunch.

(** A record as a state file may hold it. *)
Definition persisted (processId : string) (port : Z) (s : ProcessStatus)
  : VLLMProcess :=
  {| id := processId; modelId := "m1"; modelName := "Model";
     modelPath := "/models/a.gguf"; port := port; status := s;
     pid := Some 4242; startedAt := Some "2026-01-01T00:00:00.000Z";
     stoppedAt := None; config := VllmConfig.getDefaultConfig port;
     error_message := None |}.

End Scenarios.

Module DownloadScenarios.
Import DownloadManager.

(** A file of a model repository is fetched; the fetch tool runs as child
    [7]. *)
Definition repository_started : Coordinator :=
  (downloadFromHuggingFace 0 "d1" 7%nat "model" "org/repo" "model.gguf" None
     empty).2.

(** A file is fetched from a URL under controller [3], and the response
    announces its length. *)
Definition url_started : Coordinator :=
  on_response "d2" 5368709120
    (downloadFromUrl 0 "d2" 3%nat "model" "https://h/x.gguf"
       (Some ("https:", "x.gguf")) empty).2.

(** The partial file of the URL transfer is on disk. *)
Definition url_partial : Coordinator :=
  set_files {["models/x.gguf"]} url_started.

(** Four chunks of it, 40, 100, 150 and 230 ms after the start. *)
Definition fast_chunks : list (Z * float * float) :=
  [(40, 1024%float, 5368709120%float); (100, 2048%float, 5368709120%float);
   (150, 3072%float, 5368709120%float); (230, 4096%float, 5368709120%float)].

End DownloadScenarios.

(** ** [src/lib/model-registry.ts] *)

Module ModelRegistry.

Inductive SourceType : Type := source_url | source_s3 | source_huggingface.

(** [interface ModelSource]. *)
Record ModelSource : Type := mkSource {
  type : SourceType;
  url : option string;
  bucket : option string;
  key : option string;
  repoId : option string;
  source_filename : option string;
  revision : option string
}.

(** [interface Model]; a size is a whole number of bytes. *)
Record Model : Type := mkModel {
  id : string;
  name : string;
  filename : string;
  path : string;
  size : Z;
  downloadedAt : string;
  source : ModelSource;
  checksum : option string
}.

Definition set_name (n : string) (m : Model) : Model :=
  mkModel (id m) n (filename m) (path m) (size m) (downloadedAt m) (source m)
    (checksum m).

Definition set_size (n : Z) (m : Model) : Model :=
  mkModel (id m) (name m) (filename m) (path m) n (downloadedAt m) (source m)
    (checksum m).

Definition set_source (src : ModelSource) (m : Model) : Model :=
  mkModel (id m) (name m) (filename m) (path m) (size m) (downloadedAt m) src
    (checksum m).

Definition set_checksum (c : option string) (m : Model) : Model :=
  mkModel (id m) (name m) (filename m) (path m) (size m) (downloadedAt m)
    (source m) c.

(** The registry once it is initialized, and what it acts on.
    - [models] is [registry.models].
    - [files] are the files on disk, each with its size.
    - [registry_file] is the content of [REGISTRY_FILE]; a write is taken to
      succeed (the code logs a failed write and carries on). *)
Record Registry : Type := mkRegistry {
  models : list Model;
  files : gmap string Z;
  registry_file : option (list Model)
}.

Definition set_models (ms : list Model) (reg : Registry) : Registry :=
  mkRegistry ms (files reg) (registry_file reg).

Definition set_files (fs : gmap string Z) (reg : Registry) : Registry :=
  mkRegistry (models reg) fs (registry_file reg).

(** [saveRegistry()]. *)
Definition saveRegistry (reg : Registry) : Registry :=
  mkRegistry (models reg) (files reg) (Some (models reg)).

(** [getModel(id)]. *)
Definition getModel (modelId : string) (reg : Registry) : option Model :=
  snd <$> list_find (λ m, id m = modelId) (models reg).

(** [getModelByPath(modelPath)]. *)
Definition getModelByPath (modelPath : string) (reg : Registry) : option Model :=
  snd <$> list_find (λ m, path m = modelPath) (models reg).

(** [validateModels()]: the models whose file is there, each with the size
    the file has now; a file that is there can be examined. *)
Definition validateModels (reg : Registry) : Registry :=
  let validModels :=
    omap (λ model,
            match files reg !! path model with
            | Some bytes => Some (set_size bytes model)
            | None => None
            end)
      (models reg) in
  saveRegistry (set_models validModels reg).

(** [deleteModel(id)]; [unlink] is the error text with which [fs.unlinkSync]
    fails when it is called, or [None] when it succeeds. *)
Definition deleteModel (modelId : string) (unlink : option string)
    (reg : Registry) : Result bool * Registry :=
  match list_find (λ m, id m = modelId) (models reg) with
  | None => (Ok false, reg)
  | Some (index, model) =>
      let removed (reg : Registry) : Result bool * Registry :=
        (* Remove from registry *)
        (Ok true, saveRegistry (set_models (delete index (models reg)) reg)) in
      (* Delete the file *)
      match files reg !! path model with
      | Some _ =>
          match unlink with
          | Some failure =>
              (Throw ("Failed to delete model file: " +:+ failure), reg)
          | None => removed (set_files (delete (path model) (files reg)) reg)
          end
      | None => removed reg
      end
  end.

Section Paths.

(** [getModelPath(filename)], that is [path.join(MODELS_PATH, filename)]. *)
Variable getModelPath : string → string.

(** [register(name, filename, size, source, checksum)]; [newId] is the id
    that [uuidv4] draws and [now] the clock, both used for a new model only. *)
Definition register (newId now : string) (name filename : string) (size : Z)
    (source : ModelSource) (checksum : option string) (reg : Registry)
  : Model * Registry :=
  let modelPath := getModelPath filename in
  (* Check if model already exists *)
  match list_find (λ m, path m = modelPath) (models reg) with
  | Some (index, existing) =>
      (* Update existing model *)
      let existing :=
        set_checksum checksum
          (set_source source (set_size size (set_name name existing))) in
      (existing, saveRegistry (set_models (<[index := existing]> (models reg)) reg))
  | None =>
      let model :=
        {| id := newId; name := name; filename := filename; path := modelPath;
           size := size; downloadedAt := now; source := source;
           checksum := checksum |} in
      (model, saveRegistry (set_models (models reg ++ [model]) reg))
  end.

(** A call of the registry's interface, or the validation that loading the
    registry runs. *)
Inductive Op : Type :=
| OpRegister (newId now name filename : string) (size : Z)
    (source : ModelSource) (checksum : option string)
| OpDeleteModel (modelId : string) (unlink : option string)
| OpValidateModels.

Definition step (reg : Registry) (op : Op) : Registry :=
  match op with
  | OpRegister newId now name filename size source checksum =>
      (register newId now name filename size source checksum reg).2
  | OpDeleteModel modelId unlink => (deleteModel modelId unlink reg).2
  | OpValidateModels => validateModels reg
  end.

End Paths.

(** No two models of the registry share a path, or an id. *)
Definition distinct (reg : Registry) : Prop :=
  NoDup (path <$> models reg) ∧ NoDup (id <$> models reg).

(** The id that an operation gives to a model it creates. *)
Definition drawn (op : Op) : option string :=
  match op with
  | OpRegister newId _ _ _ _ _ _ => Some newId
  | _ => None
  end.

(** Every id that [ops] draw is new: not in [used], and drawn once. *)
Fixpoint fresh_ids (used : list string) (ops : list Op) : Prop :=
  match ops with
  | [] => True
  | op :: ops =>
      match drawn op with
      | Some newId => (newId ∉ used) ∧ fresh_ids (newId :: used) ops
      | None => fresh_ids used ops
      end
  end.

End ModelRegistry.

(** ** The route handlers of [src/app/api/processes/[id]] and
       [src/app/api/models/[id]] *)

Module Routes.
Import ProcessManager.

(** What a handler answers: the status code and the JSON body. *)
Inductive Body : Type :=
| ErrorBody (error : string)
| SuccessBody.

Record Response : Type := mkResponse {
  code : Z;
  body : Body
}.

(** [NextResponse.json(body)] answers [200]. *)
Definition json (b : Body) : Response := mkResponse 200 b.

(** [POST /api/processes/[id]?action=remove]. *)
Definition process_POST_remove (processId : string) (st : Supervisor)
  : Response * Supervisor :=
  match removeProcess processId st with
  | (Ok removed, st) =>
      if negb removed
      then (mkResponse 404 (ErrorBody "Process not found or still running"), st)
      else (json SuccessBody, st)
  | (Throw message, st) =>
      (* catch *)
      (mkResponse 500 (ErrorBody message), st)
  end.

(** [DELETE /api/models/[id]]; [unlink] as for [deleteModel]. *)
Definition model_DELETE (modelId : string) (unlink : option string)
    (reg : ModelRegistry.Registry) (st : Supervisor)
  : Response * ModelRegistry.Registry :=
  match ModelRegistry.getModel modelId reg with
  | None => (mkResponse 404 (ErrorBody "Model not found"), reg)
  | Some model =>
      (* Check if model is in use by any running process *)
      let runningProcesses := getRunningProcesses st in
      let inUse :=
        existsb (λ p, String.eqb (ProcessManager.modelId p) modelId)
          runningProcesses in
      if inUse
      then (mkResponse 409 (ErrorBody "Model is in use by a running process"),
            reg)
      else
        match ModelRegistry.deleteModel modelId unlink reg with
        | (Ok deleted, reg) =>
            if negb deleted
            then (mkResponse 500 (ErrorBody "Failed to delete model"), reg)
            else (json SuccessBody, reg)
        | (Throw _, reg) =>
            (* catch *)
            (mkResponse 500 (ErrorBody "Failed to delete model"), reg)
        end
  end.

End Routes.

(** ** The hook [useProcessStatus] and the stream it reads,
       [src/app/api/stream/processes] *)

Module ProcessStatusHook.
Import ProcessManager.

(** [interface ProcessState]. *)
Record ProcessState : Type := mkState {
  processes : list VLLMProcess;
  logs : gmap string (list string)
}.

(** The messages of the stream: the [init] message with the records, and the
    events of the supervisor as they are forwarded. *)
Inductive SSEEvent : Type :=
| InitEvent (processes : list VLLMProcess)
| Forwarded (event : ProcessEvent).

(** The initial state of [useState]. *)
Definition initial : ProcessState := {| processes := []; logs := ∅ |}.

(** [[...processLogs, message].slice(-500)]. *)
Definition latest (lines : list string) : list string :=
  drop (length lines - 500)%nat lines.

(** [handleMessage(data)], as the state update it requests. *)
Definition handleMessage (prev : ProcessState) (event : SSEEvent)
  : ProcessState :=
  match event with
  | InitEvent processes => {| processes := processes; logs := logs prev |}
  | Forwarded event =>
      match ev_data event with
      | StatusData s =>
          if truthy_string (Some (ev_processId event))
          then
            {| processes :=
                 (λ p, if String.eqb (id p) (ev_processId event)
                       then set_status s p else p) <$> processes prev;
               logs := logs prev |}
          else prev
      | LogData message _ =>
          if truthy_string (Some (ev_processId event))
             && truthy_string (Some message)
          then
            let processId := ev_processId event in
            let processLogs := default [] (logs prev !! processId) in
            {| processes := processes prev;
               logs := <[processId := latest (processLogs ++ [message])]>
                         (logs prev) |}
          else prev
      end
  end.

(** What [GET /api/stream/processes] sends to a client that connects in the
    state [st] while the supervisor moves on to [st']: the records, then
    every event emitted since. *)
Definition stream (st st' : Supervisor) : list SSEEvent :=
  InitEvent (getAllProcesses st)
  :: (Forwarded <$> drop (length (events st)) (events st')).

(** The state of a client that has read [messages]. *)
Definition read (messages : list SSEEvent) : ProcessState :=
  foldl handleMessage initial messages.

(** The status that the status events of [events] for [processId] leave,
    starting from [s]. *)
Definition announced (processId : string) (events : list ProcessEvent)
    (s : ProcessStatus) : ProcessStatus :=
  foldl (λ s event,
           match ev_data event with
           | StatusData s' =>
               if String.eqb processId (ev_processId event) then s' else s
           | LogData _ _ => s
           end)
    s events.

(** The log messages for [processId] among [messages], oldest first. *)
Definition log_messages (processId : string) (messages : list SSEEvent)
  : list string :=
  omap (λ message,
          match message with
          | Forwarded event =>
              match ev_data event with
              | LogData line _ =>
                  if String.eqb (ev_processId event) processId
                     && truthy_string (Some (ev_processId event))
                     && truthy_string (Some line)
                  then Some line else None
              | StatusData _ => None
              end
          | InitEvent _ => None
          end)
    messages.

(** What the client makes of a record on one forwarded event. *)
Definition shown (event : ProcessEvent) (p : VLLMProcess) : VLLMProcess :=
  match ev_data event with
  | StatusData s =>
      if negb (String.eqb (ev_processId event) "")
         && String.eqb (id p) (ev_processId event)
      then set_status s p else p
  | LogData _ _ => p
  end.

(** Between [st] and [st'] the supervisor has emitted events, and the record
    [processId], if it is still there, has the status that the status events
    for it announce. *)
Definition tracks (processId : string) (st st' : Supervisor) : Prop :=
  ∃ emitted,
    events st' = events st ++ emitted
    ∧ match status_of processId st with
      | Some s =>
          status_of processId st' = None
          ∨ status_of processId st' = Some (announced processId emitted s)
      | None => status_of processId st' = None
      end.

End ProcessStatusHook.

(** * Properties *)

(** ** The port allocator *)

Module PortManagerProofs.
Import PortManager.

Example allocate_fresh : (allocate ∅).1 = Ok 8000.
Proof. vm_compute. reflexivity. Qed.

Example allocate_skips_used : (allocate {[8000; 8001; 8003]}).1 = Ok 8002.
Proof. vm_compute. reflexivity. Qed.

Example allocate_after_release :
  live (run [Allocate; Allocate; Allocate; Release 8001; Allocate; Allocate])
  = [8003; 8001; 8002; 8000].
Proof. vm_compute. reflexivity. Qed.

(** The loop stops at the first port the set does not hold. *)
Lemma scan_Some n port used q :
  scan n port used = Some q →
  (port ≤ q < port + Z.of_nat n) ∧ (q ∉ used) ∧ (∀ r, port ≤ r < q → r ∈ used).
Proof.
  revert port. induction n as [|n IH]; intros port Hscan; simpl in Hscan.
  - discriminate.
  - destruct (decide (port ∈ used)) as [Hin|Hout].
    + destruct (IH _ Hscan) as (Hrange & Hfree & Hbelow).
      split; [lia|]. split; [exact Hfree|].
      intros r Hr. destruct (decide (r = port)) as [->|Hne]; [exact Hin|].
      apply Hbelow. lia.
    + injection Hscan as <-. split; [lia|]. split; [exact Hout|].
      intros r Hr. lia.
Qed.

(** The loop falls through only over ports that are all held. *)
Lemma scan_None n port used :
  scan n port used = None → ∀ r, port ≤ r < port + Z.of_nat n → r ∈ used.
Proof.
  revert port. induction n as [|n IH]; intros port Hscan r Hr; simpl in Hscan.
  - lia.
  - destruct (decide (port ∈ used)) as [Hin|Hout]; [|discriminate].
    destruct (decide (r = port)) as [->|Hne]; [exact Hin|].
    apply (IH _ Hscan). lia.
Qed.

Lemma allocate_Ok used port used' :
  allocate used = (Ok port, used') →
  (BASE_PORT ≤ port ≤ MAX_PORT) ∧ (port ∉ used)
  ∧ (∀ q, BASE_PORT ≤ q < port → q ∈ used) ∧ used' = used ∪ {[port]}.
Proof.
  unfold allocate. intros Halloc.
  destruct (scan _ _ _) as [q|] eqn:Hscan; [|discriminate].
  injection Halloc as <- <-.
  destruct (scan_Some _ _ _ _ Hscan) as (Hrange & Hfree & Hbelow).
  unfold BASE_PORT, MAX_PORT in *. repeat split; try done; lia.
Qed.

Lemma allocate_Throw used message used' :
  allocate used = (Throw message, used') →
  used' = used ∧ ∀ q, BASE_PORT ≤ q ≤ MAX_PORT → q ∈ used.
Proof.
  unfold allocate. intros Halloc.
  destruct (scan _ _ _) as [q|] eqn:Hscan; [discriminate|].
  injection Halloc as _ <-. split; [done|].
  intros q Hq. apply (scan_None _ _ _ Hscan).
  unfold BASE_PORT, MAX_PORT in *. lia.
Qed.

Lemma consistent_fresh : consistent fresh.
Proof.
  split; [constructor|]. intros q. simpl. split; intros Hq.
  - set_solver.
  - inversion Hq.
Qed.

Lemma consistent_run_call c s : consistent s → consistent (run_call c s).
Proof.
  intros [Hnodup Hsame]. destruct c as [|port]; simpl.
  - destruct (allocate (usedPorts s)) as [[port|message] used'] eqn:Halloc.
    + destruct (allocate_Ok _ _ _ Halloc) as (_ & Hfree & _ & ->).
      split; simpl.
      * constructor; [|exact Hnodup]. rewrite <- Hsame. exact Hfree.
      * intros q. rewrite elem_of_union, elem_of_singleton, elem_of_cons, Hsame.
        tauto.
    + destruct (allocate_Throw _ _ _ Halloc) as [-> _]. by split.
  - split; simpl.
    + by apply NoDup_filter.
    + intros q. unfold release.
      rewrite elem_of_difference, elem_of_singleton, list_elem_of_filter, Hsame.
      tauto.
Qed.

Lemma consistent_fold calls s :
  consistent s → consistent (fold_left (λ s c, run_call c s) calls s).
Proof.
  revert s. induction calls as [|c calls IH]; intros s Hs; simpl; [done|].
  apply IH. by apply consistent_run_call.
Qed.

(** C3. After every sequence of [allocate] and [release] calls on a fresh
    allocator no port is live twice, the set holds exactly the live ports,
    and the next [allocate] returns the lowest port of [[BASE_PORT, MAX_PORT]]
    that the set does not hold, adding it to the set; it throws only when
    every port of the range is held (and then leaves the set alone). *)
Theorem allocate_lowest_free_port (calls : list call) :
  let s := run calls in
  NoDup (live s)
  ∧ (∀ q, q ∈ usedPorts s ↔ q ∈ live s)
  ∧ match allocate (usedPorts s) with
    | (Ok port, used') =>
        (BASE_PORT ≤ port ≤ MAX_PORT)
        ∧ (port ∉ usedPorts s)
        ∧ (∀ q, BASE_PORT ≤ q < port → q ∈ usedPorts s)
        ∧ used' = usedPorts s ∪ {[port]}
    | (Throw _, used') =>
        used' = usedPorts s ∧ ∀ q, BASE_PORT ≤ q ≤ MAX_PORT → q ∈ live s
    end.
Proof.
  intros s.
  destruct (consistent_fold calls fresh consistent_fresh) as [Hnodup Hsame].
  fold (run calls) in Hnodup, Hsame. fold s in Hnodup, Hsame.
  split; [exact Hnodup|]. split; [exact Hsame|].
  destruct (allocate (usedPorts s)) as [[port|message] used'] eqn:Halloc.
  - by apply allocate_Ok.
  - destruct (allocate_Throw _ _ _ Halloc) as [-> Hfull]. split; [done|].
    intros q Hq. apply Hsame, Hfull, Hq.
Qed.

(** C9. [release] is idempotent, and releasing a port that is free leaves
    the set as it was. *)
Theorem release_idempotent (port : Z) (used : gset Z) :
  release port (release port used) = release port used
  ∧ (port ∉ used → release port used = used).
Proof.
  unfold release. split.
  - apply set_eq. intros q. rewrite !elem_of_difference. tauto.
  - intros Hfree. apply set_eq. intros q.
    rewrite elem_of_difference, elem_of_singleton. split; [tauto|].
    intros Hq. split; [exact Hq|]. intros ->. exact (Hfree Hq).
Qed.

Lemma release_idempotent_free :
  release 8005 (release 8005 {[8000; 8001]}) = release 8005 {[8000; 8001]}
  ∧ release 8005 {[8000; 8001]} = {[8000; 8001]}.
Proof.
  destruct (release_idempotent 8005 {[8000; 8001]}) as [Htwice Hfree].
  split; [exact Htwice|]. apply Hfree. vm_compute. intros H. discriminate H.
Defined.

End PortManagerProofs.

(** ** The launch argument vector *)

Module VllmConfigProofs.
Import VllmConfig.

Section Args.

Variable Number_toString : float → string.

Lemma push_if_app (cond : bool) (items args : list string) :
  push_if cond items args = args ++ (if cond then items else []).
Proof. destruct cond; simpl; [done|]. by rewrite app_nil_r. Qed.

(** An option with its value, or a switch, in option position: its name is
    listed and the reader is back in option position behind it. *)
Lemma names_from_required (name value : string) rest :
  takes_value name = true →
  names_from false (name :: value :: rest) = name :: names_from false rest.
Proof. intros Hvalue. simpl. by rewrite Hvalue. Qed.

Lemma names_from_option (cond : bool) (name value : string) rest :
  takes_value name = true →
  names_from false ((if cond then [name; value] else []) ++ rest)
  = (if cond then [name] else []) ++ names_from false rest.
Proof. intros Hvalue. destruct cond; simpl; [|done]. by rewrite Hvalue. Qed.

Lemma names_from_switch (cond : bool) (name : string) rest :
  takes_value name = false →
  names_from false ((if cond then [name] else []) ++ rest)
  = (if cond then [name] else []) ++ names_from false rest.
Proof. intros Hswitch. destruct cond; simpl; [|done]. by rewrite Hswitch. Qed.

(** The names in option position of a vector that [buildVLLMArgs] built are
    the names it pushed, whatever text the values hold. *)
Lemma option_names_buildVLLMArgs modelPath config :
  option_names (buildVLLMArgs Number_toString modelPath config)
  = ["--port"; "--host"]
    ++ (if truthy_string (tokenizer config) then ["--tokenizer"] else [])
    ++ (if truthy_string (TokenizerMode_text <$> tokenizerMode config)
        then ["--tokenizer-mode"] else [])
    ++ (if truthy_number (tensorParallelSize config)
           && gt (tensorParallelSize config) 1
        then ["--tensor-parallel-size"] else [])
    ++ (if truthy_number (pipelineParallelSize config)
           && gt (pipelineParallelSize config) 1
        then ["--pipeline-parallel-size"] else [])
    ++ (if truthy_string (Dtype_text <$> dtype config)
           && negb (String.eqb (str (Dtype_text <$> dtype config)) "auto")
        then ["--dtype"] else [])
    ++ (if truthy_number (maxModelLen config) then ["--max-model-len"] else [])
    ++ (if truthy_number (gpuMemoryUtilization config)
           && gt (gpuMemoryUtilization config) 0
           && le (gpuMemoryUtilization config) 1
        then ["--gpu-memory-utilization"] else [])
    ++ (if truthy_string (quantization config) then ["--quantization"] else [])
    ++ (if truthy_string (LoadFormat_text <$> loadFormat config)
           && negb (String.eqb (str (LoadFormat_text <$> loadFormat config))
                      "auto")
        then ["--load-format"] else [])
    ++ (if truthy_string (apiKey config) then ["--api-key"] else [])
    ++ (if truthy_string (servedModelName config)
        then ["--served-model-name"] else [])
    ++ (if truthy_bool (enforceEager config) then ["--enforce-eager"] else [])
    ++ (if truthy_number (maxNumSeqs config) then ["--max-num-seqs"] else [])
    ++ (if truthy_bool (trustRemoteCode config)
        then ["--trust-remote-code"] else []).
Proof.
  unfold option_names, buildVLLMArgs. rewrite !push_if_app.
  rewrite <- !app_assoc. simpl drop.
  rewrite !names_from_required by reflexivity.
  rewrite !names_from_option by reflexivity.
  rewrite names_from_switch by reflexivity.
  rewrite names_from_option by reflexivity.
  rewrite <- (app_nil_r (if truthy_bool (trustRemoteCode config) then _ else _)).
  rewrite names_from_switch by reflexivity.
  simpl. by rewrite !app_nil_r.
Qed.


Example tensor_parallel_pushed :
  "--tensor-parallel-size"
  ∈ option_names
      (buildVLLMArgs Number_toString "/models/a.gguf"
         (mergeConfig 8000
            (mkUserConfig None None (Some 2%float) None None None None None
               None None None None None None))).
Proof. rewrite option_names_buildVLLMArgs. vm_compute. set_solver. Qed.


End Args.


End VllmConfigProofs.

(** ** The process supervisor *)

Module ProcessManagerProofs.
Import ProcessManager.

(** *** How the operations act on the map of records *)

Lemma insert_as_alter (f : ManagedProcess → ManagedProcess) processId managed
    (ps : gmap string ManagedProcess) :
  ps !! processId = Some managed →
  <[processId := f managed]> ps = alter f processId ps.
Proof.
  intros Hm. apply map_eq. intros k. rewrite lookup_insert, lookup_alter.
  destruct (decide (processId = k)) as [<-|Hne]; [by rewrite Hm|done].
Qed.

Lemma alter_absent (f : ManagedProcess → ManagedProcess) processId
    (ps : gmap string ManagedProcess) :
  ps !! processId = None → alter f processId ps = ps.
Proof.
  intros Hm. apply map_eq. intros k. rewrite lookup_alter.
  destruct (decide (processId = k)) as [<-|Hne]; [by rewrite Hm|done].
Qed.

Lemma processes_updateStatus now processId s err st :
  processes (updateStatus now processId s err st)
  = alter (λ m, set_info (next_info now s err (info m)) m) processId
      (processes st).
Proof.
  unfold updateStatus.
  destruct (processes st !! processId) as [managed|] eqn:Hm; simpl.
  - by apply (insert_as_alter (λ m, set_info (next_info now s err (info m)) m)).
  - by rewrite alter_absent.
Qed.

Lemma updateStatus_absent now processId s err st :
  processes st !! processId = None → updateStatus now processId s err st = st.
Proof. intros Hm. unfold updateStatus. by rewrite Hm. Qed.

Lemma usedPorts_updateStatus now processId s err st managed :
  processes st !! processId = Some managed →
  usedPorts (updateStatus now processId s err st)
  = if is_terminal s
    then PortManager.release (port (info managed)) (usedPorts st)
    else usedPorts st.
Proof.
  intros Hm. unfold updateStatus. rewrite Hm. simpl.
  destruct (is_terminal s), (truthy_string err); reflexivity.
Qed.

Lemma synced_updateStatus now processId s err st managed :
  processes st !! processId = Some managed →
  synced (updateStatus now processId s err st).
Proof. intros Hm. unfold updateStatus. rewrite Hm. reflexivity. Qed.

Lemma next_info_status now s err i : status (next_info now s err i) = s.
Proof.
  unfold next_info. destruct (is_terminal s), (truthy_string err); reflexivity.
Qed.

Lemma next_info_port now s err i : port (next_info now s err i) = port i.
Proof.
  unfold next_info. destruct (is_terminal s), (truthy_string err); reflexivity.
Qed.

Lemma next_info_stoppedAt now s err i :
  is_terminal s = true → stoppedAt (next_info now s err i) = Some now.
Proof.
  intros Hs. unfold next_info. rewrite Hs. reflexivity.
Qed.

(** *** What leaves the records, the state file and the allocator alone *)

Lemma same_records_refl st : same_records st st.
Proof. by repeat split. Qed.

Lemma same_records_trans st1 st2 st3 :
  same_records st1 st2 → same_records st2 st3 → same_records st1 st3.
Proof.
  intros (Hi & Hf & Hu) (Hi' & Hf' & Hu'). repeat split; congruence.
Qed.

Lemma getProcess_infos processId st :
  getProcess processId st = (info <$> processes st) !! processId.
Proof. unfold getProcess. by rewrite lookup_fmap. Qed.

Lemma getProcess_same st st' processId :
  same_records st st' → getProcess processId st' = getProcess processId st.
Proof. intros (Hi & _). by rewrite !getProcess_infos, Hi. Qed.

Lemma synced_same st st' : same_records st st' → synced st → synced st'.
Proof.
  intros (Hi & Hf & _) Hs. unfold synced, getAllProcesses in *.
  by rewrite Hi, Hf.
Qed.

Lemma settled_same now processId st st' :
  same_records st st' → settled now processId st → settled now processId st'.
Proof.
  intros Hsame [Hs Hterm]. split; [by apply (synced_same st)|].
  intros i Hi. rewrite (getProcess_same _ _ _ Hsame) in Hi.
  destruct Hsame as (_ & _ & ->). by apply Hterm.
Qed.

Lemma infos_alter (f : ManagedProcess → ManagedProcess) processId
    (ps : gmap string ManagedProcess) :
  (∀ m, info (f m) = info m) → info <$> alter f processId ps = info <$> ps.
Proof.
  intros Hf. apply map_eq. intros k. rewrite !lookup_fmap, lookup_alter.
  destruct (decide (processId = k)) as [<-|Hne]; [|done].
  destruct (ps !! processId); simpl; [by rewrite Hf|done].
Qed.

Lemma same_records_addLog now processId message stream st :
  same_records st (addLog now processId message stream st).
Proof.
  unfold addLog. destruct (processes st !! processId) as [managed|] eqn:Hm;
    [|apply same_records_refl].
  repeat split; simpl.
  rewrite (insert_as_alter (λ m, set_logs _ m) _ _ _ Hm).
  by apply infos_alter.
Qed.

Lemma same_records_clear_process processId st :
  same_records st (clear_process processId st).
Proof.
  unfold clear_process. destruct (processes st !! processId) as [managed|] eqn:Hm;
    [|by repeat split].
  repeat split; simpl.
  rewrite (insert_as_alter (set_process None) _ _ _ Hm).
  by apply infos_alter.
Qed.

Lemma same_records_send child signal st : same_records st (send child signal st).
Proof. by repeat split. Qed.

(** *** What [updateStatus] does to a record *)

Lemma getProcess_updateStatus_ne now processId processId' s err st :
  processId ≠ processId' →
  getProcess processId (updateStatus now processId' s err st)
  = getProcess processId st.
Proof.
  intros Hne. unfold getProcess.
  by rewrite processes_updateStatus, lookup_alter_ne.
Qed.

Lemma getProcess_updateStatus_eq now processId s err st managed :
  processes st !! processId = Some managed →
  getProcess processId (updateStatus now processId s err st)
  = Some (next_info now s err (info managed)).
Proof.
  intros Hm. unfold getProcess.
  by rewrite processes_updateStatus, lookup_alter_eq, Hm.
Qed.

Lemma settled_updateStatus now processId s err st managed :
  processes st !! processId = Some managed →
  settled now processId (updateStatus now processId s err st).
Proof.
  intros Hm. split; [by eapply synced_updateStatus|].
  intros i Hi Hterm. rewrite (getProcess_updateStatus_eq _ _ _ _ _ _ Hm) in Hi.
  injection Hi as <-. rewrite next_info_status in Hterm.
  rewrite (usedPorts_updateStatus _ _ _ _ _ _ Hm), Hterm, next_info_port.
  split; [|by apply next_info_stoppedAt].
  unfold PortManager.release. rewrite elem_of_difference, elem_of_singleton.
  intros [_ Hne]. by apply Hne.
Qed.

Lemma settled_updateStatus_other now now' processId processId' s err st :
  processId ≠ processId' → is_terminal s = false →
  settled now processId st →
  settled now processId (updateStatus now' processId' s err st).
Proof.
  intros Hne Hs [Hsync Hterm].
  destruct (processes st !! processId') as [managed|] eqn:Hm;
    [|by rewrite updateStatus_absent].
  split; [by eapply synced_updateStatus|].
  intros i Hi. rewrite getProcess_updateStatus_ne in Hi by done.
  rewrite (usedPorts_updateStatus _ _ _ _ _ _ Hm), Hs. by apply Hterm.
Qed.

(** A call of [updateStatus] either leaves the record [processId] as it
    was or settles it. *)
Lemma updateStatus_effect now processId processId' s err st :
  getProcess processId (updateStatus now processId' s err st)
  = getProcess processId st
  ∨ settled now processId (updateStatus now processId' s err st).
Proof.
  destruct (decide (processId = processId')) as [<-|Hne].
  - destruct (processes st !! processId) as [managed|] eqn:Hm.
    + right. by eapply settled_updateStatus.
    + left. by rewrite updateStatus_absent.
  - left. by apply getProcess_updateStatus_ne.
Qed.

(** *** What one operation does to a record *)

Lemma effect_same now processId st st' st'' :
  same_records st' st'' →
  getProcess processId st' = getProcess processId st
  ∨ settled now processId st' →
  getProcess processId st'' = getProcess processId st
  ∨ settled now processId st''.
Proof.
  intros Hsame [Heq|Hset].
  - left. by rewrite (getProcess_same _ _ _ Hsame).
  - right. by apply (settled_same _ _ st').
Qed.

Lemma on_stdout_line_effect now processId processId' st0 st line :
  getProcess processId st = getProcess processId st0
  ∨ settled now processId st →
  getProcess processId (on_stdout_line now processId' st line)
  = getProcess processId st0
  ∨ settled now processId (on_stdout_line now processId' st line).
Proof.
  intros Hst. unfold on_stdout_line.
  pose proof (same_records_addLog now processId' line stdout st) as Hlog.
  set (mid := addLog now processId' line stdout st) in *.
  assert (Hmid : getProcess processId mid = getProcess processId st0
                 ∨ settled now processId mid) by by eapply effect_same.
  destruct (is_ready line); [|exact Hmid].
  destruct (decide (processId = processId')) as [<-|Hne].
  - destruct (processes mid !! processId) as [managed|] eqn:Hm.
    + right. by eapply settled_updateStatus.
    + by rewrite updateStatus_absent.
  - destruct Hmid as [Heq|Hset].
    + left. by rewrite getProcess_updateStatus_ne.
    + right. by apply settled_updateStatus_other.
Qed.

Lemma on_stdout_effect now processId processId' data st :
  getProcess processId (on_stdout now processId' data st)
  = getProcess processId st
  ∨ settled now processId (on_stdout now processId' data st).
Proof.
  unfold on_stdout.
  assert (Hgen : ∀ lines st',
            getProcess processId st' = getProcess processId st
            ∨ settled now processId st' →
            getProcess processId (foldl (on_stdout_line now processId') st' lines)
            = getProcess processId st
            ∨ settled now processId
                (foldl (on_stdout_line now processId') st' lines)).
  { induction lines as [|line lines IH]; intros st' Hst'; simpl; [done|].
    apply IH. by apply on_stdout_line_effect. }
  apply Hgen. by left.
Qed.

Lemma same_records_on_stderr now processId data st :
  same_records st (on_stderr now processId data st).
Proof.
  unfold on_stderr. generalize (lines_of data). intros lines.
  assert (Hgen : ∀ st', same_records st st' →
            same_records st
              (foldl (λ st line, addLog now processId line stderr st) st' lines)).
  { induction lines as [|line lines IH]; intros st' Hst'; simpl; [done|].
    apply IH. eapply same_records_trans; [exact Hst'|].
    apply same_records_addLog. }
  apply Hgen, same_records_refl.
Qed.

Lemma on_exit_effect now processId processId' code st :
  getProcess processId (on_exit now processId' code st)
  = getProcess processId st
  ∨ settled now processId (on_exit now processId' code st).
Proof.
  unfold on_exit. destruct (closure_of processId' st) as [managed|]; [|by left].
  eapply effect_same; [apply same_records_clear_process|].
  destruct (_ && _); apply updateStatus_effect.
Qed.

Lemma kill_effect now processId processId' force st :
  getProcess processId (kill now processId' force st).2
  = getProcess processId st
  ∨ settled now processId (kill now processId' force st).2.
Proof.
  unfold kill. destruct (processes st !! processId') as [managed|]; [|by left].
  destruct (process managed) as [child|]; simpl.
  - eapply effect_same; [apply same_records_send|]. apply updateStatus_effect.
  - apply updateStatus_effect.
Qed.

Lemma kill_timeout_same processId st :
  same_records st (kill_timeout processId st).
Proof.
  unfold kill_timeout. destruct (closure_of processId st) as [managed|];
    [|apply same_records_refl].
  destruct (process managed); [apply same_records_send|apply same_records_refl].
Qed.

Lemma removeProcess_effect now processId processId' st :
  getProcess processId (removeProcess processId' st).2
  = getProcess processId st
  ∨ settled now processId (removeProcess processId' st).2.
Proof.
  unfold removeProcess.
  destruct (processes st !! processId') as [managed|] eqn:Hm; [|by left].
  destruct (_ || _); [by left|]. simpl.
  destruct (decide (processId = processId')) as [<-|Hne].
  - right. split; [reflexivity|]. intros i Hi.
    unfold getProcess in Hi. simpl in Hi. by rewrite lookup_delete_eq in Hi.
  - left. unfold getProcess. simpl. by rewrite lookup_delete_ne.
Qed.

Lemma spawn_resume_effect now processId processId' st r st' :
  spawn_resume now processId' st = Some (r, st') →
  getProcess processId st' = getProcess processId st
  ∨ settled now processId st'.
Proof.
  unfold spawn_resume, closure_of.
  destruct (processes st !! processId') as [managed|] eqn:Hm.
  - destruct (decide _); intros [= <- <-]; [|by left].
    destruct (decide (processId = processId')) as [<-|Hne].
    + right. by eapply settled_updateStatus.
    + left. by rewrite getProcess_updateStatus_ne.
  - destruct (detached st !! processId') as [managed|]; [|done].
    destruct (decide _); intros [= <- <-]; [|by left].
    left. by rewrite updateStatus_absent.
Qed.

Lemma spawn_begin_effect now processId processId' modelId modelName modelPath
    userConfig child st :
  processId ≠ processId' →
  getProcess processId
    (spawn_begin now processId' modelId modelName modelPath userConfig child st).2
  = getProcess processId st.
Proof.
  intros Hne. unfold spawn_begin.
  destruct (PortManager.allocate (usedPorts st)) as [[port|message] used];
    [|done].
  destruct child as [[childProcess childPid]|message]; simpl.
  - unfold getProcess. simpl. by rewrite !lookup_insert_ne.
  - rewrite getProcess_updateStatus_ne by done.
    unfold getProcess. simpl. by rewrite lookup_insert_ne.
Qed.

(** Every operation either leaves a record as it was or settles it, unless
    it is the [spawn] that creates the record. *)
Lemma step_effect st op processId :
  created op ≠ Some processId →
  getProcess processId (step st op) = getProcess processId st
  ∨ settled (clock op) processId (step st op).
Proof.
  intros Hcreated. destruct op; simpl.
  - left. apply spawn_begin_effect. simpl in Hcreated. congruence.
  - destruct (spawn_resume now processId0 st) as [[r st']|] eqn:Hresume;
      [|by left]. by eapply spawn_resume_effect.
  - apply on_stdout_effect.
  - left. apply getProcess_same, same_records_on_stderr.
  - apply updateStatus_effect.
  - apply on_exit_effect.
  - apply kill_effect.
  - left. apply getProcess_same, kill_timeout_same.
  - apply removeProcess_effect.
Qed.

(** *** Stopped records keep no handle *)

Lemma processes_addLog now processId message stream st :
  ∃ f, (∀ m, info (f m) = info m ∧ process (f m) = process m)
       ∧ processes (addLog now processId message stream st)
         = alter f processId (processes st).
Proof.
  unfold addLog. destruct (processes st !! processId) as [managed|] eqn:Hm.
  - eexists (λ m, set_logs _ m). split; [done|]. simpl.
    apply (insert_as_alter (λ m, set_logs _ m) _ _ _ Hm).
  - exists (λ m, m). split; [done|]. by rewrite alter_absent.
Qed.

Lemma processes_clear_process processId st :
  processes (clear_process processId st)
  = alter (set_process None) processId (processes st).
Proof.
  unfold clear_process. destruct (processes st !! processId) as [managed|] eqn:Hm.
  - simpl. by apply insert_as_alter.
  - simpl. by rewrite alter_absent.
Qed.

Lemma no_handle_alter (f : ManagedProcess → ManagedProcess) processId st st' :
  processes st' = alter f processId (processes st) →
  (∀ m, processes st !! processId = Some m →
        status (info (f m)) = stopped → process (f m) = None) →
  stopped_records_have_no_handle st → stopped_records_have_no_handle st'.
Proof.
  intros Hps Hf Hinv k m'. rewrite Hps, lookup_alter.
  destruct (decide (processId = k)) as [<-|Hne]; [|apply Hinv].
  destruct (processes st !! processId) as [m|] eqn:Hm; [|done].
  simpl. intros [= <-]. by apply Hf.
Qed.

Lemma no_handle_insert processId managed st st' :
  processes st' = <[processId := managed]> (processes st) →
  (status (info managed) = stopped → process managed = None) →
  stopped_records_have_no_handle st → stopped_records_have_no_handle st'.
Proof.
  intros Hps Hm Hinv k m'. rewrite Hps, lookup_insert.
  destruct (decide (processId = k)) as [<-|Hne]; [|apply Hinv].
  intros [= <-]. exact Hm.
Qed.

Lemma no_handle_same st st' :
  processes st' = processes st →
  stopped_records_have_no_handle st → stopped_records_have_no_handle st'.
Proof. intros Hps Hinv k m'. rewrite Hps. apply Hinv. Qed.

Lemma no_handle_updateStatus now processId s err st :
  (s = stopped → ∀ m, processes st !! processId = Some m → process m = None) →
  stopped_records_have_no_handle st →
  stopped_records_have_no_handle (updateStatus now processId s err st).
Proof.
  intros Hs.
  apply (no_handle_alter (λ m, set_info (next_info now s err (info m)) m)
           processId); [apply processes_updateStatus|].
  intros m Hm. simpl. rewrite next_info_status. intros ->. by eapply Hs.
Qed.

Lemma no_handle_addLog now processId message stream st :
  stopped_records_have_no_handle st →
  stopped_records_have_no_handle (addLog now processId message stream st).
Proof.
  destruct (processes_addLog now processId message stream st) as (f & Hf & Hps).
  intros Hinv. eapply no_handle_alter; [exact Hps| |exact Hinv].
  intros m Hm. destruct (Hf m) as [-> ->]. intros Hstopped. by eapply Hinv.
Qed.

Lemma no_handle_on_stdout now processId data st :
  stopped_records_have_no_handle st →
  stopped_records_have_no_handle (on_stdout now processId data st).
Proof.
  unfold on_stdout. generalize (lines_of data). intros lines. revert st.
  induction lines as [|line lines IH]; intros st Hinv; simpl; [done|].
  apply IH. unfold on_stdout_line.
  destruct (is_ready line); [|by apply no_handle_addLog].
  apply no_handle_updateStatus; [done|]. by apply no_handle_addLog.
Qed.

Lemma no_handle_on_stderr now processId data st :
  stopped_records_have_no_handle st →
  stopped_records_have_no_handle (on_stderr now processId data st).
Proof.
  unfold on_stderr. generalize (lines_of data). intros lines. revert st.
  induction lines as [|line lines IH]; intros st Hinv; simpl; [done|].
  apply IH. by apply no_handle_addLog.
Qed.

Lemma no_handle_on_exit now processId code st :
  stopped_records_have_no_handle st →
  stopped_records_have_no_handle (on_exit now processId code st).
Proof.
  intros Hinv. unfold on_exit.
  destruct (closure_of processId st) as [managed|]; [|done].
  set (st1 := if _ && _ then _ else _).
  intros k m'. rewrite processes_clear_process, lookup_alter.
  destruct (decide (processId = k)) as [<-|Hne].
  - destruct (processes st1 !! processId); [|done]. by intros [= <-].
  - subst st1. destruct (_ && _); rewrite processes_updateStatus,
      lookup_alter_ne by done; apply Hinv.
Qed.

Lemma no_handle_kill now processId force st :
  stopped_records_have_no_handle st →
  stopped_records_have_no_handle (kill now processId force st).2.
Proof.
  intros Hinv. unfold kill.
  destruct (processes st !! processId) as [managed|] eqn:Hm; [|done].
  destruct (process managed) as [child|] eqn:Hchild; simpl.
  - apply (no_handle_same (updateStatus now processId stopping None st));
      [done|]. by apply no_handle_updateStatus.
  - apply no_handle_updateStatus; [|done]. intros _ m Hm'. congruence.
Qed.

Lemma no_handle_kill_timeout processId st :
  stopped_records_have_no_handle st →
  stopped_records_have_no_handle (kill_timeout processId st).
Proof.
  intros Hinv. unfold kill_timeout.
  destruct (closure_of processId st) as [managed|]; [|done].
  destruct (process managed); [|done]. by apply (no_handle_same st).
Qed.

Lemma no_handle_removeProcess processId st :
  stopped_records_have_no_handle st →
  stopped_records_have_no_handle (removeProcess processId st).2.
Proof.
  intros Hinv. unfold removeProcess.
  destruct (processes st !! processId) as [managed|]; [|done].
  destruct (_ || _); [done|]. simpl. intros k m'. simpl.
  rewrite lookup_delete. destruct (decide (processId = k)); [done|apply Hinv].
Qed.

Lemma no_handle_spawn_resume now processId st r st' :
  spawn_resume now processId st = Some (r, st') →
  stopped_records_have_no_handle st → stopped_records_have_no_handle st'.
Proof.
  unfold spawn_resume. destruct (closure_of processId st) as [managed|]; [|done].
  destruct (decide _); intros [= <- <-] Hinv; [|done].
  apply no_handle_updateStatus; [done|]. by apply (no_handle_same st).
Qed.

Lemma no_handle_spawn_begin now processId modelId modelName modelPath
    userConfig child st :
  stopped_records_have_no_handle st →
  stopped_records_have_no_handle
    (spawn_begin now processId modelId modelName modelPath userConfig child st).2.
Proof.
  intros Hinv. unfold spawn_begin.
  destruct (PortManager.allocate (usedPorts st)) as [[port|message] used];
    [|done].
  destruct child as [[childProcess childPid]|message]; simpl.
  - intros k m'. simpl. rewrite !lookup_insert.
    destruct (decide (processId = k)); [by intros [= <-]|apply Hinv].
  - apply no_handle_updateStatus; [done|].
    intros k m'. simpl. rewrite lookup_insert.
    destruct (decide (processId = k)); [by intros [= <-]|apply Hinv].
Qed.

Lemma no_handle_step st op :
  stopped_records_have_no_handle st → stopped_records_have_no_handle (step st op).
Proof.
  intros Hinv. destruct op; simpl.
  - by apply no_handle_spawn_begin.
  - destruct (spawn_resume now processId st) as [[r st']|] eqn:Hresume;
      [|done]. by eapply no_handle_spawn_resume.
  - by apply no_handle_on_stdout.
  - by apply no_handle_on_stderr.
  - by apply no_handle_updateStatus.
  - by apply no_handle_on_exit.
  - by apply no_handle_kill.
  - by apply no_handle_kill_timeout.
  - by apply no_handle_removeProcess.
Qed.

Lemma no_handle_getInstance now file :
  stopped_records_have_no_handle (getInstance now file).
Proof.
  unfold getInstance, restoreState. simpl. destruct file as [data|]; [|done].
  assert (Hgen : ∀ st, stopped_records_have_no_handle st →
            stopped_records_have_no_handle (foldl (restore_one now) st data)).
  { induction data as [|processInfo data IH]; intros st Hinv; simpl; [done|].
    apply IH. unfold restore_one.
    set (loaded := if _ || _ then _ else processInfo).
    assert (Hloaded : stopped_records_have_no_handle
              (set_processes
                 (<[id loaded := {| info := loaded; process := None; logs := [] |}]>
                    (processes st)) st)).
    { intros k m'. simpl. rewrite lookup_insert.
      destruct (decide (id loaded = k)); [by intros [= <-]|apply Hinv]. }
    destruct (negb _); [|exact Hloaded]. exact Hloaded. }
  by apply Hgen.
Qed.

Lemma no_handle_steps ops st :
  stopped_records_have_no_handle st →
  stopped_records_have_no_handle (foldl step st ops).
Proof.
  revert st. induction ops as [|op ops IH]; intros st Hinv; simpl; [done|].
  by apply IH, no_handle_step.
Qed.

(** In every state that a supervisor reaches from startup, a record that is
    [stopped] has no handle left. *)
Theorem stopped_records_keep_no_handle now file ops :
  stopped_records_have_no_handle (run now file ops).
Proof.
  unfold run. apply no_handle_steps. unfold getInstance.
  exact (no_handle_getInstance now file).
Qed.

(** *** The status after [updateStatus], [kill] and the exit handler *)

Lemma status_of_same st st' processId :
  same_records st st' → status_of processId st' = status_of processId st.
Proof. intros Hsame. unfold status_of. by rewrite (getProcess_same st st'). Qed.

Lemma status_of_updateStatus now processId s err st managed :
  processes st !! processId = Some managed →
  status_of processId (updateStatus now processId s err st) = Some s.
Proof.
  intros Hm. unfold status_of.
  rewrite (getProcess_updateStatus_eq _ _ _ _ _ _ Hm). simpl.
  by rewrite next_info_status.
Qed.

Lemma status_of_kill now processId force st managed :
  processes st !! processId = Some managed →
  status_of processId (kill now processId force st).2
  = Some (match process managed with Some _ => stopping | None => stopped end).
Proof.
  intros Hm. unfold kill. rewrite Hm. destruct (process managed); simpl.
  - rewrite (status_of_same (updateStatus now processId stopping None st))
      by apply same_records_send.
    by eapply status_of_updateStatus.
  - by eapply status_of_updateStatus.
Qed.

Lemma status_of_on_exit now processId code st managed :
  processes st !! processId = Some managed →
  status_of processId (on_exit now processId code st)
  = Some (match status (info managed) with
          | stopping | stopped => stopped
          | _ => if bool_decide (code = Some 0) then stopped else error
          end).
Proof.
  intros Hm. unfold on_exit, closure_of. rewrite Hm.
  rewrite (status_of_same _ _ _ (same_records_clear_process _ _)).
  destruct (status (info managed)); simpl; by eapply status_of_updateStatus.
Qed.

(** C1, as the code has it. In every state that a supervisor reaches, for
    every record: [kill] sets [stopping] when an operating-system handle
    remains and [stopped] when none does; the exit handler of [spawn] sets
    [stopped] when the status was [stopping] or [stopped], and otherwise
    [stopped] on exit code [0] and [error] on any other; [updateStatus] sets
    the status it is given, whatever the current one. A [stopped] record has
    no handle left, so it stays [stopped] under [kill] and under the exit
    handler; an [error] record does not stay [error] under [kill]. *)
Theorem stopped_is_final_under_kill_and_exit now file ops processId managed :
  let st := run now file ops in
  processes st !! processId = Some managed →
  (∀ t force,
     status_of processId (kill t processId force st).2
     = Some (match process managed with
             | Some _ => stopping
             | None => stopped
             end))
  ∧ (∀ t code,
       status_of processId (on_exit t processId code st)
       = Some (match status (info managed) with
               | stopping | stopped => stopped
               | _ => if bool_decide (code = Some 0) then stopped else error
               end))
  ∧ (∀ t s err, status_of processId (updateStatus t processId s err st) = Some s)
  ∧ (status (info managed) = stopped →
     ∀ t force code,
       status_of processId (kill t processId force st).2 = Some stopped
       ∧ status_of processId (on_exit t processId code st) = Some stopped)
  ∧ (status (info managed) = error →
     ∀ t force,
       status_of processId (kill t processId force st).2 ≠ Some error).
Proof.
  intros st Hm.
  split; [intros; by apply status_of_kill|].
  split; [intros; by apply status_of_on_exit|].
  split; [intros; by eapply status_of_updateStatus|].
  split.
  - intros Hstopped t force code.
    rewrite (status_of_kill _ _ _ _ _ Hm), (status_of_on_exit _ _ _ _ _ Hm).
    rewrite (no_handle_steps ops _ (no_handle_getInstance now file) _ _ Hm
               Hstopped), Hstopped.
    done.
  - intros _ t force. rewrite (status_of_kill _ _ _ _ _ Hm).
    by destruct (process managed).
Qed.

Lemma stopped_is_final_after_stop :
  let st :=
    step Scenarios.stopping_now (OpExit "2026-01-01T00:00:06.000Z" "p1" None) in
  status_of "p1" st = Some stopped
  ∧ status_of "p1" (kill "2026-01-01T00:00:07.000Z" "p1" true st).2 = Some stopped
  ∧ status_of "p1" (on_exit "2026-01-01T00:00:07.000Z" "p1" (Some 1) st)
    = Some stopped.
Proof.
  intros st.
  assert (Hm : ∃ managed, processes st !! "p1" = Some managed
                          ∧ status (info managed) = stopped).
  { vm_compute. eexists. split; reflexivity. }
  destruct Hm as (managed & Hm & Hstopped).
  destruct (stopped_is_final_under_kill_and_exit "2026-01-01T00:00:00.000Z" None
              [Scenarios.launch;
               OpKill "2026-01-01T00:00:05.000Z" "p1" false;
               OpExit "2026-01-01T00:00:06.000Z" "p1" None]
              "p1" managed Hm) as (_ & _ & _ & Hfinal & _).
  split; [vm_compute; reflexivity|]. by apply Hfinal.
Defined.

(** C1, as stated, fails: the record of a child that crashed is in [error];
    a [kill] of it finds no handle and sets [stopped]. *)
Lemma kill_moves_error_to_stopped :
  status_of "p1" Scenarios.crashed = Some error
  ∧ status_of "p1"
      (kill "2026-01-01T00:00:09.000Z" "p1" false Scenarios.crashed).2
    = Some stopped.
Proof. split; vm_compute; reflexivity. Qed.

(** *** Recovery *)

(** Settles the tests of a status against a constant. *)
Ltac decide_status :=
  repeat first
    [ rewrite bool_decide_eq_true_2 by done
    | rewrite bool_decide_eq_false_2 by done ];
  simpl.

(** What the loop of [restoreState] does with one persisted record: a
    [running] or [starting] record is stored as [stopped], stamped, and no
    port is reserved for it; a [stopped] record is stored as it is and no port
    is reserved; any other record, [stopping] or [error], is stored as it is
    and its port goes through [reserve]. *)
Lemma restore_one_cases now st processInfo :
  let st' := restore_one now st processInfo in
  (status processInfo = running ∨ status processInfo = starting →
   processes st' !! id processInfo
   = Some {| info := set_stoppedAt (Some now) (set_status stopped processInfo);
             process := None; logs := [] |}
   ∧ usedPorts st' = usedPorts st)
  ∧ (status processInfo = stopped →
     processes st' !! id processInfo
     = Some {| info := processInfo; process := None; logs := [] |}
     ∧ usedPorts st' = usedPorts st)
  ∧ (status processInfo = stopping ∨ status processInfo = error →
     processes st' !! id processInfo
     = Some {| info := processInfo; process := None; logs := [] |}
     ∧ usedPorts st'
       = (PortManager.reserve (port processInfo) (usedPorts st)).2).
Proof.
  intros st'. subst st'. unfold restore_one.
  split; [|split].
  - intros [Hs|Hs]; rewrite Hs; decide_status; by rewrite lookup_insert_eq.
  - intros Hs. rewrite !Hs. decide_status. by rewrite lookup_insert_eq.
  - intros [Hs|Hs]; rewrite !Hs; decide_status; rewrite !Hs; decide_status;
      by rewrite lookup_insert_eq.
Qed.

Example restore_running :
  let st :=
    getInstance "2026-01-02T00:00:00.000Z"
      (Some [Scenarios.persisted "p1" 8000 running]) in
  status_of "p1" st = Some stopped ∧ usedPorts st = ∅.
Proof. split; vm_compute; reflexivity. Qed.

Example restore_stopping :
  let st :=
    getInstance "2026-01-02T00:00:00.000Z"
      (Some [Scenarios.persisted "p1" 8000 stopping]) in
  status_of "p1" st = Some stopping ∧ usedPorts st = {[8000]}.
Proof. split; vm_compute; reflexivity. Qed.

(** C2 at a state file that holds one record in [error]: the record is left
    as it is, and its port is reserved; the next [spawn] gets the port
    after it. *)
Theorem restore_reserves_port_of_error_record :
  let st :=
    getInstance "2026-01-02T00:00:00.000Z"
      (Some [Scenarios.persisted "p1" 8000 error]) in
  getProcess "p1" st = Some (Scenarios.persisted "p1" 8000 error)
  ∧ 8000 ∈ usedPorts st
  ∧ (PortManager.allocate (usedPorts st)).1 = Ok 8001.
Proof.
  intros st. split; [vm_compute; reflexivity|]. split.
  - replace (usedPorts st) with ({[8000]} : gset Z) by (vm_compute; reflexivity).
    by apply elem_of_singleton.
  - vm_compute. reflexivity.
Qed.

(** *** Forgetting a record *)

Lemma removeProcess_live processId st managed :
  processes st !! processId = Some managed →
  status (info managed) = running ∨ status (info managed) = starting →
  removeProcess processId st
  = (Throw "Cannot remove running process. Stop it first.", st).
Proof.
  intros Hm Hs. unfold removeProcess. rewrite Hm.
  by destruct Hs as [-> | ->].
Qed.

Lemma removeProcess_other processId st managed :
  processes st !! processId = Some managed →
  status (info managed) ≠ running → status (info managed) ≠ starting →
  let r := removeProcess processId st in
  r.1 = Ok true
  ∧ getProcess processId r.2 = None
  ∧ (∀ i, i ∈ getAllProcesses r.2 →
          ∃ k, k ≠ processId ∧ getProcess k st = Some i)
  ∧ synced r.2.
Proof.
  intros Hm Hrun Hstart r. subst r. unfold removeProcess. rewrite Hm.
  rewrite !bool_decide_eq_false_2 by done. simpl.
  split; [done|]. split; [|split; [|reflexivity]].
  - unfold getProcess. simpl. by rewrite lookup_delete_eq.
  - intros i Hi. unfold getAllProcesses in Hi. simpl in Hi.
    apply list_elem_of_fmap in Hi as ([k i'] & -> & Hi).
    apply elem_of_map_to_list in Hi. rewrite lookup_fmap in Hi.
    exists k. rewrite lookup_delete in Hi.
    destruct (decide (processId = k)) as [<-|Hne]; [done|].
    split; [done|]. by rewrite getProcess_infos, lookup_fmap.
Qed.

(** [removeProcess] answers [false] for an id it does not know and leaves
    everything as it was; it throws, and leaves everything as it was, for a
    record that is [running] or [starting]; any other record it deletes,
    saves the remaining set and answers [true]. *)
Theorem removeProcess_cases processId st :
  (processes st !! processId = None →
   removeProcess processId st = (Ok false, st))
  ∧ (∀ managed,
       processes st !! processId = Some managed →
       (status (info managed) = running ∨ status (info managed) = starting →
        removeProcess processId st
        = (Throw "Cannot remove running process. Stop it first.", st))
       ∧ (status (info managed) ≠ running → status (info managed) ≠ starting →
          let r := removeProcess processId st in
          r.1 = Ok true
          ∧ getProcess processId r.2 = None
          ∧ (∀ i, i ∈ getAllProcesses r.2 →
                  ∃ k, k ≠ processId ∧ getProcess k st = Some i)
          ∧ state_file r.2 = Some (getAllProcesses r.2))).
Proof.
  split.
  - intros Hm. unfold removeProcess. by rewrite Hm.
  - intros managed Hm. split.
    + by apply removeProcess_live.
    + intros Hrun Hstart. by eapply removeProcess_other.
Qed.

Lemma removeProcess_of_running_and_crashed :
  removeProcess "p1" Scenarios.launched
  = (Throw "Cannot remove running process. Stop it first.", Scenarios.launched)
  ∧ (removeProcess "p1" Scenarios.crashed).1 = Ok true
  ∧ getProcess "p1" (removeProcess "p1" Scenarios.crashed).2 = None.
Proof.
  assert (Hlive : ∃ managed,
             processes Scenarios.launched !! "p1" = Some managed
             ∧ status (info managed) = starting).
  { vm_compute. eexists. split; reflexivity. }
  destruct Hlive as (live & Hlive & Hstarting).
  assert (Hdead : ∃ managed,
             processes Scenarios.crashed !! "p1" = Some managed
             ∧ status (info managed) = error).
  { vm_compute. eexists. split; reflexivity. }
  destruct Hdead as (dead & Hdead & Herror).
  destruct (removeProcess_cases "p1" Scenarios.launched) as [_ Hknown].
  destruct (Hknown live Hlive) as [Hrejected _].
  destruct (removeProcess_cases "p1" Scenarios.crashed) as [_ Hknown'].
  destruct (Hknown' dead Hdead) as [_ Hremoved].
  destruct Hremoved as (Htrue & Hgone & _); [congruence|congruence|].
  split; [apply Hrejected; by right|]. by split.
Defined.

(** C5 at a record that is [stopping]: [removeProcess] does not reject it.
    It returns [true] and forgets the record while the child is still
    there; when the child then exits, [updateStatus] finds no record and the
    port is never released. *)
Theorem removeProcess_accepts_stopping :
  let r := removeProcess "p1" Scenarios.stopping_now in
  status_of "p1" Scenarios.stopping_now = Some stopping
  ∧ r.1 = Ok true
  ∧ getAllProcesses r.2 = []
  ∧ usedPorts (on_exit "2026-01-01T00:00:06.000Z" "p1" None r.2) = {[8000]}.
Proof. intros r. repeat split; vm_compute; reflexivity. Qed.

(** C6. Every status transition persists the whole record set, and one that
    ends in [stopped] or [error] frees the record's port and stamps the stop
    time. First for [updateStatus], the one function that writes a status
    after construction; then for every operation of a constructed supervisor
    that changes the status of a record (the [spawn] that would create a
    record under an id in use is left out: ids are fresh [uuidv4] values). *)
Theorem transition_persists_and_releases :
  (∀ now processId s err st managed,
     processes st !! processId = Some managed →
     let st' := updateStatus now processId s err st in
     status_of processId st' = Some s
     ∧ state_file st' = Some (getAllProcesses st')
     ∧ (is_terminal s = true →
        (port (info managed) ∉ usedPorts st')
        ∧ stoppedAt <$> getProcess processId st' = Some (Some now)))
  ∧ (∀ st op processId s s',
       status_of processId st = Some s →
       status_of processId (step st op) = Some s' →
       s ≠ s' →
       created op ≠ Some processId →
       state_file (step st op) = Some (getAllProcesses (step st op))
       ∧ (is_terminal s' = true →
          ∃ i, getProcess processId (step st op) = Some i
               ∧ (port i ∉ usedPorts (step st op))
               ∧ stoppedAt i = Some (clock op))).
Proof.
  split.
  - intros now processId s err st managed Hm st'. subst st'.
    pose proof (settled_updateStatus now _ s err _ _ Hm) as [Hsync Hterm].
    pose proof (getProcess_updateStatus_eq now _ s err _ _ Hm) as Hget.
    split; [|split; [exact Hsync|]].
    + unfold status_of. by rewrite Hget; simpl; rewrite next_info_status.
    + intros Hs. destruct (Hterm _ Hget) as [Hport Hstop].
      { by rewrite next_info_status. }
      rewrite next_info_port in Hport. split; [exact Hport|].
      by rewrite Hget; simpl; rewrite Hstop.
  - intros st op processId s s' Hbefore Hafter Hchange Hcreated.
    destruct (step_effect st op processId Hcreated) as [Hsame|[Hsync Hterm]].
    + unfold status_of in *. rewrite Hsame, Hbefore in Hafter. congruence.
    + split; [exact Hsync|]. intros Hs'.
      unfold status_of in Hafter.
      destruct (getProcess processId (step st op)) as [i|] eqn:Hi; [|done].
      injection Hafter as <-. exists i. split; [done|]. by apply Hterm.
Qed.

Example ready_line_starts_running :
  status_of "p1"
    (step Scenarios.launched
       (OpStdout "2026-01-01T00:00:03.000Z" "p1"
          ("INFO:     Started server process" +:+ Scenarios.newline
           +:+ "INFO:     Application startup complete." +:+ Scenarios.newline)))
  = Some running.
Proof. vm_compute. reflexivity. Qed.

Example log_lines_are_stamped :
  logs <$> processes
             (step Scenarios.launched
                (OpStderr "2026-01-01T00:00:03.000Z" "p1"
                   ("warming up" +:+ Scenarios.newline +:+ Scenarios.newline
                    +:+ "loading weights")))
           !! "p1"
  = Some ["[2026-01-01T00:00:03.000Z] [stderr] warming up";
          "[2026-01-01T00:00:03.000Z] [stderr] loading weights"].
Proof. vm_compute. reflexivity. Qed.

Example crashed_status : status_of "p1" Scenarios.crashed = Some error.
Proof. vm_compute. reflexivity. Qed.

Example crashed_port_free : usedPorts Scenarios.crashed = ∅.
Proof. vm_compute. reflexivity. Qed.

Lemma transition_persists_on_crash :
  state_file Scenarios.crashed = Some (getAllProcesses Scenarios.crashed)
  ∧ ∃ i, getProcess "p1" Scenarios.crashed = Some i
         ∧ (port i ∉ usedPorts Scenarios.crashed)
         ∧ stoppedAt i = Some "2026-01-01T00:00:05.000Z".
Proof.
  destruct transition_persists_and_releases as [_ Hstep].
  destruct (Hstep Scenarios.launched
              (OpExit "2026-01-01T00:00:05.000Z" "p1" (Some 1)) "p1"
              starting error) as [Hfile Hterm].
  - vm_compute. reflexivity.
  - vm_compute. reflexivity.
  - discriminate.
  - discriminate.
  - split; [exact Hfile|]. apply Hterm. reflexivity.
Defined.

End ProcessManagerProofs.

(** ** The download coordinator *)

Module DownloadManagerProofs.
Import DownloadManager.

Example repository_started_status :
  status_of "d1" DownloadScenarios.repository_started = Some downloading.
Proof. vm_compute. reflexivity. Qed.

Example url_started_active :
  filename <$> getActiveDownloads DownloadScenarios.url_started = ["x.gguf"].
Proof. vm_compute. reflexivity. Qed.

Example slug_of_name : derive_filename "weights.bin" "My Model v1.0" = "My_Model_v1_0.gguf".
Proof. vm_compute. reflexivity. Qed.

(** *** How the operations act on the map of records *)

Lemma download_insert_as_alter (f : ManagedDownload → ManagedDownload) downloadId managed
    (ds : gmap string ManagedDownload) :
  ds !! downloadId = Some managed →
  <[downloadId := f managed]> ds = alter f downloadId ds.
Proof.
  intros Hm. apply map_eq. intros k. rewrite lookup_insert, lookup_alter.
  destruct (decide (downloadId = k)) as [<-|Hne]; [by rewrite Hm|done].
Qed.

(** The record that [updateStatus] stores in place of [i]. *)
Lemma getDownload_updateStatus now downloadId s err st managed :
  downloads st !! downloadId = Some managed →
  getDownload downloadId (updateStatus now downloadId s err st)
  = Some
      (let i := set_status s (info managed) in
       let i := if truthy_string err then set_error err i else i in
       if is_terminal s then set_completedAt (Some now) i else i).
Proof.
  intros Hm. unfold getDownload, updateStatus. rewrite Hm. simpl.
  by rewrite lookup_insert_eq.
Qed.

Lemma download_status_after_update now downloadId s err st managed :
  downloads st !! downloadId = Some managed →
  status_of downloadId (updateStatus now downloadId s err st) = Some s.
Proof.
  intros Hm. unfold status_of.
  rewrite (getDownload_updateStatus _ _ _ _ _ _ Hm). simpl.
  by destruct (is_terminal s), (truthy_string err).
Qed.

Lemma error_message_updateStatus now downloadId s message st managed :
  downloads st !! downloadId = Some managed → message ≠ "" →
  error_message <$> getDownload downloadId
                      (updateStatus now downloadId s (Some message) st)
  = Some (Some message).
Proof.
  intros Hm Hmessage. rewrite (getDownload_updateStatus _ _ _ _ _ _ Hm). simpl.
  assert (String.eqb message "" = false) as ->
    by by apply String.eqb_neq.
  simpl. by destruct (is_terminal s).
Qed.

Lemma files_updateStatus now downloadId s err st :
  files (updateStatus now downloadId s err st) = files st.
Proof. unfold updateStatus. by destruct (downloads st !! downloadId). Qed.

Lemma downloads_cleanup destPath unlink_ok st :
  downloads (cleanup destPath unlink_ok st) = downloads st.
Proof.
  unfold cleanup. destruct (bool_decide _); [|done]. by destruct unlink_ok.
Qed.

Lemma files_cleanup destPath st : destPath ∉ files (cleanup destPath true st).
Proof.
  unfold cleanup. destruct (bool_decide (destPath ∈ files st)) eqn:Hexists.
  - simpl. rewrite elem_of_difference, elem_of_singleton. by intros [_ Hne].
  - by apply bool_decide_eq_false in Hexists.
Qed.

Lemma on_closure_present f downloadId st managed :
  downloads st !! downloadId = Some managed →
  downloads (on_closure f downloadId st) !! downloadId = Some (f managed)
  ∧ files (on_closure f downloadId st) = files st.
Proof.
  intros Hm. unfold on_closure. rewrite Hm. simpl.
  by rewrite lookup_insert_eq.
Qed.

(** *** How a transfer that did not succeed ends *)

Lemma on_fetch_rejected_spec now downloadId destPath unlink_ok e st managed :
  downloads st !! downloadId = Some managed →
  let st' := on_fetch_rejected now downloadId destPath unlink_ok e st in
  status_of downloadId st'
  = Some (if String.eqb (err_name e) "AbortError" then cancelled else error)
  ∧ (String.eqb (err_name e) "AbortError" = false → err_message e ≠ "" →
     error_message <$> getDownload downloadId st' = Some (Some (err_message e)))
  ∧ (unlink_ok = true → destPath ∉ files st').
Proof.
  intros Hm st'. subst st'. unfold on_fetch_rejected.
  assert (Hm' : downloads (cleanup destPath unlink_ok st) !! downloadId
                = Some managed) by by rewrite downloads_cleanup.
  split; [|split].
  - destruct (String.eqb _ _); by eapply download_status_after_update.
  - intros -> Hmessage. by eapply error_message_updateStatus.
  - intros ->. destruct (String.eqb _ _); rewrite files_updateStatus;
      apply files_cleanup.
Qed.

Lemma on_hf_rejected_spec now downloadId destPath unlink_ok e st managed :
  downloads st !! downloadId = Some managed →
  let st' := on_hf_rejected now downloadId destPath unlink_ok e st in
  status_of downloadId st'
  = Some (if String.eqb (err_message e) "Download cancelled"
          then cancelled else error)
  ∧ (String.eqb (err_message e) "Download cancelled" = false →
     err_message e ≠ "" →
     error_message <$> getDownload downloadId st' = Some (Some (err_message e)))
  ∧ (unlink_ok = true → destPath ∉ files st').
Proof.
  intros Hm st'. subst st'. unfold on_hf_rejected.
  assert (Hm' : downloads (cleanup destPath unlink_ok st) !! downloadId
                = Some managed) by by rewrite downloads_cleanup.
  split; [|split].
  - destruct (String.eqb _ _); by eapply download_status_after_update.
  - intros -> Hmessage. by eapply error_message_updateStatus.
  - intros ->. destruct (String.eqb _ _); rewrite files_updateStatus;
      apply files_cleanup.
Qed.

Lemma on_hf_close_spec now downloadId destPath downloadedPath code stderr size
    modelId unlink_ok st managed :
  downloads st !! downloadId = Some managed →
  code ≠ Some 0 →
  let st' :=
    on_hf_close now downloadId destPath downloadedPath code stderr size modelId
      unlink_ok st in
  status_of downloadId st'
  = Some (match code with None => cancelled | Some _ => error end)
  ∧ (∀ n, code = Some n →
       error_message <$> getDownload downloadId st'
       = Some (Some ("hf download failed with code " +:+ pretty n +:+ ": "
                     +:+ stderr)))
  ∧ (unlink_ok = true → destPath ∉ files st').
Proof.
  intros Hm Hcode st'. subst st'. unfold on_hf_close, hf_close.
  destruct (on_closure_present (set_childProcess None) _ _ _ Hm) as [Hm1 Hfiles].
  set (st1 := on_closure (set_childProcess None) downloadId st) in *.
  assert (Hm' : downloads (cleanup destPath unlink_ok st1) !! downloadId
                = Some (set_childProcess None managed))
    by by rewrite downloads_cleanup.
  destruct code as [[|n|n]|]; [done| | |]; unfold on_hf_rejected; simpl.
  - split; [by eapply download_status_after_update|]. split.
    + intros k [= <-]. by eapply error_message_updateStatus.
    + intros ->. rewrite files_updateStatus. apply files_cleanup.
  - split; [by eapply download_status_after_update|]. split.
    + intros k [= <-]. by eapply error_message_updateStatus.
    + intros ->. rewrite files_updateStatus. apply files_cleanup.
  - split; [by eapply download_status_after_update|]. split; [done|].
    intros ->. rewrite files_updateStatus. apply files_cleanup.
Qed.

Lemma cancel_spec downloadId st managed :
  downloads st !! downloadId = Some managed →
  status (info managed) = downloading →
  let r := cancel downloadId st in
  r.1 = true
  ∧ downloads r.2 = downloads st
  ∧ files r.2 = files st
  ∧ (∀ controller, abortController managed = Some controller →
                   controller ∈ aborted r.2)
  ∧ signals r.2
    = signals st
      ++ match childProcess managed with
         | Some child => [(child, SIGTERM)]
         | None => []
         end.
Proof.
  intros Hm Hs r. subst r. unfold cancel. rewrite Hm, Hs. simpl.
  destruct (abortController managed) as [controller|],
    (childProcess managed) as [child|]; simpl;
    repeat split; try done; try (by rewrite app_nil_r);
    intros c [= <-]; apply elem_of_union_r; by apply elem_of_singleton.
Qed.

Lemma rejection_while_piping pending_read :
  rejection_on_abort Piping pending_read = premature_close.
Proof. by destruct pending_read. Qed.

Lemma on_abort_aborted now downloadId destPath unlink_ok stage pending_read st
    managed controller :
  downloads st !! downloadId = Some managed →
  abortController managed = Some controller →
  controller ∈ aborted st →
  on_abort now downloadId destPath unlink_ok stage pending_read st
  = on_fetch_rejected now downloadId destPath unlink_ok
      (rejection_on_abort stage pending_read) st.
Proof.
  intros Hm Hcontroller Haborted. unfold on_abort, closure_of.
  rewrite Hm, Hcontroller. by rewrite bool_decide_eq_true_2.
Qed.

(** C4 fails in the code for a transfer that is cancelled while its body is
    piped. [cancel] on a [downloading] record returns [true], aborts the
    record's controller and sends [SIGTERM] to the fetch tool. For a URL or
    object-store transfer the abort listener then destroys both streams
    without an error, so [pipeline] rejects with its premature-close error,
    which is not named [AbortError]: the record ends in [error] with the
    message ["Premature close"], not in [cancelled]. Only a transfer that is
    still waiting for its response ends in [cancelled], and so does a
    repository transfer, whose fetch tool closes without an exit code. In
    every case the destination file is deleted first when the deletion does
    not fail. *)
Theorem cancel_while_piping_ends_in_error (now : Z)
    (downloadId destPath : string) (unlink_ok pending_read : bool)
    (st : Coordinator) (managed : ManagedDownload) :
  downloads st !! downloadId = Some managed →
  status (info managed) = downloading →
  let r := cancel downloadId st in
  r.1 = true
  ∧ status_of downloadId r.2 = Some downloading
  ∧ (∀ controller, abortController managed = Some controller →
       let ended stage :=
         on_abort now downloadId destPath unlink_ok stage pending_read r.2 in
       (controller ∈ aborted r.2)
       ∧ status_of downloadId (ended Piping) = Some error
       ∧ error_message <$> getDownload downloadId (ended Piping)
         = Some (Some "Premature close")
       ∧ status_of downloadId (ended Requesting) = Some cancelled
       ∧ (unlink_ok = true → ∀ stage, destPath ∉ files (ended stage)))
  ∧ (∀ child downloadedPath stderr size modelId,
       childProcess managed = Some child →
       let ended :=
         on_hf_close now downloadId destPath downloadedPath None stderr size
           modelId unlink_ok r.2 in
       signals r.2 = signals st ++ [(child, SIGTERM)]
       ∧ status_of downloadId ended = Some cancelled
       ∧ (unlink_ok = true → destPath ∉ files ended)).
Proof.
  intros Hm Hs r.
  destruct (cancel_spec _ _ _ Hm Hs) as (Htrue & Hds & Hfiles & Habort & Hsig).
  fold r in Htrue, Hds, Hfiles, Habort, Hsig.
  assert (Hm' : downloads r.2 !! downloadId = Some managed)
    by by rewrite Hds.
  split; [exact Htrue|]. split; [|split].
  - unfold status_of, getDownload. by rewrite Hm'; simpl; rewrite Hs.
  - intros controller Hcontroller ended.
    pose proof (Habort _ Hcontroller) as Haborted.
    assert (Hended : ∀ stage,
              ended stage
              = on_fetch_rejected now downloadId destPath unlink_ok
                  (rejection_on_abort stage pending_read) r.2).
    { intros stage. subst ended. by eapply on_abort_aborted. }
    split; [exact Haborted|].
    destruct (on_fetch_rejected_spec now downloadId destPath unlink_ok
                premature_close r.2 managed Hm') as (Hstatus & Hmessage & _).
    destruct (on_fetch_rejected_spec now downloadId destPath unlink_ok
                abort_error r.2 managed Hm') as (Hstatus' & _ & _).
    rewrite !Hended, rejection_while_piping. simpl.
    split; [exact Hstatus|]. split; [by apply Hmessage|].
    split; [exact Hstatus'|].
    intros Hunlink stage. rewrite Hended.
    by eapply on_fetch_rejected_spec.
  - intros child downloadedPath stderr size modelId Hchild ended.
    split; [by rewrite Hsig, Hchild|].
    destruct (on_hf_close_spec now downloadId destPath downloadedPath None
                stderr size modelId unlink_ok r.2 managed Hm')
      as (Hstatus & _ & Hfile); [done|].
    by split.
Qed.

Lemma cancel_of_a_piped_url_transfer :
  let r := cancel "d2" DownloadScenarios.url_partial in
  let st' := on_abort 40 "d2" "models/x.gguf" true Piping true r.2 in
  r.1 = true ∧ (3%nat ∈ aborted r.2)
  ∧ status_of "d2" st' = Some error
  ∧ error_message <$> getDownload "d2" st' = Some (Some "Premature close")
  ∧ ("models/x.gguf" ∉ files st').
Proof.
  intros r st'.
  assert (Hm : ∃ managed,
             downloads DownloadScenarios.url_partial !! "d2" = Some managed
             ∧ status (info managed) = downloading
             ∧ abortController managed = Some 3%nat).
  { vm_compute. eexists. repeat split. }
  destruct Hm as (managed & Hm & Hs & Hc).
  destruct (cancel_while_piping_ends_in_error 40 "d2" "models/x.gguf" true true
              DownloadScenarios.url_partial managed Hm Hs)
    as (Htrue & _ & Hfetch & _).
  destruct (Hfetch 3%nat Hc) as (Haborted & Hstatus & Hmessage & _ & Hfile).
  split; [exact Htrue|]. split; [exact Haborted|].
  split; [exact Hstatus|]. split; [exact Hmessage|]. by apply Hfile.
Defined.

(** The other half of C4 fails as well: a repository transfer whose fetch
    tool is ended by a signal that nobody asked for (no [cancel] was called,
    the coordinator sent no signal) is a failed transfer, yet it lands in
    [cancelled] and not in [error]. *)
Example outside_signal_reported_cancelled :
  signals DownloadScenarios.repository_started = []
  ∧ aborted DownloadScenarios.repository_started = ∅
  ∧ status_of "d1"
      (on_hf_close 40 "d1" "models/model.gguf" "models/model.gguf" None ""
         0%float "" true DownloadScenarios.repository_started)
    = Some cancelled.
Proof. repeat split; vm_compute; reflexivity. Qed.

(** *** Forgetting a download *)

(** C10. [removeDownload] returns [false] for an id it does not know. For a
    record it knows it returns [true] and the record is gone, whatever its
    status; when the status is [downloading] it first calls [cancel], which
    accepts, aborts the record's controller and signals the fetch tool; for
    any other status nothing is aborted or signalled. No other record is
    touched. *)
Theorem removeDownload_never_rejects downloadId st :
  (downloads st !! downloadId = None → removeDownload downloadId st = (false, st))
  ∧ (∀ managed,
       downloads st !! downloadId = Some managed →
       let r := removeDownload downloadId st in
       r.1 = true
       ∧ getDownload downloadId r.2 = None
       ∧ (∀ d, d ∈ getAllDownloads r.2 →
               ∃ k, k ≠ downloadId ∧ getDownload k st = Some d)
       ∧ (∀ k, k ≠ downloadId → getDownload k r.2 = getDownload k st)
       ∧ (status (info managed) = downloading →
          (cancel downloadId st).1 = true
          ∧ downloads r.2 = delete downloadId (downloads (cancel downloadId st).2)
          ∧ aborted r.2 = aborted (cancel downloadId st).2
          ∧ signals r.2 = signals (cancel downloadId st).2
          ∧ (∀ controller, abortController managed = Some controller →
                           controller ∈ aborted r.2)
          ∧ (∀ child, childProcess managed = Some child →
                      signals r.2 = signals st ++ [(child, SIGTERM)]))
       ∧ (status (info managed) ≠ downloading →
          aborted r.2 = aborted st ∧ signals r.2 = signals st)).
Proof.
  split.
  - intros Hm. unfold removeDownload. by rewrite Hm.
  - intros managed Hm r. subst r. unfold removeDownload. rewrite Hm.
    destruct (decide (status (info managed) = downloading)) as [Hs|Hs].
    + rewrite bool_decide_eq_true_2 by done.
      destruct (cancel_spec _ _ _ Hm Hs) as (Htrue & Hds & _ & Habort & Hsig).
      simpl. rewrite Hds.
      split; [done|]. split; [|split; [|split; [|split]]].
      * unfold getDownload. simpl. by rewrite lookup_delete_eq.
      * intros d Hd. unfold getAllDownloads in Hd. simpl in Hd.
        apply list_elem_of_fmap in Hd as ([k d'] & -> & Hd).
        apply elem_of_map_to_list in Hd.
        rewrite lookup_fmap, lookup_delete in Hd.
        exists k. destruct (decide (downloadId = k)) as [<-|Hne]; [done|].
        split; [done|]. exact Hd.
      * intros k Hk. unfold getDownload. simpl. by rewrite lookup_delete_ne.
      * intros _. repeat split; try done.
        intros child Hchild. by rewrite Hsig, Hchild.
      * done.
    + rewrite bool_decide_eq_false_2 by done. simpl.
      split; [done|]. split; [|split; [|split; [|split]]].
      * unfold getDownload. simpl. by rewrite lookup_delete_eq.
      * intros d Hd. unfold getAllDownloads in Hd. simpl in Hd.
        apply list_elem_of_fmap in Hd as ([k d'] & -> & Hd).
        apply elem_of_map_to_list in Hd.
        rewrite lookup_fmap, lookup_delete in Hd.
        exists k. destruct (decide (downloadId = k)) as [<-|Hne]; [done|].
        split; [done|]. exact Hd.
      * intros k Hk. unfold getDownload. simpl. by rewrite lookup_delete_ne.
      * done.
      * done.
Qed.

Lemma removeDownload_of_live_transfer :
  let r := removeDownload "d1" DownloadScenarios.repository_started in
  removeDownload "nope" DownloadScenarios.repository_started
  = (false, DownloadScenarios.repository_started)
  ∧ r.1 = true ∧ getDownload "d1" r.2 = None
  ∧ signals r.2 = [(7%nat, SIGTERM)].
Proof.
  intros r.
  destruct (removeDownload_never_rejects "nope"
              DownloadScenarios.repository_started) as [Hunknown _].
  destruct (removeDownload_never_rejects "d1"
              DownloadScenarios.repository_started) as [_ Hknown].
  assert (Hm : ∃ managed,
             downloads DownloadScenarios.repository_started !! "d1"
             = Some managed
             ∧ status (info managed) = downloading
             ∧ childProcess managed = Some 7%nat).
  { vm_compute. eexists. repeat split. }
  destruct Hm as (managed & Hm & Hs & Hchild).
  destruct (Hknown managed Hm) as (Htrue & Hgone & _ & _ & Hlive & _).
  destruct (Hlive Hs) as (_ & _ & _ & _ & _ & Hsig).
  split; [apply Hunknown; vm_compute; reflexivity|].
  split; [exact Htrue|]. split; [exact Hgone|]. exact (Hsig _ Hchild).
Defined.

(** *** Progress *)

(** [updateProgress] stores the progress of every chunk on the record, and
    emits an event only when 100 ms have passed since the last one. *)
Lemma updateProgress_spec now downloadId received size st managed :
  downloads st !! downloadId = Some managed →
  let st' := updateProgress now downloadId received size st in
  (∃ p, progress <$> getDownload downloadId st' = Some p
        ∧ downloaded p = received ∧ total p = size)
  ∧ (now - lastUpdate managed < 100 →
     events st' = events st
     ∧ lastUpdate <$> downloads st' !! downloadId = Some (lastUpdate managed))
  ∧ (100 ≤ now - lastUpdate managed →
     (∃ p, events st' = events st ++ [mkEvent downloadId now (ProgressData p)])
     ∧ lastUpdate <$> downloads st' !! downloadId = Some now).
Proof.
  intros Hm st'. subst st'. unfold updateProgress, getDownload. rewrite Hm.
  simpl. destruct (Z.leb_spec 100 (now - lastUpdate managed)) as [Hle|Hlt];
    simpl; rewrite lookup_insert_eq; simpl.
  - split; [by eexists|]. split; [lia|]. intros _. split; [by eexists|done].
  - split; [by eexists|]. split; [done|lia].
Qed.

Lemma spaced_snoc since times t :
  spaced since times → default since (last times) + 100 ≤ t →
  spaced since (times ++ [t]).
Proof.
  revert since. induction times as [|u times IH]; intros since Hs Ht; simpl in *.
  - done.
  - destruct Hs as [Hu Hs]. split; [done|]. apply IH; [done|].
    destruct times as [|v times]; [done|].
    rewrite last_cons_cons in Ht.
    destruct (last (v :: times)) as [w|] eqn:Hw; [done|].
    by apply last_None in Hw.
Qed.

Lemma progress_times_snoc downloadId evs now p :
  progress_times downloadId (evs ++ [mkEvent downloadId now (ProgressData p)])
  = progress_times downloadId evs ++ [now].
Proof.
  unfold progress_times. rewrite omap_app. simpl.
  by rewrite String.eqb_refl.
Qed.

(** One chunk keeps the bookkeeping of the throttle: the last progress event
    is the one [lastUpdate] remembers. *)
Lemma receive_spaced downloadId st chunk managed base since times :
  downloads st !! downloadId = Some managed →
  progress_times downloadId (events st) = base ++ times →
  spaced since times →
  lastUpdate managed = default since (last times) →
  ∃ managed' times',
    downloads (receive downloadId st chunk) !! downloadId = Some managed'
    ∧ progress_times downloadId (events (receive downloadId st chunk))
      = base ++ times'
    ∧ spaced since times'
    ∧ lastUpdate managed' = default since (last times').
Proof.
  intros Hm Hevs Hspaced Hlast. destruct chunk as [[now received] size].
  unfold receive, on_chunk, updateProgress. simpl. rewrite Hm.
  destruct (Z.leb_spec 100 (now - lastUpdate managed)) as [Hle|Hlt]; simpl.
  - eexists _, (times ++ [now]). rewrite lookup_insert_eq.
    split; [done|]. rewrite progress_times_snoc, Hevs, app_assoc.
    split; [done|]. split.
    + apply spaced_snoc; [done|]. rewrite <- Hlast. lia.
    + simpl. by rewrite last_snoc.
  - eexists _, times. rewrite lookup_insert_eq. by repeat split.
Qed.

Lemma read_output_spaced downloadId st output since0 base since times :
  lastProgressUpdate st !! downloadId = Some since0 →
  progress_times downloadId (events st) = base ++ times →
  spaced since times →
  since0 = default since (last times) →
  ∃ since0' times',
    lastProgressUpdate (read_output downloadId st output) !! downloadId
    = Some since0'
    ∧ progress_times downloadId (events (read_output downloadId st output))
      = base ++ times'
    ∧ spaced since times'
    ∧ since0' = default since (last times').
Proof.
  intros Hl Hevs Hspaced Hlast. destruct output as [now [[[pct received] size]|]];
    unfold read_output, on_hf_data; simpl; rewrite Hl.
  - destruct (Z.leb_spec 100 (now - since0)) as [Hle|Hlt]; simpl.
    + exists now, (times ++ [now]).
      assert (Hkeep : ∀ f st', events (on_closure f downloadId st') = events st'
                ∧ lastProgressUpdate (on_closure f downloadId st')
                  = lastProgressUpdate st').
      { intros f st'. unfold on_closure.
        by destruct (downloads st' !! downloadId). }
      destruct (Hkeep (λ m, set_info
                         (set_progress (mkProgress received size pct None None)
                            (info m)) m)
                  (set_lastProgressUpdate
                     (<[downloadId := now]> (lastProgressUpdate st)) st))
        as [-> ->].
      simpl. rewrite lookup_insert_eq. split; [done|].
      rewrite progress_times_snoc, Hevs, app_assoc. split; [done|]. split.
      * apply spaced_snoc; [done|]. rewrite <- Hlast. lia.
      * by rewrite last_snoc.
    + exists since0, times. by repeat split.
  - exists since0, times. by repeat split.
Qed.

(** The ["progress"] events of a record are at least 100 ms apart, whatever
    the chunks and whenever they arrive: for a URL or object-store transfer
    from the record's [lastUpdate] on, for a repository transfer from the
    [lastProgressUpdate] of its readers on. *)
Theorem progress_events_are_spaced (downloadId : string) (st : Coordinator) :
  (∀ managed chunks,
     downloads st !! downloadId = Some managed →
     ∃ times,
       progress_times downloadId
         (events (foldl (receive downloadId) st chunks))
       = progress_times downloadId (events st) ++ times
       ∧ spaced (lastUpdate managed) times)
  ∧ (∀ since outputs,
       lastProgressUpdate st !! downloadId = Some since →
       ∃ times,
         progress_times downloadId
           (events (foldl (read_output downloadId) st outputs))
         = progress_times downloadId (events st) ++ times
         ∧ spaced since times).
Proof.
  split.
  - intros managed chunks Hm.
    assert (Hgen : ∀ chunks st' managed' times,
              downloads st' !! downloadId = Some managed' →
              progress_times downloadId (events st')
              = progress_times downloadId (events st) ++ times →
              spaced (lastUpdate managed) times →
              lastUpdate managed' = default (lastUpdate managed) (last times) →
              ∃ times',
                progress_times downloadId
                  (events (foldl (receive downloadId) st' chunks))
                = progress_times downloadId (events st) ++ times'
                ∧ spaced (lastUpdate managed) times').
    { clear chunks. induction chunks as [|chunk chunks IH];
        intros st' managed' times Hm' Hevs Hspaced Hlast; simpl.
      - by exists times.
      - destruct (receive_spaced _ _ chunk _ _ _ _ Hm' Hevs Hspaced Hlast)
          as (managed'' & times' & Hm'' & Hevs' & Hspaced' & Hlast').
        by eapply IH. }
    apply (Hgen chunks st managed []); [done|by rewrite app_nil_r|done|done].
  - intros since outputs Hl.
    assert (Hgen : ∀ outputs st' since' times,
              lastProgressUpdate st' !! downloadId = Some since' →
              progress_times downloadId (events st')
              = progress_times downloadId (events st) ++ times →
              spaced since times →
              since' = default since (last times) →
              ∃ times',
                progress_times downloadId
                  (events (foldl (read_output downloadId) st' outputs))
                = progress_times downloadId (events st) ++ times'
                ∧ spaced since times').
    { clear outputs. induction outputs as [|output outputs IH];
        intros st' since' times Hl' Hevs Hspaced Hlast; simpl.
      - by exists times.
      - destruct (read_output_spaced _ _ output _ _ _ _ Hl' Hevs Hspaced Hlast)
          as (since'' & times' & Hl'' & Hevs' & Hspaced' & Hlast').
        by eapply IH. }
    apply (Hgen outputs st since []); [done|by rewrite app_nil_r|done|done].
Qed.

Lemma progress_events_of_a_fast_transfer :
  ∃ times,
    progress_times "d2"
      (events
         (foldl (receive "d2") DownloadScenarios.url_started
            DownloadScenarios.fast_chunks))
    = progress_times "d2" (events DownloadScenarios.url_started) ++ times
    ∧ spaced 0 times.
Proof.
  destruct (progress_events_are_spaced "d2" DownloadScenarios.url_started)
    as [Hspaced _].
  assert (Hm : ∃ managed,
             downloads DownloadScenarios.url_started !! "d2" = Some managed
             ∧ lastUpdate managed = 0).
  { vm_compute. eexists. split; reflexivity. }
  destruct Hm as (managed & Hm & Hlast). rewrite <- Hlast.
  by apply Hspaced.
Defined.

Example fast_transfer_events :
  progress_times "d2"
    (events
       (foldl (receive "d2") DownloadScenarios.url_started
          DownloadScenarios.fast_chunks))
  = [100; 230].
Proof. vm_compute. reflexivity. Qed.

(** C8 at a repository transfer: a first progress line 100 ms after the
    start is stored and reported; a second one 50 ms later is dropped
    altogether, and the record still shows the first. On a URL transfer the
    same two chunks leave the second one on the record. *)
Theorem repository_progress_is_throttled_on_the_record :
  let first := on_hf_data 100 "d1" (Some (50, 2684354560, 5368709120))%float
                 DownloadScenarios.repository_started in
  let second := on_hf_data 150 "d1" (Some (60, 3221225472, 5368709120))%float
                  first in
  let url_second :=
    on_chunk 150 "d2" 3221225472
      5368709120 (on_chunk 100 "d2" 2684354560 5368709120
                    DownloadScenarios.url_started) in
  downloaded <$> (progress <$> getDownload "d1" first) = Some 2684354560%float
  ∧ second = first
  ∧ downloaded <$> (progress <$> getDownload "d1" second)
    = Some 2684354560%float
  ∧ downloaded <$> (progress <$> getDownload "d2" url_second)
    = Some 3221225472%float.
Proof. intros first second url_second. repeat split; vm_compute; reflexivity. Qed.

End DownloadManagerProofs.

(** ** More on the port allocator *)

Module PortManagerFacts.
Import PortManager.

Lemma elem_of_range port : port ∈ range ↔ BASE_PORT ≤ port ≤ MAX_PORT.
Proof.
  unfold range. rewrite elem_of_list_to_set, elem_of_seqZ.
  unfold BASE_PORT, MAX_PORT. lia.
Qed.

Lemma size_range : size range = 101%nat.
Proof.
  unfold range. rewrite size_list_to_set by apply NoDup_seqZ.
  by rewrite length_seqZ.
Qed.

Lemma isAvailable_true port used :
  isAvailable port used = true ↔ (BASE_PORT ≤ port ≤ MAX_PORT) ∧ port ∉ used.
Proof.
  unfold isAvailable.
  rewrite !andb_true_iff, negb_true_iff, bool_decide_eq_false, !Z.leb_le.
  tauto.
Qed.

(** [reserve] marks a port busy exactly when the port lies in the range and
    is free: then the set gains the port, the port is no longer available,
    and a second [reserve] of it fails. In every other case (a port out of
    range, a port already held) it answers [false] and the set is as it
    was. *)
Theorem reserve_only_free_ports_of_the_range (port : Z) (used : gset Z) :
  let r := reserve port used in
  (r.1 = true ↔ (BASE_PORT ≤ port ≤ MAX_PORT) ∧ port ∉ used)
  ∧ (r.1 = true →
     r.2 = used ∪ {[port]}
     ∧ isAvailable port r.2 = false
     ∧ reserve port r.2 = (false, r.2))
  ∧ (r.1 = false → r.2 = used).
Proof.
  intros r. subst r. unfold reserve.
  destruct (isAvailable port used) eqn:Havailable; simpl.
  - apply isAvailable_true in Havailable as Hfree.
    split; [tauto|]. split; [|done]. intros _. split; [done|].
    assert (Hheld : isAvailable port (used ∪ {[port]}) = false).
    { apply not_true_iff_false. rewrite isAvailable_true.
      intros [_ Hout]. apply Hout, elem_of_union_r. by apply elem_of_singleton. }
    by rewrite Hheld.
  - split; [|split; done]. split; [done|]. intros Hfree.
    apply isAvailable_true in Hfree. congruence.
Qed.

(** [getUsedPorts] lists exactly the ports of the set, each once, in
    ascending order. *)
Theorem getUsedPorts_sorted_listing (used : gset Z) :
  StronglySorted Z.le (getUsedPorts used)
  ∧ NoDup (getUsedPorts used)
  ∧ ∀ port, port ∈ getUsedPorts used ↔ port ∈ used.
Proof.
  unfold getUsedPorts. split; [|split].
  - apply StronglySorted_merge_sort; apply _.
  - rewrite merge_sort_Permutation. apply NoDup_elements.
  - intros port. rewrite merge_sort_Permutation. apply elem_of_elements.
Qed.

(** [allocate] never fails while fewer than 101 ports are held, whichever
    ports they are; when it fails, at least 101 are. *)
Theorem allocate_fails_only_when_full (used : gset Z) :
  ((size used < 101)%nat → ∃ port, (allocate used).1 = Ok port)
  ∧ (∀ message, (allocate used).1 = Throw message → (101 ≤ size used)%nat).
Proof.
  assert (Hfull : ∀ message, (allocate used).1 = Throw message →
            (101 ≤ size used)%nat).
  { intros message Hthrow.
    destruct (allocate used) as [r used'] eqn:Halloc. simpl in Hthrow. subst r.
    destruct (PortManagerProofs.allocate_Throw _ _ _ Halloc) as [_ Hheld].
    rewrite <- size_range. apply subseteq_size. intros port Hport.
    by apply Hheld, elem_of_range. }
  split; [|exact Hfull].
  intros Hsize. destruct ((allocate used).1) as [port|message] eqn:Hr.
  - by exists port.
  - specialize (Hfull message eq_refl). lia.
Qed.

Lemma allocate_with_a_hundred_held :
  ∃ port, (allocate (list_to_set (seqZ 8000 100))).1 = Ok port.
Proof.
  destruct (allocate_fails_only_when_full (list_to_set (seqZ 8000 100)))
    as [Hroom _].
  apply Hroom. rewrite size_list_to_set by apply NoDup_seqZ.
  rewrite length_seqZ. simpl. lia.
Defined.

(** Giving a port back undoes its allocation: the set is as before, and the
    same port is handed out again. More generally a released port of the
    range is the next one handed out whenever every port below it is held. *)
Theorem release_undoes_allocate (used : gset Z) :
  (∀ port used',
     allocate used = (Ok port, used') →
     release port used' = used
     ∧ allocate (release port used') = (Ok port, used'))
  ∧ (∀ port,
       BASE_PORT ≤ port ≤ MAX_PORT →
       (∀ q, BASE_PORT ≤ q < port → q ∈ used) →
       (allocate (release port used)).1 = Ok port).
Proof.
  split.
  - intros port used' Halloc.
    destruct (PortManagerProofs.allocate_Ok _ _ _ Halloc)
      as (_ & Hfree & _ & ->).
    assert (Hback : release port (used ∪ {[port]}) = used).
    { unfold release. apply set_eq. intros q.
      rewrite elem_of_difference, elem_of_union, elem_of_singleton.
      split; [tauto|]. intros Hq. split; [by left|]. by intros ->. }
    by rewrite Hback.
  - intros port Hrange Hbelow.
    destruct (allocate (release port used)) as [[q|message] used'] eqn:Halloc;
      simpl.
    + destruct (PortManagerProofs.allocate_Ok _ _ _ Halloc)
        as (Hq & Hfree & Hheld & _).
      f_equal. destruct (Z.lt_trichotomy q port) as [Hlt|[Heq|Hgt]]; [|done|].
      * exfalso. apply Hfree. unfold release.
        rewrite elem_of_difference, elem_of_singleton.
        split; [apply Hbelow; lia|lia].
      * exfalso. assert (Hin : port ∈ release port used) by (apply Hheld; lia).
        unfold release in Hin.
        rewrite elem_of_difference, elem_of_singleton in Hin. tauto.
    + exfalso.
      destruct (PortManagerProofs.allocate_Throw _ _ _ Halloc) as [_ Hheld].
      specialize (Hheld port Hrange). unfold release in Hheld.
      rewrite elem_of_difference, elem_of_singleton in Hheld. tauto.
Qed.

Lemma release_undoes_first_allocation :
  release 8000 (allocate ∅).2 = ∅
  ∧ (allocate (release 8002 {[8000; 8001; 8002; 8003]})).1 = Ok 8002.
Proof.
  destruct (release_undoes_allocate ∅) as [Hundo _].
  destruct (release_undoes_allocate {[8000; 8001; 8002; 8003]}) as [_ Hnext].
  split.
  - apply (Hundo 8000 (allocate ∅).2). vm_compute. reflexivity.
  - apply Hnext; [unfold BASE_PORT, MAX_PORT; lia|].
    intros q Hq. unfold BASE_PORT in Hq.
    assert (q = 8000 ∨ q = 8001) as [-> | ->] by lia; set_solver.
Defined.

End PortManagerFacts.

(** ** More on the launch configuration *)

Module VllmConfigFacts.
Import VllmConfig.

(** *** IEEE comparisons *)

Lemma SFcompare_antisym a b c :
  SFcompare a b = Some c → SFcompare b a = Some (CompOpp c).
Proof.
  destruct a as [sa|sa| |sa ma ea], b as [sb|sb| |sb mb eb]; simpl;
    try discriminate; try (destruct sa; intros [= <-]; reflexivity);
    try (destruct sb; intros [= <-]; reflexivity);
    try (intros [= <-]; reflexivity).
  - destruct sa, sb; intros [= <-]; reflexivity.
  - destruct sa, sb; intros [= <-]; try reflexivity.
    + rewrite (Z.compare_antisym ea eb). destruct (ea ?= eb)%Z; simpl;
        try reflexivity.
      by rewrite Pos.compare_cont_antisym, CompOpp_involutive.
    + rewrite (Z.compare_antisym ea eb). destruct (ea ?= eb)%Z; simpl;
        try reflexivity.
      by rewrite Pos.compare_cont_antisym.
Qed.

Lemma SFcompare_defined a b :
  a ≠ S754_nan → b ≠ S754_nan → ∃ c, SFcompare a b = Some c.
Proof.
  destruct a as [sa|sa| |sa ma ea], b as [sb|sb| |sb mb eb]; simpl;
    try done; eauto.
Qed.

Lemma is_number_spec x : is_number x ↔ Prim2SF x ≠ S754_nan.
Proof.
  unfold is_number. rewrite FloatAxioms.eqb_spec. unfold SFeqb.
  destruct (Prim2SF x) as [s|s| |s m e]; simpl.
  - done.
  - by destruct s.
  - split; [done|]. by intros H.
  - rewrite Z.compare_refl, Pos.compare_cont_refl. by destruct s.
Qed.

Lemma float_ltb_true x y :
  PrimFloat.ltb x y = true →
  is_number x ∧ is_number y ∧ PrimFloat.leb y x = false
  ∧ PrimFloat.eqb y x = false.
Proof.
  rewrite !is_number_spec, FloatAxioms.ltb_spec, FloatAxioms.leb_spec, FloatAxioms.eqb_spec.
  unfold SFltb, SFleb, SFeqb.
  destruct (SFcompare (Prim2SF x) (Prim2SF y)) as [[]|] eqn:Hc; try done.
  intros _. rewrite (SFcompare_antisym _ _ _ Hc). simpl.
  repeat split; try done.
  - intros Hx. by rewrite Hx in Hc.
  - intros Hy. rewrite Hy in Hc. by destruct (Prim2SF x).
Qed.

Lemma float_leb_false x y :
  is_number x → is_number y →
  PrimFloat.leb x y = false → PrimFloat.ltb y x = true.
Proof.
  rewrite !is_number_spec, FloatAxioms.ltb_spec, FloatAxioms.leb_spec. unfold SFltb, SFleb.
  intros Hx Hy. destruct (SFcompare_defined _ _ Hx Hy) as [c Hc].
  rewrite Hc, (SFcompare_antisym _ _ _ Hc). by destruct c.
Qed.

Lemma float_ltb_false x y :
  is_number x → is_number y →
  PrimFloat.ltb x y = false → PrimFloat.leb y x = true.
Proof.
  rewrite !is_number_spec, FloatAxioms.ltb_spec, FloatAxioms.leb_spec. unfold SFltb, SFleb.
  intros Hx Hy. destruct (SFcompare_defined _ _ Hx Hy) as [c Hc].
  rewrite Hc, (SFcompare_antisym _ _ _ Hc). by destruct c.
Qed.

Lemma Prim2SF_zero : Prim2SF 0%float = S754_zero false.
Proof. vm_compute. reflexivity. Qed.

Lemma Prim2SF_one : Prim2SF 1%float = S754_finite false 4503599627370496 (-52).
Proof. vm_compute. reflexivity. Qed.

(** A number that is at least [1], or above [0], is not [0]. *)
Lemma float_not_below_one x :
  is_number x → PrimFloat.ltb x 1 = false → PrimFloat.eqb x 0 = false.
Proof.
  rewrite is_number_spec, FloatAxioms.ltb_spec, FloatAxioms.eqb_spec, Prim2SF_zero, Prim2SF_one.
  generalize 4503599627370496%positive (-52). intros m1 e1.
  unfold SFltb, SFeqb.
  destruct (Prim2SF x) as [s|s| |s m e]; cbn [SFcompare]; try done.
  - by destruct s.
  - by destruct s.
Qed.

Lemma float_leb_true x y :
  PrimFloat.leb x y = true →
  is_number x ∧ is_number y ∧ PrimFloat.ltb y x = false.
Proof.
  rewrite !is_number_spec, FloatAxioms.ltb_spec, FloatAxioms.leb_spec.
  unfold SFltb, SFleb.
  destruct (SFcompare (Prim2SF x) (Prim2SF y)) as [c|] eqn:Hc; [|done].
  rewrite (SFcompare_antisym _ _ _ Hc). intros Hle. repeat split.
  - intros Hx. by rewrite Hx in Hc.
  - intros Hy. rewrite Hy in Hc. by destruct (Prim2SF x).
  - by destruct c.
Qed.

(** [1 < x] and [x <= 1] are complementary on numbers. *)
Lemma float_leb_negb_ltb x y :
  is_number x → is_number y → PrimFloat.leb x y = negb (PrimFloat.ltb y x).
Proof.
  intros Hx Hy. destruct (PrimFloat.ltb y x) eqn:Hlt; simpl.
  - by destruct (float_ltb_true _ _ Hlt) as (_ & _ & -> & _).
  - by apply float_ltb_false.
Qed.

Lemma is_number_zero : is_number 0.
Proof. reflexivity. Qed.

Lemma is_number_one : is_number 1.
Proof. reflexivity. Qed.

(** A number is truthy when it is not below [1], or above [0]. *)
Lemma truthy_not_below_one x :
  is_number x → PrimFloat.ltb x 1 = false → truthy_number (Some x) = true.
Proof.
  intros Hx Hlt. unfold truthy_number.
  by rewrite (float_not_below_one _ Hx Hlt), Hx.
Qed.

Lemma truthy_positive x :
  PrimFloat.ltb 0 x = true → truthy_number (Some x) = true.
Proof.
  intros Hpos. unfold truthy_number.
  destruct (float_ltb_true _ _ Hpos) as (_ & Hx & _ & ->). by rewrite Hx.
Qed.

Lemma falsy_NaN x : ¬ is_number x → truthy_number (Some x) = false.
Proof.
  unfold is_number, truthy_number. intros Hx.
  destruct (PrimFloat.eqb x x); [done|]. apply andb_false_r.
Qed.

Lemma spread_idem {A : Type} (override base : option A) :
  spread (spread override base) base = spread override base.
Proof. by destruct override, base. Qed.

(** *** The option names of a launch vector *)

Lemma elem_of_optional (x y : string) (cond : bool) :
  x ∈ (if cond then [y] else []) ↔ cond = true ∧ x = y.
Proof.
  destruct cond.
  - rewrite elem_of_cons, elem_of_nil. intuition.
  - rewrite elem_of_nil. intuition discriminate.
Qed.

Lemma optional_sublist (y : string) (cond : bool) :
  (if cond then [y] else []) `sublist_of` [y].
Proof. destruct cond; [done|apply sublist_nil_l]. Qed.

Lemma elem_of_push_if (x : string) cond items args :
  x ∈ push_if cond items args ↔ x ∈ args ∨ (cond = true ∧ x ∈ items).
Proof.
  unfold push_if. destruct cond; [rewrite elem_of_app|];
    intuition discriminate.
Qed.

Section Args.

Variable Number_toString : float → string.

(** The option names of a launch vector are a selection of the sixteen known
    ones in their fixed order: no name comes twice, and [--port] and [--host]
    always lead. *)
Theorem option_names_follow_a_fixed_order (modelPath : string)
    (config : VLLMConfig) :
  let names := option_names (buildVLLMArgs Number_toString modelPath config) in
  names `sublist_of` all_option_names
  ∧ NoDup names
  ∧ take 2 names = ["--port"; "--host"]
  ∧ take 2 (buildVLLMArgs Number_toString modelPath config)
    = ["serve"; modelPath].
Proof.
  intros names.
  assert (Hsub : names `sublist_of` all_option_names).
  { subst names. rewrite VllmConfigProofs.option_names_buildVLLMArgs.
    change all_option_names with
      (["--port"; "--host"] ++ ["--tokenizer"] ++ ["--tokenizer-mode"]
       ++ ["--tensor-parallel-size"] ++ ["--pipeline-parallel-size"]
       ++ ["--dtype"] ++ ["--max-model-len"] ++ ["--gpu-memory-utilization"]
       ++ ["--quantization"] ++ ["--load-format"] ++ ["--api-key"]
       ++ ["--served-model-name"] ++ ["--enforce-eager"]
       ++ ["--max-num-seqs"] ++ ["--trust-remote-code"]).
    repeat (apply sublist_app; [first [done|apply optional_sublist]|]).
    apply optional_sublist. }
  split; [exact Hsub|]. split; [|split].
  - eapply sublist_NoDup; [|exact Hsub].
    apply (bool_decide_unpack _). by vm_compute.
  - subst names. by rewrite VllmConfigProofs.option_names_buildVLLMArgs.
  - unfold buildVLLMArgs. rewrite !VllmConfigProofs.push_if_app.
    by rewrite <- !app_assoc.
Qed.

Ltac membership :=
  repeat first [rewrite elem_of_app | rewrite elem_of_optional
               | rewrite elem_of_cons | rewrite elem_of_nil
               | rewrite elem_of_push_if];
  intuition (try discriminate; auto).

Lemma in_errors_gpu given_port u :
  "GPU memory utilization must be between 0 and 1"
    ∈ validateConfig given_port u
  ↔ defined (u_gpuMemoryUtilization u)
    && (le (u_gpuMemoryUtilization u) 0 || gt (u_gpuMemoryUtilization u) 1)
    = true.
Proof. unfold validateConfig. membership. Qed.

Lemma in_errors_tensor given_port u :
  "Tensor parallel size must be at least 1" ∈ validateConfig given_port u
  ↔ defined (u_tensorParallelSize u) && lt (u_tensorParallelSize u) 1 = true.
Proof. unfold validateConfig. membership. Qed.

Lemma in_errors_maxModelLen given_port u :
  "Max model length must be at least 1" ∈ validateConfig given_port u
  ↔ defined (u_maxModelLen u) && lt (u_maxModelLen u) 1 = true.
Proof. unfold validateConfig. membership. Qed.

Lemma in_errors_maxNumSeqs given_port u :
  "Max number of sequences must be at least 1" ∈ validateConfig given_port u
  ↔ defined (u_maxNumSeqs u) && lt (u_maxNumSeqs u) 1 = true.
Proof. unfold validateConfig. membership. Qed.

Lemma in_names_gpu modelPath config :
  "--gpu-memory-utilization"
    ∈ option_names (buildVLLMArgs Number_toString modelPath config)
  ↔ truthy_number (gpuMemoryUtilization config)
    && gt (gpuMemoryUtilization config) 0
    && le (gpuMemoryUtilization config) 1 = true.
Proof. rewrite VllmConfigProofs.option_names_buildVLLMArgs. membership. Qed.

Lemma in_names_tensor modelPath config :
  "--tensor-parallel-size"
    ∈ option_names (buildVLLMArgs Number_toString modelPath config)
  ↔ truthy_number (tensorParallelSize config)
    && gt (tensorParallelSize config) 1 = true.
Proof. rewrite VllmConfigProofs.option_names_buildVLLMArgs. membership. Qed.

Lemma in_names_maxModelLen modelPath config :
  "--max-model-len"
    ∈ option_names (buildVLLMArgs Number_toString modelPath config)
  ↔ truthy_number (maxModelLen config) = true.
Proof. rewrite VllmConfigProofs.option_names_buildVLLMArgs. membership. Qed.

Lemma in_names_maxNumSeqs modelPath config :
  "--max-num-seqs"
    ∈ option_names (buildVLLMArgs Number_toString modelPath config)
  ↔ truthy_number (maxNumSeqs config) = true.
Proof. rewrite VllmConfigProofs.option_names_buildVLLMArgs. membership. Qed.

(** What [validateConfig] lets through is what [buildVLLMArgs] passes on.
    For an override that is a number: the GPU share is reported exactly when
    the launch vector built from the merged configuration would leave
    [--gpu-memory-utilization] out; a model length and a sequence count that
    are not reported are passed with their flags; a tensor parallel size that
    is not reported is passed unless it is [1]. A [NaN] is neither reported
    nor passed. The port that is validated is not the one of the vector. *)
Theorem validateConfig_agrees_with_buildVLLMArgs (modelPath : string)
    (port : Z) (given_port : option float) (u : UserConfig) :
  let errors := validateConfig given_port u in
  let args := buildVLLMArgs Number_toString modelPath (mergeConfig port u) in
  let names := option_names args in
  (∀ g, u_gpuMemoryUtilization u = Some g → is_number g →
        ("GPU memory utilization must be between 0 and 1" ∈ errors
         ↔ "--gpu-memory-utilization" ∉ names))
  ∧ (∀ n, u_maxModelLen u = Some n → is_number n →
          ("Max model length must be at least 1" ∉ errors) →
          "--max-model-len" ∈ names)
  ∧ (∀ n, u_maxNumSeqs u = Some n → is_number n →
          ("Max number of sequences must be at least 1" ∉ errors) →
          "--max-num-seqs" ∈ names)
  ∧ (∀ t, u_tensorParallelSize u = Some t → is_number t →
          ("Tensor parallel size must be at least 1" ∉ errors) →
          ("--tensor-parallel-size" ∈ names ↔ PrimFloat.ltb 1 t = true))
  ∧ (∀ g, u_gpuMemoryUtilization u = Some g → ¬ is_number g →
          ("GPU memory utilization must be between 0 and 1" ∉ errors)
          ∧ ("--gpu-memory-utilization" ∉ names))
  ∧ args !! 3%nat = Some (pretty port).
Proof.
  intros errors args names. subst errors names args.
  split; [|split; [|split; [|split; [|split]]]].
  - intros g Hg Hnum. rewrite in_errors_gpu, in_names_gpu. unfold mergeConfig.
    cbn [gpuMemoryUtilization]. rewrite Hg. cbn [spread defined gt le andb]. split.
    + intros [Hneg|Hbig]%orb_true_iff
        [[_ Hpos]%andb_true_iff Hle]%andb_true_iff.
      * destruct (float_leb_true _ _ Hneg) as (_ & _ & Hnot). congruence.
      * destruct (float_ltb_true _ _ Hbig) as (_ & _ & Hnot & _). congruence.
    + intros Hflag.
      destruct (PrimFloat.leb g 0 || PrimFloat.ltb 1 g) eqn:Hbad; [done|].
      exfalso. apply Hflag.
      apply orb_false_iff in Hbad as [Hneg Hbig].
      pose proof (float_leb_false _ _ Hnum is_number_zero Hneg) as Hpos.
      rewrite (truthy_positive _ Hpos), Hpos.
      by rewrite (float_leb_negb_ltb _ _ Hnum is_number_one), Hbig.
  - intros n Hn Hnum. rewrite in_errors_maxModelLen, in_names_maxModelLen.
    unfold mergeConfig. cbn [maxModelLen maxNumSeqs]. rewrite Hn.
    cbn [spread defined lt andb]. intros Hok%not_true_is_false.
    by apply truthy_not_below_one.
  - intros n Hn Hnum. rewrite in_errors_maxNumSeqs, in_names_maxNumSeqs.
    unfold mergeConfig. cbn [maxModelLen maxNumSeqs]. rewrite Hn.
    cbn [spread defined lt andb]. intros Hok%not_true_is_false.
    by apply truthy_not_below_one.
  - intros t Ht Hnum. rewrite in_errors_tensor, in_names_tensor.
    unfold mergeConfig. cbn [tensorParallelSize]. rewrite Ht.
    cbn [spread defined lt gt andb]. intros Hok%not_true_is_false.
    by rewrite (truthy_not_below_one _ Hnum Hok).
  - intros g Hg Hnan. rewrite in_errors_gpu, in_names_gpu. unfold mergeConfig.
    cbn [gpuMemoryUtilization]. rewrite Hg. cbn [spread defined gt le andb]. split.
    + intros [Hneg|Hbig]%orb_true_iff.
      * by destruct (float_leb_true _ _ Hneg) as (? & _).
      * by destruct (float_ltb_true _ _ Hbig) as (_ & ? & _).
    + by rewrite (falsy_NaN _ Hnan).
  - unfold buildVLLMArgs. rewrite !VllmConfigProofs.push_if_app.
    by rewrite <- !app_assoc.
Qed.

(** [restart] hands [spawn] the old configuration without its port and host:
    merged again, it gives the configuration of the first launch on the new
    port, and so the same launch vector from the fifth entry on. *)
Lemma mergeConfig_overrides_of (port port' : Z) (u : UserConfig) :
  mergeConfig port' (overrides_of (mergeConfig port u)) = mergeConfig port' u.
Proof.
  unfold mergeConfig, overrides_of. simpl. f_equal; apply spread_idem.
Qed.

End Args.

End VllmConfigFacts.

(** ** More on the supervisor *)

Module ProcessManagerFacts.
Import ProcessManager.

(** *** Properties of every record *)

Lemma processes_addLog_trim now processId message stream st :
  ∃ line,
    processes (addLog now processId message stream st)
    = alter (λ m, set_logs (trim (logs m ++ [line])) m) processId
        (processes st).
Proof.
  unfold addLog. destruct (processes st !! processId) as [managed|] eqn:Hm.
  - eexists. simpl.
    apply (ProcessManagerProofs.insert_as_alter
             (λ m, set_logs (trim (logs m ++ [_])) m) _ _ _ Hm).
  - exists "". by rewrite ProcessManagerProofs.alter_absent.
Qed.

Section RecordInvariant.

Variable P : string → ManagedProcess → Prop.

Hypothesis P_status : ∀ k m now s err,
  P k m → P k (set_info (next_info now s err (info m)) m).
Hypothesis P_handle : ∀ k m, P k m → P k (set_process None m).
Hypothesis P_log : ∀ k m line,
  P k m → P k (set_logs (trim (logs m ++ [line])) m).
Hypothesis P_spawn : ∀ now k modelId modelName modelPath port userConfig
    childPid handle,
  PortManager.BASE_PORT ≤ port ≤ PortManager.MAX_PORT →
  P k {| info :=
           {| id := k; modelId := modelId; modelName := modelName;
              modelPath := modelPath; port := port; status := starting;
              pid := childPid; startedAt := Some now; stoppedAt := None;
              config := VllmConfig.mergeConfig port userConfig;
              error_message := None |};
         process := handle; logs := [] |}.

Lemma every_alter (f : ManagedProcess → ManagedProcess) k st st' :
  processes st' = alter f k (processes st) →
  (∀ m, P k m → P k (f m)) →
  every_record P st → every_record P st'.
Proof.
  intros Hps Hf Hinv k' m'. rewrite Hps, lookup_alter.
  destruct (decide (k = k')) as [<-|Hne]; [|apply Hinv].
  destruct (processes st !! k) as [m|] eqn:Hm; [|done].
  simpl. intros [= <-]. by apply Hf, (Hinv k).
Qed.

Lemma every_same st st' :
  processes st' = processes st → every_record P st → every_record P st'.
Proof. intros Hps Hinv k m. rewrite Hps. apply Hinv. Qed.

Lemma every_updateStatus now k s err st :
  every_record P st → every_record P (updateStatus now k s err st).
Proof.
  apply (every_alter (λ m, set_info (next_info now s err (info m)) m) k);
    [apply ProcessManagerProofs.processes_updateStatus|].
  intros m. apply P_status.
Qed.

Lemma every_addLog now k message stream st :
  every_record P st → every_record P (addLog now k message stream st).
Proof.
  destruct (processes_addLog_trim now k message stream st) as [line Hps].
  apply (every_alter _ k _ _ Hps). intros m. apply P_log.
Qed.

Lemma every_on_stdout now k data st :
  every_record P st → every_record P (on_stdout now k data st).
Proof.
  unfold on_stdout. generalize (lines_of data). intros lines. revert st.
  induction lines as [|line lines IH]; intros st Hinv; simpl; [done|].
  apply IH. unfold on_stdout_line.
  destruct (is_ready line); [|by apply every_addLog].
  by apply every_updateStatus, every_addLog.
Qed.

Lemma every_on_stderr now k data st :
  every_record P st → every_record P (on_stderr now k data st).
Proof.
  unfold on_stderr. generalize (lines_of data). intros lines. revert st.
  induction lines as [|line lines IH]; intros st Hinv; simpl; [done|].
  by apply IH, every_addLog.
Qed.

Lemma every_on_exit now k code st :
  every_record P st → every_record P (on_exit now k code st).
Proof.
  intros Hinv. unfold on_exit.
  destruct (closure_of k st) as [managed|]; [|done].
  set (st1 := if _ && _ then _ else _).
  assert (Hst1 : every_record P st1).
  { subst st1. destruct (_ && _); by apply every_updateStatus. }
  revert Hst1. apply (every_alter (set_process None) k);
    [apply ProcessManagerProofs.processes_clear_process|apply P_handle].
Qed.

Lemma every_kill now k force st :
  every_record P st → every_record P (kill now k force st).2.
Proof.
  intros Hinv. unfold kill.
  destruct (processes st !! k) as [managed|]; [|done].
  destruct (process managed) as [child|]; simpl.
  - apply (every_same (updateStatus now k stopping None st)); [done|].
    by apply every_updateStatus.
  - by apply every_updateStatus.
Qed.

Lemma every_kill_timeout k st :
  every_record P st → every_record P (kill_timeout k st).
Proof.
  intros Hinv. unfold kill_timeout.
  destruct (closure_of k st) as [managed|]; [|done].
  destruct (process managed); [|done]. by apply (every_same st).
Qed.

Lemma every_removeProcess k st :
  every_record P st → every_record P (removeProcess k st).2.
Proof.
  intros Hinv. unfold removeProcess.
  destruct (processes st !! k) as [managed|]; [|done].
  destruct (_ || _); [done|]. simpl. intros k' m'. simpl.
  rewrite lookup_delete. destruct (decide (k = k')); [done|apply Hinv].
Qed.

Lemma every_spawn_resume now k st r st' :
  spawn_resume now k st = Some (r, st') →
  every_record P st → every_record P st'.
Proof.
  unfold spawn_resume. destruct (closure_of k st) as [managed|]; [|done].
  destruct (decide _); intros [= <- <-] Hinv; [|done].
  by apply every_updateStatus, (every_same st).
Qed.

Lemma every_spawn_begin now k modelId modelName modelPath userConfig child st :
  every_record P st →
  every_record P
    (spawn_begin now k modelId modelName modelPath userConfig child st).2.
Proof.
  intros Hinv. unfold spawn_begin.
  destruct (PortManager.allocate (usedPorts st)) as [[port|message] used]
    eqn:Halloc; [|done].
  destruct (PortManagerProofs.allocate_Ok _ _ _ Halloc) as (Hrange & _).
  destruct child as [[childProcess childPid]|message]; simpl.
  - intros k' m'. simpl. rewrite !lookup_insert.
    destruct (decide (k = k')) as [<-|Hne]; [|apply Hinv].
    intros [= <-]. by apply P_spawn.
  - apply every_updateStatus. intros k' m'. simpl. rewrite lookup_insert.
    destruct (decide (k = k')) as [<-|Hne]; [|apply Hinv].
    intros [= <-]. by apply P_spawn.
Qed.

Lemma every_step st op : every_record P st → every_record P (step st op).
Proof.
  intros Hinv. destruct op; simpl.
  - by apply every_spawn_begin.
  - destruct (spawn_resume now processId st) as [[r st']|] eqn:Hresume;
      [|done]. by eapply every_spawn_resume.
  - by apply every_on_stdout.
  - by apply every_on_stderr.
  - by apply every_updateStatus.
  - by apply every_on_exit.
  - by apply every_kill.
  - by apply every_kill_timeout.
  - by apply every_removeProcess.
Qed.

Lemma every_steps ops st :
  every_record P st → every_record P (foldl step st ops).
Proof.
  revert st. induction ops as [|op ops IH]; intros st Hinv; simpl; [done|].
  by apply IH, every_step.
Qed.

Lemma every_restoreState now st :
  (∀ processInfo,
     P (id processInfo) {| info := processInfo; process := None; logs := [] |}) →
  every_record P st → every_record P (restoreState now st).
Proof.
  intros Hloaded. unfold restoreState.
  destruct (state_file st) as [data|]; [|done]. revert st.
  induction data as [|processInfo data IH]; intros st Hinv; simpl; [done|].
  apply IH. unfold restore_one.
  set (loaded := if _ || _ then _ else processInfo).
  assert (Hnew : every_record P
            (set_processes
               (<[id loaded := {| info := loaded; process := None; logs := [] |}]>
                  (processes st)) st)).
  { intros k' m'. simpl. rewrite lookup_insert.
    destruct (decide (id loaded = k')) as [<-|Hne]; [|apply Hinv].
    intros [= <-]. apply Hloaded. }
  destruct (negb _); [|exact Hnew]. exact Hnew.
Qed.

End RecordInvariant.

Lemma length_trim pushed : (length (trim pushed) ≤ maxLogLines)%nat.
Proof.
  unfold trim. destruct (maxLogLines <? length pushed)%nat eqn:Hlong.
  - apply Nat.ltb_lt in Hlong. rewrite length_drop. lia.
  - apply Nat.ltb_ge in Hlong. exact Hlong.
Qed.

Lemma logs_bounded_run now file ops :
  every_record logs_bounded (run now file ops).
Proof.
  unfold run. apply every_steps; unfold logs_bounded; simpl; try done.
  - intros _ m line _. apply length_trim.
  - intros; lia.
  - unfold getInstance. apply every_restoreState; [|done].
    intros processInfo. simpl. lia.
Qed.

(** In every state that a supervisor reaches from startup, [getLogs] gives
    the end of the record's buffer: at most [maxLogLines] lines, at most
    [tail] of them when a positive [tail] is asked for, and none for an
    unknown id. *)
Theorem getLogs_gives_the_latest_lines (now : string)
    (file : option (list VLLMProcess)) (ops : list Op) (processId : string)
    (tail : option Z) :
  let st := run now file ops in
  let lines := getLogs processId tail st in
  (length lines ≤ maxLogLines)%nat
  ∧ (∀ n, tail = Some n → 0 < n → (length lines ≤ Z.to_nat n)%nat)
  ∧ (∀ managed, processes st !! processId = Some managed →
       lines `suffix_of` logs managed
       ∧ (tail = None ∨ tail = Some 0 → lines = logs managed))
  ∧ (processes st !! processId = None → lines = []).
Proof.
  intros st lines. subst lines. unfold getLogs.
  pose proof (logs_bounded_run now file ops processId) as Hbound.
  fold st in Hbound. unfold logs_bounded in Hbound.
  destruct (processes st !! processId) as [managed|] eqn:Hm.
  - specialize (Hbound managed eq_refl).
    assert (Hdrop : ∀ k, (length (drop k (logs managed)) ≤ maxLogLines)%nat).
    { intros k. rewrite length_drop. lia. }
    split; [|split; [|split]].
    + destruct tail as [n|]; [|done]. by destruct (negb _ && _).
    + intros n -> Hn.
      assert (negb (n =? 0) && (0 <? n) = true) as ->.
      { apply andb_true_iff. split; [apply negb_true_iff; lia|lia]. }
      rewrite length_drop. lia.
    + intros m' [= <-]. split.
      * destruct tail as [n|]; [|done].
        destruct (negb _ && _); [apply suffix_drop|done].
      * by intros [->| ->].
    + done.
  - split; [simpl; lia|]. split; [simpl; lia|]. done.
Qed.

(** On a server that started without a state file, every record is as
    [spawn] made it: filed under its id, on a port of the allocator's range
    that its launch configuration repeats, bound to the loopback address, and
    with its start time. *)
Theorem records_stay_as_spawned (now : string) (ops : list Op) :
  every_record as_spawned (run now None ops).
Proof.
  unfold run. apply every_steps; unfold as_spawned; simpl; try done.
  intros k m now' s err (Hid & Hport & Hhost & Hrange & Hstart).
  unfold next_info.
  by destruct (truthy_string err), (is_terminal s).
Qed.

(** *** The allocator under the supervisor *)

Lemma usedPorts_updateStatus_subseteq now k s err st :
  usedPorts (updateStatus now k s err st) ⊆ usedPorts st.
Proof.
  destruct (processes st !! k) as [managed|] eqn:Hm.
  - rewrite (ProcessManagerProofs.usedPorts_updateStatus _ _ _ _ _ _ Hm).
    destruct (is_terminal s); [|done]. unfold PortManager.release. set_solver.
  - by rewrite ProcessManagerProofs.updateStatus_absent.
Qed.

Lemma usedPorts_addLog now k message stream st :
  usedPorts (addLog now k message stream st) = usedPorts st.
Proof. unfold addLog. by destruct (processes st !! k). Qed.

Lemma usedPorts_clear_process k st :
  usedPorts (clear_process k st) = usedPorts st.
Proof. unfold clear_process. by destruct (processes st !! k). Qed.

Lemma usedPorts_on_stdout now k data st :
  usedPorts (on_stdout now k data st) ⊆ usedPorts st.
Proof.
  unfold on_stdout. generalize (lines_of data). intros lines. revert st.
  induction lines as [|line lines IH]; intros st; simpl; [done|].
  etrans; [apply IH|]. unfold on_stdout_line.
  destruct (is_ready line).
  - etrans; [apply usedPorts_updateStatus_subseteq|].
    by rewrite usedPorts_addLog.
  - by rewrite usedPorts_addLog.
Qed.

Lemma usedPorts_on_stderr now k data st :
  usedPorts (on_stderr now k data st) = usedPorts st.
Proof.
  unfold on_stderr. generalize (lines_of data). intros lines. revert st.
  induction lines as [|line lines IH]; intros st; simpl; [done|].
  by rewrite IH, usedPorts_addLog.
Qed.

Lemma usedPorts_on_exit now k code st :
  usedPorts (on_exit now k code st) ⊆ usedPorts st.
Proof.
  unfold on_exit. destruct (closure_of k st) as [managed|]; [|done].
  rewrite usedPorts_clear_process.
  destruct (_ && _); apply usedPorts_updateStatus_subseteq.
Qed.

Lemma usedPorts_kill now k force st :
  usedPorts (kill now k force st).2 ⊆ usedPorts st.
Proof.
  unfold kill. destruct (processes st !! k) as [managed|]; [|done].
  destruct (process managed) as [child|]; simpl;
    apply usedPorts_updateStatus_subseteq.
Qed.

Lemma usedPorts_kill_timeout k st :
  usedPorts (kill_timeout k st) = usedPorts st.
Proof.
  unfold kill_timeout. destruct (closure_of k st) as [managed|]; [|done].
  by destruct (process managed).
Qed.

Lemma usedPorts_removeProcess k st :
  usedPorts (removeProcess k st).2 = usedPorts st.
Proof.
  unfold removeProcess. destruct (processes st !! k) as [managed|]; [|done].
  by destruct (_ || _).
Qed.

Lemma usedPorts_spawn_resume now k st r st' :
  spawn_resume now k st = Some (r, st') → usedPorts st' ⊆ usedPorts st.
Proof.
  unfold spawn_resume. destruct (closure_of k st) as [managed|]; [|done].
  destruct (decide _); intros [= <- <-]; [|done].
  etrans; [apply usedPorts_updateStatus_subseteq|]. simpl.
  unfold PortManager.release. set_solver.
Qed.

Lemma usedPorts_spawn_begin now k modelId modelName modelPath userConfig
    child st :
  usedPorts (spawn_begin now k modelId modelName modelPath userConfig child st).2
  ⊆ usedPorts st ∪ PortManager.range.
Proof.
  unfold spawn_begin.
  destruct (PortManager.allocate (usedPorts st)) as [[port|message] used]
    eqn:Halloc; [|set_solver].
  destruct (PortManagerProofs.allocate_Ok _ _ _ Halloc) as (Hrange & _ & _ & ->).
  apply PortManagerFacts.elem_of_range in Hrange.
  revert Hrange. generalize PortManager.range. intros R Hrange.
  destruct child as [[childProcess childPid]|message]; simpl.
  - set_solver.
  - etrans; [apply usedPorts_updateStatus_subseteq|]. simpl.
    unfold PortManager.release. set_solver.
Qed.

Lemma usedPorts_step st op :
  usedPorts (step st op) ⊆ usedPorts st ∪ PortManager.range.
Proof.
  destruct op; simpl; try apply usedPorts_spawn_begin;
    generalize PortManager.range; intros R.
  - destruct (spawn_resume now processId st) as [[r st']|] eqn:Hresume;
      [|set_solver].
    pose proof (usedPorts_spawn_resume _ _ _ _ _ Hresume). set_solver.
  - pose proof (usedPorts_on_stdout now processId data st). set_solver.
  - rewrite usedPorts_on_stderr. set_solver.
  - pose proof (usedPorts_updateStatus_subseteq now processId error
                  (Some message) st). unfold on_error. set_solver.
  - pose proof (usedPorts_on_exit now processId code st). set_solver.
  - pose proof (usedPorts_kill now processId force st). set_solver.
  - rewrite usedPorts_kill_timeout. set_solver.
  - rewrite usedPorts_removeProcess. set_solver.
Qed.

Lemma usedPorts_restoreState now st :
  usedPorts (restoreState now st) ⊆ usedPorts st ∪ PortManager.range.
Proof.
  unfold restoreState.
  destruct (state_file st) as [data|]; [|apply union_subseteq_l].
  revert st. induction data as [|processInfo data IH]; intros st; simpl;
    [apply union_subseteq_l|].
  etrans; [apply IH|]. unfold restore_one.
  set (loaded := if _ || _ then _ else processInfo).
  assert (Hsame : usedPorts st ∪ PortManager.range
                  ⊆ usedPorts st ∪ PortManager.range) by done.
  destruct (negb _); simpl; [|exact Hsame].
  unfold PortManager.reserve.
  destruct (PortManager.isAvailable (port loaded) (usedPorts st)) eqn:Hfree;
    simpl; [|exact Hsame]. clear Hsame.
  apply PortManagerFacts.isAvailable_true in Hfree as [Hrange _].
  apply PortManagerFacts.elem_of_range in Hrange.
  revert Hrange. generalize PortManager.range. set_solver.
Qed.

(** On a server that started without a state file, or from one that the
    supervisor wrote itself, over any number of restarts and whatever
    happened in between, the allocator holds ports of its range only, so at
    most 101 of them. *)
Theorem used_ports_stay_in_range (now : string)
    (file : option (list VLLMProcess)) (ops : list Op) :
  written file →
  let used := usedPorts (run now file ops) in
  used ⊆ PortManager.range
  ∧ PortManager.within_range used
  ∧ (size used ≤ 101)%nat.
Proof.
  intros _ used.
  assert (Hsub : used ⊆ PortManager.range).
  { subst used. unfold run.
    assert (Hstart : usedPorts (getInstance now file) ⊆ PortManager.range).
    { unfold getInstance.
      etrans; [apply usedPorts_restoreState|]. simpl.
      generalize PortManager.range. set_solver. }
    revert Hstart. generalize (getInstance now file). intros st.
    revert st. induction ops as [|op ops IH]; intros st Hst; simpl; [done|].
    apply IH. pose proof (usedPorts_step st op) as Hstep.
    revert Hst Hstep. generalize PortManager.range. set_solver. }
  split; [exact Hsub|]. split.
  - intros port Hport. by apply PortManagerFacts.elem_of_range, Hsub.
  - rewrite <- PortManagerFacts.size_range. by apply subseteq_size.
Qed.

Lemma used_ports_after_a_restart :
  let used :=
    usedPorts
      (run "2026-01-02T00:00:00.000Z" (state_file Scenarios.crashed)
         [Scenarios.relaunch]) in
  used ⊆ PortManager.range ∧ (size used ≤ 101)%nat.
Proof.
  intros used.
  destruct (used_ports_stay_in_range "2026-01-02T00:00:00.000Z"
              (state_file Scenarios.crashed) [Scenarios.relaunch])
    as (Hrange & _ & Hsize).
  - apply (written_run "2026-01-01T00:00:00.000Z" None
             [Scenarios.launch;
              OpExit "2026-01-01T00:00:05.000Z" "p1" (Some 1)]).
    apply written_none.
  - by split.
Defined.

(** *** Shutdown *)

Lemma signals_updateStatus now k s err st :
  signals (updateStatus now k s err st) = signals st.
Proof. unfold updateStatus. by destruct (processes st !! k). Qed.

Lemma kill_lookup_ne now k k' force st :
  k ≠ k' → processes (kill now k force st).2 !! k' = processes st !! k'.
Proof.
  intros Hne. unfold kill.
  destruct (processes st !! k) as [managed|]; [|done].
  destruct (process managed) as [child|]; simpl;
    by rewrite ProcessManagerProofs.processes_updateStatus, lookup_alter_ne.
Qed.

Lemma signals_kill now k force st :
  signals st `prefix_of` signals (kill now k force st).2.
Proof.
  unfold kill. destruct (processes st !! k) as [managed|]; [|done].
  destruct (process managed) as [child|]; simpl.
  - rewrite signals_updateStatus. by apply prefix_app_r.
  - by rewrite signals_updateStatus.
Qed.

(** What [kill] leaves of the record it is called for. *)
Lemma kill_lookup_eq now k force st managed :
  processes st !! k = Some managed →
  let st' := (kill now k force st).2 in
  ∃ managed',
    processes st' !! k = Some managed'
    ∧ process managed' = process managed
    ∧ port (info managed') = port (info managed)
    ∧ match process managed with
      | Some child =>
          status (info managed') = stopping
          ∧ (child, if force then SIGKILL else SIGTERM) ∈ signals st'
      | None =>
          status (info managed') = stopped
          ∧ port (info managed) ∉ usedPorts st'
      end.
Proof.
  intros Hm st'. subst st'. unfold kill. rewrite Hm.
  destruct (process managed) as [child|] eqn:Hchild; simpl.
  - exists (set_info (next_info now stopping None (info managed)) managed).
    rewrite ProcessManagerProofs.processes_updateStatus, lookup_alter, Hm.
    rewrite decide_True by done. cbn [fmap option_fmap option_map info set_info].
    rewrite ProcessManagerProofs.next_info_status,
      ProcessManagerProofs.next_info_port, signals_updateStatus.
    repeat split; try done. apply elem_of_app. right. by left.
  - exists (set_info (next_info now stopped None (info managed)) managed).
    rewrite ProcessManagerProofs.processes_updateStatus, lookup_alter, Hm.
    rewrite decide_True by done. cbn [fmap option_fmap option_map info set_info].
    rewrite ProcessManagerProofs.next_info_status,
      ProcessManagerProofs.next_info_port.
    rewrite (ProcessManagerProofs.usedPorts_updateStatus _ _ _ _ _ _ Hm).
    simpl. unfold PortManager.release. repeat split; try done. set_solver.
Qed.

Lemma shutdown_fold now ids st :
  NoDup ids →
  let st' :=
    foldl (λ st processId, (kill (now processId) processId false st).2) st
      ids in
  usedPorts st' ⊆ usedPorts st
  ∧ signals st `prefix_of` signals st'
  ∧ ∀ k managed, processes st !! k = Some managed →
      ∃ managed',
        processes st' !! k = Some managed'
        ∧ process managed' = process managed
        ∧ port (info managed') = port (info managed)
        ∧ (k ∉ ids → info managed' = info managed)
        ∧ (k ∈ ids →
           match process managed with
           | Some child =>
               status (info managed') = stopping
               ∧ (child, SIGTERM) ∈ signals st'
           | None =>
               status (info managed') = stopped
               ∧ port (info managed) ∉ usedPorts st'
           end).
Proof.
  intros Hnodup. revert st.
  induction Hnodup as [|k0 ids Hfresh Hnodup IH]; intros st; simpl.
  - split; [done|]. split; [done|]. intros k managed Hm. exists managed.
    repeat split; try done. by intros ?%elem_of_nil.
  - destruct (IH (kill (now k0) k0 false st).2) as (Hports & Hsignals & Hrecords).
    split; [by etrans; [exact Hports|apply usedPorts_kill]|].
    split; [by etrans; [apply signals_kill|exact Hsignals]|].
    intros k managed Hm. destruct (decide (k = k0)) as [->|Hne].
    + destruct (kill_lookup_eq (now k0) k0 false st managed Hm)
        as (m1 & Hm1 & Hhandle1 & Hport1 & Hkill).
      destruct (Hrecords k0 m1 Hm1) as (m2 & Hm2 & Hhandle2 & Hport2 & Hkeep & _).
      exists m2. split; [exact Hm2|]. split; [congruence|].
      split; [congruence|]. split.
      { intros Hout. exfalso. apply Hout. by left. }
      intros _. rewrite (Hkeep Hfresh).
      destruct (process managed) as [child|].
      * destruct Hkill as [Hstatus Hsent]. split; [exact Hstatus|].
        destruct Hsignals as [more ->]. apply elem_of_app. by left.
      * destruct Hkill as [Hstatus Hfree]. split; [exact Hstatus|].
        intros Hused. apply Hfree. by apply Hports.
    + rewrite <- (kill_lookup_ne (now k0) k0 k false st) in Hm by done.
      destruct (Hrecords k managed Hm) as (m2 & Hm2 & Hhandle2 & Hport2 & Hkeep & Hall).
      exists m2. split; [exact Hm2|]. split; [exact Hhandle2|].
      split; [exact Hport2|]. split.
      * intros Hout. apply Hkeep. intros Hin. apply Hout. by right.
      * intros [?|Hin]%elem_of_cons; [done|]. by apply Hall.
Qed.

(** The shutdown handler leaves no record [starting], [running] or
    [error]: every child that is still attached is sent [SIGTERM] and its
    record is [stopping]; every record without a child, whatever its status
    was, is [stopped] and its port is free. No handle is dropped and no port
    is taken. *)
Theorem shutdown_stops_every_record (now : string → string) (st : Supervisor) :
  let st' := shutdown now st in
  usedPorts st' ⊆ usedPorts st
  ∧ ∀ processId managed, processes st !! processId = Some managed →
      ∃ managed',
        processes st' !! processId = Some managed'
        ∧ process managed' = process managed
        ∧ match process managed with
          | Some child =>
              status (info managed') = stopping
              ∧ (child, SIGTERM) ∈ signals st'
          | None =>
              status (info managed') = stopped
              ∧ port (info managed) ∉ usedPorts st'
          end.
Proof.
  intros st'. subst st'. unfold shutdown.
  destruct (shutdown_fold now (map_to_list (processes st)).*1 st)
    as (Hports & _ & Hrecords); [apply NoDup_fst_map_to_list|].
  split; [exact Hports|]. intros k managed Hm.
  destruct (Hrecords k managed Hm) as (m' & Hm' & Hhandle & _ & _ & Hall).
  exists m'. split; [exact Hm'|]. split; [exact Hhandle|]. apply Hall.
  apply list_elem_of_fmap. exists (k, managed). split; [done|].
  by apply elem_of_map_to_list.
Qed.

(** *** Spawning, restarting, and ports that are released late *)

(** A [spawn] whose child starts: what it returns and leaves behind. *)
Lemma spawn_begin_started now k modelId modelName modelPath userConfig
    childProcess childPid st port used :
  PortManager.allocate (usedPorts st) = (Ok port, used) →
  let r :=
    spawn_begin now k modelId modelName modelPath userConfig
      (Ok (childProcess, childPid)) st in
  r.1 = Ok ()
  ∧ usedPorts r.2 = used
  ∧ processes r.2 !! k
    = Some {| info :=
                {| id := k; modelId := modelId; modelName := modelName;
                   modelPath := modelPath; port := port; status := starting;
                   pid := childPid; startedAt := Some now; stoppedAt := None;
                   config := VllmConfig.mergeConfig port userConfig;
                   error_message := None |};
              process := Some childProcess; logs := [] |}
  ∧ ∀ k', k' ≠ k → processes r.2 !! k' = processes st !! k'.
Proof.
  intros Halloc r. subst r. unfold spawn_begin. rewrite Halloc. simpl.
  split; [done|]. split; [done|]. split.
  - by rewrite lookup_insert, decide_True.
  - intros k' Hne. by rewrite !lookup_insert_ne.
Qed.

(** A port of the range that is free is at or above the one [allocate]
    hands out. *)
Lemma allocate_at_most used port :
  PortManager.BASE_PORT ≤ port ≤ PortManager.MAX_PORT → port ∉ used →
  ∃ lowest, PortManager.allocate used = (Ok lowest, used ∪ {[lowest]})
            ∧ lowest ≤ port.
Proof.
  intros Hrange Hfree.
  destruct (PortManager.allocate used) as [[lowest|message] used'] eqn:Halloc.
  - destruct (PortManagerProofs.allocate_Ok _ _ _ Halloc)
      as (Hlowest & _ & Hbelow & ->).
    exists lowest. split; [done|].
    destruct (decide (lowest ≤ port)) as [|Habove]; [done|].
    exfalso. apply Hfree, Hbelow. lia.
  - destruct (PortManagerProofs.allocate_Throw _ _ _ Halloc) as [_ Hfull].
    exfalso. by apply Hfree, Hfull.
Qed.

(** [restart] of a record whose child is gone: the old record stays, as
    [stopped]; a new record appears under the new id for the same model,
    [starting], on a port that is not above the old one, and with the old
    launch configuration moved to the new port. *)
Theorem restart_of_a_dead_process (now now' processId newId : string)
    (childProcess : ChildProcess) (childPid : option Z) (st : Supervisor)
    (managed : ManagedProcess) :
  processes st !! processId = Some managed →
  process managed = None →
  newId ≠ processId →
  PortManager.BASE_PORT ≤ port (info managed) ≤ PortManager.MAX_PORT →
  ∃ st1 st2 new,
    restart_begin now processId st = (Ok (info managed, AlreadyDead), st1)
    ∧ restart_resume now' newId (info managed) (Ok (childProcess, childPid)) st1
      = (Ok (), st2)
    ∧ status_of processId st2 = Some stopped
    ∧ getProcess newId st2 = Some new
    ∧ status new = starting
    ∧ modelId new = modelId (info managed)
    ∧ modelName new = modelName (info managed)
    ∧ modelPath new = modelPath (info managed)
    ∧ port new ≤ port (info managed)
    ∧ config new
      = VllmConfig.mergeConfig (port new)
          (VllmConfig.overrides_of (config (info managed)))
    ∧ ∀ port u, config (info managed) = VllmConfig.mergeConfig port u →
                config new = VllmConfig.mergeConfig (ProcessManager.port new) u.
Proof.
  intros Hm Hdead Hne Hrange.
  set (st1 := updateStatus now processId stopped None st).
  assert (Hbegin : restart_begin now processId st
                   = (Ok (info managed, AlreadyDead), st1)).
  { unfold restart_begin, kill. by rewrite Hm, Hdead. }
  assert (Hfree : port (info managed) ∉ usedPorts st1).
  { subst st1.
    rewrite (ProcessManagerProofs.usedPorts_updateStatus _ _ _ _ _ _ Hm).
    simpl. unfold PortManager.release. set_solver. }
  destruct (allocate_at_most _ _ Hrange Hfree) as (lowest & Halloc & Hle).
  destruct (spawn_begin_started now' newId (modelId (info managed))
              (modelName (info managed)) (modelPath (info managed))
              (VllmConfig.overrides_of (config (info managed)))
              childProcess childPid st1 _ _ Halloc)
    as (Hok & _ & Hnew & Hothers).
  set (r := spawn_begin _ _ _ _ _ _ _ _) in *.
  exists st1, r.2, (mkProcess newId (modelId (info managed))
    (modelName (info managed)) (modelPath (info managed)) lowest starting
    childPid (Some now') None
    (VllmConfig.mergeConfig lowest
       (VllmConfig.overrides_of (config (info managed)))) None).
  split; [exact Hbegin|]. split.
  { unfold restart_resume. fold r. destruct r as [result st2].
    simpl in Hok. by rewrite Hok. }
  split.
  { unfold status_of, getProcess. rewrite Hothers by done. subst st1.
    rewrite ProcessManagerProofs.processes_updateStatus, lookup_alter, Hm.
    rewrite decide_True by done.
    cbn [fmap option_fmap option_map info set_info].
    by rewrite ProcessManagerProofs.next_info_status. }
  split; [by unfold getProcess; rewrite Hnew|].
  repeat split; try done.
  intros p u Hconfig. simpl. rewrite Hconfig.
  apply VllmConfigFacts.mergeConfig_overrides_of.
Qed.

Lemma restart_after_the_crash :
  ∃ managed st1 st2 new,
    processes Scenarios.crashed !! "p1" = Some managed
    ∧ restart_begin "2026-01-01T00:00:08.000Z" "p1" Scenarios.crashed
      = (Ok (info managed, AlreadyDead), st1)
    ∧ restart_resume "2026-01-01T00:00:09.000Z" "p9" (info managed)
        (Ok (2%nat, Some 4343)) st1
      = (Ok (), st2)
    ∧ status_of "p1" st2 = Some stopped
    ∧ getProcess "p9" st2 = Some new
    ∧ status new = starting
    ∧ port new ≤ 8000
    ∧ config new = VllmConfig.mergeConfig (port new) VllmConfig.noOverrides.
Proof.
  assert (Hdead : ∃ managed,
             processes Scenarios.crashed !! "p1" = Some managed
             ∧ process managed = None
             ∧ port (info managed) = 8000
             ∧ config (info managed)
               = VllmConfig.mergeConfig 8000 VllmConfig.noOverrides).
  { vm_compute. eexists. repeat split; reflexivity. }
  destruct Hdead as (managed & Hm & Hdead & Hport & Hconfig).
  destruct (restart_of_a_dead_process "2026-01-01T00:00:08.000Z"
              "2026-01-01T00:00:09.000Z" "p1" "p9" 2%nat (Some 4343)
              Scenarios.crashed managed Hm Hdead)
    as (st1 & st2 & new & Hbegin & Hresume & Hold & Hnew & Hstatus & _ & _ & _
        & Hle & _ & Hsame).
  { done. }
  { rewrite Hport. unfold PortManager.BASE_PORT, PortManager.MAX_PORT. lia. }
  exists managed, st1, st2, new. rewrite Hport in Hle.
  repeat split; try done. by apply (Hsame 8000).
Defined.

(** A release that comes late frees a port that is in use. When the record
    [processId] has no child left, [kill] releases its port again; when it is
    in [error], so does [spawn] as it resumes. If another record has been
    given that port in the meantime, it loses the reservation while it is
    still live, and the next [spawn] that finds the lower ports of the range
    taken starts a second child on the same port. *)
Theorem late_release_frees_a_port_in_use (now now' processId other newId : string)
    (force : bool) (modelId modelName modelPath : string)
    (userConfig : VllmConfig.UserConfig) (childProcess : ChildProcess)
    (childPid : option Z) (st : Supervisor) (managed holder : ManagedProcess) :
  processes st !! processId = Some managed →
  processes st !! other = Some holder →
  other ≠ processId → newId ≠ other →
  port (info holder) = port (info managed) →
  is_terminal (status (info holder)) = false →
  PortManager.BASE_PORT ≤ port (info holder) ≤ PortManager.MAX_PORT →
  (∀ q, PortManager.BASE_PORT ≤ q < port (info holder) → q ∈ usedPorts st) →
  ∀ st',
    (process managed = None ∧ st' = (kill now processId force st).2)
    ∨ (status (info managed) = error
       ∧ ∃ r, spawn_resume now processId st = Some (r, st')) →
    getProcess other st' = Some (info holder)
    ∧ (port (info holder) ∉ usedPorts st')
    ∧ let st'' :=
        (spawn_begin now' newId modelId modelName modelPath userConfig
           (Ok (childProcess, childPid)) st').2 in
      getProcess other st'' = Some (info holder)
      ∧ ∃ new, getProcess newId st'' = Some new
               ∧ status new = starting
               ∧ port new = port (info holder).
Proof.
  intros Hm Hholder Hne Hnew Hport Hlive Hrange Hbelow st' Hlate.
  assert (Hafter : processes st' !! other = Some holder
                   ∧ usedPorts st'
                     = PortManager.release (port (info managed)) (usedPorts st)).
  { destruct Hlate as [[Hdead ->]|[Herror [r Hresume]]].
    - unfold kill. rewrite Hm, Hdead. simpl. split.
      + by rewrite ProcessManagerProofs.processes_updateStatus,
          lookup_alter_ne.
      + by rewrite (ProcessManagerProofs.usedPorts_updateStatus _ _ _ _ _ _ Hm).
    - unfold spawn_resume, closure_of in Hresume. rewrite Hm in Hresume.
      rewrite decide_True in Hresume by done. injection Hresume as _ <-.
      split.
      + by rewrite ProcessManagerProofs.processes_updateStatus,
          lookup_alter_ne.
      + rewrite (ProcessManagerProofs.usedPorts_updateStatus _ _ _ _
                   (set_usedPorts _ st) managed Hm).
        simpl. unfold PortManager.release. set_solver. }
  destruct Hafter as [Hkept Hused].
  assert (Hfree : port (info holder) ∉ usedPorts st').
  { rewrite Hused, Hport. unfold PortManager.release. set_solver. }
  split; [by unfold getProcess; rewrite Hkept|]. split; [exact Hfree|].
  destruct (allocate_at_most _ _ Hrange Hfree) as (lowest & Halloc & Hle).
  assert (Hlowest : lowest = port (info holder)).
  { destruct (PortManagerProofs.allocate_Ok _ _ _ Halloc)
      as (Hin & Hout & _ & _).
    destruct (decide (lowest = port (info holder))) as [|Hdiff]; [done|].
    exfalso. apply Hout. rewrite Hused. unfold PortManager.release.
    apply elem_of_difference. split.
    - apply Hbelow. lia.
    - rewrite <- Hport. set_solver. }
  destruct (spawn_begin_started now' newId modelId modelName modelPath
              userConfig childProcess childPid st' _ _ Halloc)
    as (_ & _ & Hrecord & Hothers).
  intros st''. subst st''. split.
  - unfold getProcess. rewrite Hothers by done. by rewrite Hkept.
  - eexists. unfold getProcess. rewrite Hrecord. simpl.
    split; [reflexivity|]. by split.
Qed.

Lemma second_launch_loses_its_port :
  let st' := (kill "2026-01-01T00:00:12.000Z" "p1" false Scenarios.relaunched).2 in
  let st'' :=
    (spawn_begin "2026-01-01T00:00:13.000Z" "p3" "m3" "Third" "/models/c.gguf"
       VllmConfig.noOverrides (Ok (3%nat, Some 4444)) st').2 in
  status_of "p2" Scenarios.relaunched = Some starting
  ∧ status_of "p2" st'' = Some starting
  ∧ (port <$> getProcess "p2" st'') = Some 8000
  ∧ status_of "p3" st'' = Some starting
  ∧ (port <$> getProcess "p3" st'') = Some 8000.
Proof.
  intros st' st''.
  assert (Hstate : ∃ managed holder,
             processes Scenarios.relaunched !! "p1" = Some managed
             ∧ processes Scenarios.relaunched !! "p2" = Some holder
             ∧ process managed = None
             ∧ port (info managed) = 8000
             ∧ port (info holder) = 8000
             ∧ status (info holder) = starting).
  { vm_compute. do 2 eexists. repeat split; reflexivity. }
  destruct Hstate as (managed & holder & Hm & Hholder & Hdead & Hport & Hport'
                      & Hstarting).
  assert (Hrange : PortManager.BASE_PORT ≤ port (info holder)
                    ≤ PortManager.MAX_PORT).
  { rewrite Hport'. unfold PortManager.BASE_PORT, PortManager.MAX_PORT. lia. }
  assert (Hbelow : ∀ q, PortManager.BASE_PORT ≤ q < port (info holder) →
                        q ∈ usedPorts Scenarios.relaunched).
  { intros q. rewrite Hport'. unfold PortManager.BASE_PORT. lia. }
  assert (Hlive : is_terminal (status (info holder)) = false)
    by (by rewrite Hstarting).
  assert (Hother : "p2" ≠ "p1") by done.
  assert (Hfresh : "p3" ≠ "p2") by done.
  assert (Hsame : port (info holder) = port (info managed)) by congruence.
  pose proof (late_release_frees_a_port_in_use "2026-01-01T00:00:12.000Z"
                "2026-01-01T00:00:13.000Z" "p1" "p2" "p3" false "m3" "Third"
                "/models/c.gguf" VllmConfig.noOverrides 3%nat (Some 4444)
                Scenarios.relaunched managed holder Hm Hholder Hother Hfresh
                Hsame Hlive Hrange Hbelow st' (or_introl (conj Hdead eq_refl)))
    as Hlate.
  cbv zeta in Hlate.
  destruct Hlate as (_ & _ & Hkept & new & Hnew & Hnewstatus & Hnewport).
  subst st''. unfold status_of.
  split; [by unfold getProcess; rewrite Hholder; simpl; rewrite Hstarting|].
  split; [exact (eq_trans (f_equal (fmap status) Hkept)
                   (f_equal Some Hstarting))|].
  split; [exact (eq_trans (f_equal (fmap port) Hkept) (f_equal Some Hport'))|].
  split; [exact (eq_trans (f_equal (fmap status) Hnew)
                   (f_equal Some Hnewstatus))|].
  exact (eq_trans (f_equal (fmap port) Hnew)
           (f_equal Some (eq_trans Hnewport Hport'))).
Defined.

(** A [spawn] whose child cannot be started throws the error of the start and
    leaves an [error] record behind, stamped and persisted, with the port
    given back; when no port is free it throws before anything is touched. *)
Theorem failed_spawn_leaves_an_error_record (now processId modelId modelName
    modelPath : string) (userConfig : VllmConfig.UserConfig) (message : string)
    (st : Supervisor) :
  let r :=
    spawn_begin now processId modelId modelName modelPath userConfig
      (Throw message) st in
  match PortManager.allocate (usedPorts st) with
  | (Ok port, _) =>
      r.1 = Throw message
      ∧ usedPorts r.2 = usedPorts st
      ∧ synced r.2
      ∧ ∃ i, getProcess processId r.2 = Some i
             ∧ status i = error
             ∧ ProcessManager.port i = port
             ∧ stoppedAt i = Some now
             ∧ process <$> processes r.2 !! processId = Some None
             ∧ (message ≠ "" → error_message i = Some message)
  | (Throw reason, _) => r = (Throw reason, st)
  end.
Proof.
  intros r. subst r. unfold spawn_begin.
  destruct (PortManager.allocate (usedPorts st)) as [[port|reason] used]
    eqn:Halloc; [|done].
  destruct (PortManagerProofs.allocate_Ok _ _ _ Halloc) as (_ & Hfree & _ & ->).
  simpl. split; [done|].
  set (managed := {| info := _; process := None; logs := [] |}).
  set (st1 := set_usedPorts _ (saveState _)).
  assert (Hm : processes st1 !! processId = Some managed).
  { subst st1. simpl. by rewrite lookup_insert, decide_True. }
  split; [|split].
  - rewrite (ProcessManagerProofs.usedPorts_updateStatus _ _ _ _ _ _ Hm).
    subst st1. simpl. unfold PortManager.release. set_solver.
  - by eapply ProcessManagerProofs.synced_updateStatus.
  - exists (next_info now error (Some message) (info managed)). split.
    { by apply ProcessManagerProofs.getProcess_updateStatus_eq. }
    rewrite ProcessManagerProofs.next_info_status,
      ProcessManagerProofs.next_info_port.
    split; [done|]. split; [done|]. split; [done|]. split.
    + rewrite ProcessManagerProofs.processes_updateStatus, lookup_alter, Hm.
      by rewrite decide_True.
    + intros Hmessage. unfold next_info. simpl.
      destruct message; [done|]. reflexivity.
Qed.

(** *** The state file, written and read back *)



Lemma filed_under_id_run now file ops :
  every_record filed_under_id (run now file ops).
Proof.
  unfold run. apply every_steps; unfold filed_under_id; simpl; try done.
  - intros k m now' s err Hid. unfold next_info.
    by destruct (truthy_string err), (is_terminal s).
  - unfold getInstance. by apply every_restoreState.
Qed.



End ProcessManagerFacts.

(** ** The model registry *)

Module ModelRegistryFacts.
Import ModelRegistry.

(** *** Searching a list that is updated in place *)

Section Find.

Context {A : Type} (P : A → Prop) `{!∀ x, Decision (P x)}.

Lemma find_insert_hit (l : list A) i x y :
  list_find P l = Some (i, x) → P y →
  list_find P (<[i := y]> l) = Some (i, y).
Proof.
  intros Hfind Hy. apply list_find_Some in Hfind as (Hi & _ & Hbefore).
  apply list_find_Some. split; [|split; [exact Hy|]].
  - apply list_lookup_insert_eq. by eapply lookup_lt_Some.
  - intros j z Hj Hlt. rewrite list_lookup_insert_ne in Hj by lia.
    by eapply Hbefore.
Qed.

Lemma find_insert_miss (l : list A) i x y :
  l !! i = Some x → ¬ P x → ¬ P y →
  list_find P (<[i := y]> l) = list_find P l.
Proof.
  revert i. induction l as [|a l IH]; intros [|i] Hi Hx Hy; simpl in *;
    try done.
  - injection Hi as ->. by rewrite !decide_False.
  - destruct (decide (P a)); [done|]. by rewrite (IH i).
Qed.

Lemma find_delete_miss (l : list A) i x :
  l !! i = Some x → ¬ P x →
  snd <$> list_find P (delete i l) = snd <$> list_find P l.
Proof.
  revert i. induction l as [|a l IH]; intros [|i] Hi Hx; simpl in *; try done.
  - injection Hi as ->. rewrite decide_False by done.
    by destruct (list_find P l) as [[j y]|].
  - destruct (decide (P a)); [done|].
    specialize (IH i Hi Hx).
    destruct (list_find P (delete i l)) as [[j y]|],
      (list_find P l) as [[j' y']|]; simpl in *; congruence.
Qed.

Lemma find_delete_hit (l : list A) i x :
  list_find P l = Some (i, x) →
  (∀ j y, l !! j = Some y → P y → j = i) →
  list_find P (delete i l) = None.
Proof.
  intros Hfind Honly. apply list_find_Some in Hfind as (Hi & _ & _).
  apply list_find_None, Forall_forall. intros y Hy Hp.
  apply list_elem_of_lookup in Hy as [j Hj].
  rewrite list_lookup_delete in Hj.
  destruct (decide (j < i)%nat) as [Hlt|Hge].
  - specialize (Honly _ _ Hj Hp). lia.
  - specialize (Honly _ _ Hj Hp). lia.
Qed.

Lemma find_snoc_miss (l : list A) y :
  ¬ P y → list_find P (l ++ [y]) = list_find P l.
Proof.
  intros Hy. destruct (list_find P l) as [[i x]|] eqn:Hfind.
  - by apply list_find_app_l.
  - rewrite list_find_app_r by done. simpl. by rewrite decide_False.
Qed.

Lemma find_snoc_hit (l : list A) y :
  list_find P l = None → P y →
  list_find P (l ++ [y]) = Some (length l, y).
Proof.
  intros Hfind Hy. rewrite list_find_app_r by done. simpl.
  by rewrite decide_True.
Qed.

End Find.

Section Paths.

Variable getModelPath : string → string.

(** *** [register] *)

(** [register] is an upsert by path. The model it returns is the one the
    registry then holds for the path, with the name, size, source and checksum
    that were given, and the registry file holds the new list. A model that
    was registered for the path keeps its id, its file name, its download time
    and its place in the list; otherwise the new model comes last, under the
    new id. Models of other paths are found as before. *)
Theorem register_is_an_upsert (newId now name' filename' : string) (size' : Z)
    (source' : ModelSource) (checksum' : option string) (reg : Registry) :
  let r :=
    register getModelPath newId now name' filename' size' source' checksum'
      reg in
  getModelByPath (getModelPath filename') r.2 = Some r.1
  ∧ (name r.1, size r.1, source r.1, checksum r.1, path r.1)
    = (name', size', source', checksum', getModelPath filename')
  ∧ registry_file r.2 = Some (models r.2)
  ∧ files r.2 = files reg
  ∧ match getModelByPath (getModelPath filename') reg with
    | Some old =>
        (id r.1, filename r.1, downloadedAt r.1)
        = (id old, filename old, downloadedAt old)
        ∧ path <$> models r.2 = path <$> models reg
        ∧ id <$> models r.2 = id <$> models reg
    | None =>
        models r.2 = models reg ++ [r.1]
        ∧ (id r.1, filename r.1, downloadedAt r.1) = (newId, filename', now)
    end
  ∧ ∀ other, other ≠ getModelPath filename' →
             getModelByPath other r.2 = getModelByPath other reg.
Proof.
  intros r. subst r. unfold register, getModelByPath.
  destruct (list_find _ (models reg)) as [[index existing]|] eqn:Hfind; simpl.
  - pose proof Hfind as (Hindex & Hpath & _)%list_find_Some.
    set (updated := set_checksum _ _).
    assert (Hsame : path updated = path existing) by done.
    split.
    { erewrite find_insert_hit; [done|exact Hfind|]. congruence. }
    split; [by rewrite <- Hpath|]. split; [done|]. split; [done|]. split.
    { split; [done|]. rewrite !list_fmap_insert. split.
      - apply list_insert_id. by rewrite list_lookup_fmap, Hindex.
      - apply list_insert_id. by rewrite list_lookup_fmap, Hindex. }
    intros other Hother. f_equal.
    eapply find_insert_miss; [exact Hindex| |]; congruence.
  - split.
    { by erewrite find_snoc_hit. }
    split; [done|]. split; [done|]. split; [done|]. split; [done|].
    intros other Hother. f_equal. apply find_snoc_miss. simpl. congruence.
Qed.

(** *** [deleteModel] *)

Lemma lookup_unique_id (l : list Model) i j x y :
  NoDup (id <$> l) → l !! i = Some x → l !! j = Some y → id y = id x → j = i.
Proof.
  intros Hnodup Hi Hj Hid.
  apply (NoDup_lookup (id <$> l) j i (id x)); [done| |].
  - by rewrite list_lookup_fmap, Hj; simpl; rewrite Hid.
  - by rewrite list_lookup_fmap, Hi.
Qed.

(** [deleteModel] answers [false] for an id it does not know. For a model
    whose file is there and cannot be unlinked it throws and the model stays
    registered. Otherwise it answers [true]: the file is gone, one entry has
    left the list, the registry file holds the rest, models of other ids are
    found as before, and, ids being distinct, the id is no longer found. *)
Theorem deleteModel_cases (modelId : string) (unlink : option string)
    (reg : Registry) :
  let r := deleteModel modelId unlink reg in
  match getModel modelId reg with
  | None => r = (Ok false, reg)
  | Some model =>
      match files reg !! path model, unlink with
      | Some _, Some failure =>
          r = (Throw ("Failed to delete model file: " +:+ failure), reg)
      | _, _ =>
          r.1 = Ok true
          ∧ files r.2 = delete (path model) (files reg)
          ∧ registry_file r.2 = Some (models r.2)
          ∧ models r.2 `sublist_of` models reg
          ∧ S (length (models r.2)) = length (models reg)
          ∧ (∀ other, other ≠ modelId →
                      getModel other r.2 = getModel other reg)
          ∧ (NoDup (id <$> models reg) → getModel modelId r.2 = None)
      end
  end.
Proof.
  intros r. subst r. unfold deleteModel, getModel.
  destruct (list_find _ (models reg)) as [[index model]|] eqn:Hfind; simpl;
    [|done].
  pose proof Hfind as (Hindex & Hid & _)%list_find_Some.
  assert (Hremoved : ∀ files',
            let reg' := set_files files' reg in
            let r := (Ok true,
                      saveRegistry (set_models (delete index (models reg')) reg'))
                     : Result bool * Registry in
            r.1 = Ok true ∧ files r.2 = files'
            ∧ registry_file r.2 = Some (models r.2)
            ∧ models r.2 `sublist_of` models reg
            ∧ S (length (models r.2)) = length (models reg)
            ∧ (∀ other, other ≠ modelId →
                 snd <$> list_find (λ m, id m = other) (models r.2)
                 = snd <$> list_find (λ m, id m = other) (models reg))
            ∧ (NoDup (id <$> models reg) →
               snd <$> list_find (λ m, id m = modelId) (models r.2) = None)).
  { intros files'. simpl. split; [done|]. split; [done|]. split; [done|].
    split; [apply sublist_delete|]. split.
    { rewrite length_delete by eauto.
      apply lookup_lt_Some in Hindex. lia. }
    split.
    { intros other Hother. eapply find_delete_miss; [exact Hindex|].
      congruence. }
    intros Hnodup. erewrite find_delete_hit; [done|exact Hfind|].
    intros j y Hj Hy. eapply lookup_unique_id; eauto. congruence. }
  destruct (files reg !! path model) as [bytes|] eqn:Hfile.
  - destruct unlink as [failure|]; [done|]. apply Hremoved.
  - assert (Hgone : delete (path model) (files reg) = files reg)
      by by apply delete_id.
    destruct unlink as [failure|]; rewrite Hgone;
      by destruct (Hremoved (files reg)) as (? & ? & ? & ? & ? & ? & ?).
Qed.

(** *** Paths and ids stay distinct *)

Lemma sublist_omap_fmap {B : Type} (f : Model → B) (g : Model → option Model)
    (l : list Model) :
  (∀ x y, g x = Some y → f y = f x) →
  f <$> omap g l `sublist_of` f <$> l.
Proof.
  intros Hg. induction l as [|x l IH]; simpl; [done|].
  destruct (g x) as [y|] eqn:Hy; simpl.
  - rewrite (Hg _ _ Hy). by apply sublist_skip.
  - by apply sublist_cons.
Qed.

Lemma models_deleteModel modelId unlink reg :
  models (deleteModel modelId unlink reg).2 `sublist_of` models reg.
Proof.
  unfold deleteModel.
  destruct (list_find _ (models reg)) as [[index model]|]; [|done].
  destruct (files reg !! path model), unlink; simpl;
    first [done|apply sublist_delete].
Qed.

Lemma distinct_step op reg used :
  distinct reg → id <$> models reg ⊆ used →
  match drawn op with Some newId => newId ∉ used | None => True end →
  distinct (step getModelPath reg op)
  ∧ id <$> models (step getModelPath reg op)
    ⊆ match drawn op with Some newId => newId :: used | None => used end.
Proof.
  intros [Hpaths Hids] Hused Hfresh. unfold distinct.
  destruct op as [newId now name' filename' size' source' checksum'
                 |modelId unlink|]; simpl in *.
  - unfold register.
    destruct (list_find _ (models reg)) as [[index old]|] eqn:Hfind; simpl.
    + pose proof Hfind as (Hindex & _ & _)%list_find_Some.
      rewrite !list_fmap_insert. simpl.
      rewrite !list_insert_id by (by rewrite list_lookup_fmap, Hindex).
      split; [done|]. set_solver.
    + rewrite !fmap_app. simpl. split; [split|].
      * apply NoDup_app. split; [done|]. split; [|apply NoDup_singleton].
        intros p Hp ->%list_elem_of_singleton.
        apply list_elem_of_fmap in Hp as (m & Hm & Hin).
        apply list_find_None in Hfind.
        rewrite Forall_forall in Hfind. by apply (Hfind m).
      * apply NoDup_app. split; [done|]. split; [|apply NoDup_singleton].
        intros i Hi ->%list_elem_of_singleton. by apply Hfresh, Hused.
      * set_solver.
  - pose proof (models_deleteModel modelId unlink reg) as Hsub.
    split; [split|].
    + eapply sublist_NoDup; [exact Hpaths|]. by apply fmap_sublist.
    + eapply sublist_NoDup; [exact Hids|]. by apply fmap_sublist.
    + intros i Hi. apply Hused.
      eapply elem_of_sublist; [exact Hi|]. by apply fmap_sublist.
  - split; [split|].
    + eapply sublist_NoDup; [exact Hpaths|]. apply sublist_omap_fmap.
      intros x y. by destruct (files reg !! path x); intros [= <-].
    + eapply sublist_NoDup; [exact Hids|]. apply sublist_omap_fmap.
      intros x y. by destruct (files reg !! path x); intros [= <-].
    + intros i Hi. apply Hused.
      eapply elem_of_sublist; [exact Hi|]. apply sublist_omap_fmap.
      intros x y. by destruct (files reg !! path x); intros [= <-].
Qed.

(** The registry never lists a path twice, and, as long as every id that is
    drawn is new, never an id twice: [register], [deleteModel] and
    [validateModels] keep both. *)
Theorem registry_keeps_paths_and_ids_distinct (ops : list Op) (reg : Registry) :
  distinct reg → fresh_ids (id <$> models reg) ops →
  distinct (foldl (step getModelPath) reg ops).
Proof.
  intros Hdistinct.
  assert (Hgen : ∀ used, id <$> models reg ⊆ used → fresh_ids used ops →
                         distinct (foldl (step getModelPath) reg ops)).
  { revert reg Hdistinct.
    induction ops as [|op ops IH]; intros reg Hdistinct used Hused Hfresh;
      simpl; [done|].
    simpl in Hfresh.
    destruct (distinct_step op reg used Hdistinct Hused) as [Hnext Hused'].
    { destruct (drawn op); [by destruct Hfresh|done]. }
    destruct (drawn op) as [newId|].
    - destruct Hfresh as [_ Hfresh]. by eapply IH.
    - by eapply IH. }
  by apply Hgen.
Qed.

End Paths.

Lemma registry_of_two_downloads :
  let source := mkSource source_url (Some "https://h/a.gguf") None None None
                  None None in
  let ops :=
    [OpRegister "m1" "2026-01-01T00:00:00.000Z" "A" "a.gguf" 10 source None;
     OpRegister "m2" "2026-01-01T00:00:01.000Z" "B" "b.gguf" 20 source None;
     OpRegister "m3" "2026-01-01T00:00:02.000Z" "A again" "a.gguf" 30 source
       None;
     OpDeleteModel "m2" None] in
  let reg := foldl (step (String.append "models/")) (mkRegistry [] ∅ None) ops in
  distinct reg ∧ id <$> models reg = ["m1"] ∧ size <$> models reg = [30].
Proof.
  intros source ops reg. split; [|by vm_compute].
  apply (registry_keeps_paths_and_ids_distinct (String.append "models/") ops
           (mkRegistry [] ∅ None)).
  - split; constructor.
  - simpl. repeat split; by apply (bool_decide_unpack _).
Defined.

End ModelRegistryFacts.

(** ** The route handlers *)

Module RoutesFacts.
Import ProcessManager Routes.

Lemma elem_of_getRunningProcesses p st :
  p ∈ getRunningProcesses st
  ↔ status p = running ∧ ∃ processId, getProcess processId st = Some p.
Proof.
  unfold getRunningProcesses, getAllProcesses.
  rewrite list_elem_of_filter, list_elem_of_fmap. split.
  - intros [Hrunning ([k i] & -> & Hin)]. split; [done|]. exists k.
    apply elem_of_map_to_list in Hin. by rewrite ProcessManagerProofs.getProcess_infos.
  - intros [Hrunning [k Hk]]. split; [done|]. exists (k, p). split; [done|].
    apply elem_of_map_to_list. by rewrite <- ProcessManagerProofs.getProcess_infos.
Qed.

(** [DELETE /api/models/[id]] answers [404] exactly for an unknown model and
    [409] exactly for a known model that a [running] record uses; a record
    for the model in any other status, [starting] included, does not stand in
    the way. It answers [500] exactly when the model's file is there and
    cannot be unlinked: the branch for a [deleteModel] that answers [false] is
    never taken. Every answer but [200] leaves the registry as it was; with
    [200] the model's file is gone and its entry has left the list. *)
Theorem model_DELETE_answers (modelId : string) (unlink : option string)
    (reg : ModelRegistry.Registry) (st : Supervisor) :
  let r := model_DELETE modelId unlink reg st in
  let in_use :=
    ∃ processId i, getProcess processId st = Some i ∧ status i = running
                   ∧ ProcessManager.modelId i = modelId in
  match ModelRegistry.getModel modelId reg with
  | None => r = (mkResponse 404 (ErrorBody "Model not found"), reg)
  | Some model =>
      (in_use →
       r = (mkResponse 409 (ErrorBody "Model is in use by a running process"),
            reg))
      ∧ (¬ in_use →
         match ModelRegistry.files reg !! ModelRegistry.path model, unlink with
         | Some _, Some _ =>
             r = (mkResponse 500 (ErrorBody "Failed to delete model"), reg)
         | _, _ =>
             r.1 = json SuccessBody
             ∧ ModelRegistry.files r.2
               = delete (ModelRegistry.path model) (ModelRegistry.files reg)
             ∧ S (length (ModelRegistry.models r.2))
               = length (ModelRegistry.models reg)
             ∧ ModelRegistry.registry_file r.2
               = Some (ModelRegistry.models r.2)
         end)
  end.
Proof.
  intros r in_use. subst r. unfold model_DELETE, ModelRegistry.deleteModel.
  unfold ModelRegistry.getModel.
  destruct (list_find _ (ModelRegistry.models reg)) as [[index model]|]
    eqn:Hfind; simpl; [|done].
  pose proof Hfind as (Hindex & _ & _)%list_find_Some.
  assert (Huse : existsb (λ p, String.eqb (ProcessManager.modelId p) modelId)
                   (getRunningProcesses st) = true ↔ in_use).
  { rewrite existsb_exists. subst in_use. split.
    - intros (p & Hp%list_elem_of_In & Heq%String.eqb_eq).
      apply elem_of_getRunningProcesses in Hp as [Hrunning [k Hk]].
      by exists k, p.
    - intros (k & p & Hk & Hrunning & Hmodel). exists p. split.
      + apply list_elem_of_In, elem_of_getRunningProcesses. eauto.
      + by apply String.eqb_eq. }
  destruct (existsb _ _) eqn:Hexists.
  - split; [done|]. intros Hfree. exfalso. by apply Hfree, Huse.
  - split.
    { intros Hin. apply Huse in Hin. discriminate. }
    intros _.
    assert (Hlength : S (length (delete index (ModelRegistry.models reg)))
                      = length (ModelRegistry.models reg)).
    { rewrite length_delete by eauto. apply lookup_lt_Some in Hindex. lia. }
    destruct (ModelRegistry.files reg !! ModelRegistry.path model) as [bytes|]
      eqn:Hfile; [destruct unlink as [failure|]|]; simpl; try done.
    assert (Hgone : delete (ModelRegistry.path model) (ModelRegistry.files reg)
                    = ModelRegistry.files reg) by by apply delete_id.
    destruct unlink; by rewrite Hgone.
Qed.

(** [POST /api/processes/[id]?action=remove] answers [404] exactly for an
    unknown id. A record that is [running] or [starting] gets [500] with the
    text of the error, not the [404] whose text speaks of a process that is
    still running, and stays. Any other record is removed with [200]. *)
Theorem process_POST_remove_answers (processId : string) (st : Supervisor) :
  let r := process_POST_remove processId st in
  match status_of processId st with
  | None =>
      r = (mkResponse 404 (ErrorBody "Process not found or still running"), st)
  | Some s =>
      if bool_decide (s = running) || bool_decide (s = starting)
      then r = (mkResponse 500
                  (ErrorBody "Cannot remove running process. Stop it first."),
                st)
      else r.1 = json SuccessBody
           ∧ getProcess processId r.2 = None
           ∧ synced r.2
           ∧ usedPorts r.2 = usedPorts st
  end.
Proof.
  intros r. subst r. unfold process_POST_remove, status_of, getProcess.
  unfold removeProcess.
  destruct (processes st !! processId) as [managed|] eqn:Hm; simpl; [|done].
  destruct (bool_decide _ || bool_decide _); simpl; [done|].
  split; [done|]. split; [|done]. by rewrite lookup_delete_eq.
Qed.

End RoutesFacts.

(** ** The client of the process stream *)

Module ProcessStatusHookFacts.
Import ProcessManager ProcessStatusHook.

(** *** The log buffer of the client *)

Lemma latest_snoc lines line :
  latest (latest lines ++ [line]) = latest (lines ++ [line]).
Proof.
  unfold latest. rewrite !length_app, length_drop. simpl.
  destruct (decide (length lines ≤ 500)%nat) as [Hshort|Hlong].
  - replace (length lines - 500)%nat with 0%nat by lia. simpl.
    by replace (length lines - 0 + 1 - 500)%nat
      with (length lines + 1 - 500)%nat by lia.
  - rewrite !drop_app_le by (rewrite ?length_drop; lia).
    rewrite drop_drop. f_equal. f_equal. lia.
Qed.

Lemma logs_handleMessage prev message processId :
  default [] (logs (handleMessage prev message) !! processId)
  = match log_messages processId [message] with
    | [line] => latest (default [] (logs prev !! processId) ++ [line])
    | _ => default [] (logs prev !! processId)
    end.
Proof.
  destruct message as [ps|event]; simpl; [done|].
  destruct (ev_data event) as [s|line stream] eqn:Hdata; simpl.
  - by destruct (negb _).
  - destruct (String.eqb (ev_processId event) processId) eqn:Hid; simpl.
    + apply String.eqb_eq in Hid. subst processId.
      destruct (negb (String.eqb (ev_processId event) "")
                && negb (String.eqb line "")); simpl; [|done].
      by rewrite lookup_insert_eq.
    + apply String.eqb_neq in Hid.
      destruct (_ && _); simpl; [|done]. by rewrite lookup_insert_ne.
Qed.

Lemma log_messages_cons processId message messages :
  log_messages processId (message :: messages)
  = log_messages processId [message] ++ log_messages processId messages.
Proof.
  unfold log_messages. simpl. destruct message as [ps|event]; [done|].
  destruct (ev_data event); [done|]. by destruct (_ && _).
Qed.

Lemma log_messages_single processId message :
  log_messages processId [message] = []
  ∨ ∃ line, log_messages processId [message] = [line].
Proof.
  unfold log_messages. simpl. destruct message as [ps|event]; [by left|].
  destruct (ev_data event); [by left|]. destruct (_ && _); eauto.
Qed.

(** Whatever the stream delivers, the lines that the client keeps for a
    process are the last 500 of the log messages it accepted for it. *)
Theorem client_keeps_the_latest_log_lines (messages : list SSEEvent)
    (processId : string) :
  let kept := default [] (logs (read messages) !! processId) in
  kept = latest (log_messages processId messages)
  ∧ (length kept ≤ 500)%nat
  ∧ kept `suffix_of` log_messages processId messages.
Proof.
  intros kept.
  assert (Hkept : kept = latest (log_messages processId messages)).
  { subst kept. unfold read.
    assert (Hgen : ∀ prev seen,
              default [] (logs prev !! processId) = latest seen →
              default [] (logs (foldl handleMessage prev messages) !! processId)
              = latest (seen ++ log_messages processId messages)).
    { induction messages as [|message messages IH]; intros prev seen Hprev;
        cbn [foldl].
      - by rewrite app_nil_r.
      - rewrite log_messages_cons, app_assoc. apply IH.
        rewrite logs_handleMessage.
        destruct (log_messages_single processId message) as [->|[line ->]].
        + by rewrite app_nil_r.
        + by rewrite Hprev, latest_snoc. }
    by apply (Hgen initial []). }
  split; [exact Hkept|]. rewrite Hkept. unfold latest. split.
  - rewrite length_drop. lia.
  - apply suffix_drop.
Qed.

(** *** The statuses of the client *)

Lemma announced_app processId emitted emitted' s :
  announced processId (emitted ++ emitted') s
  = announced processId emitted' (announced processId emitted s).
Proof. unfold announced. by rewrite foldl_app. Qed.

Lemma tracks_refl processId st : tracks processId st st.
Proof.
  exists []. split; [by rewrite app_nil_r|].
  destruct (status_of processId st); [by right|done].
Qed.

Lemma tracks_trans processId st1 st2 st3 :
  tracks processId st1 st2 → tracks processId st2 st3 →
  tracks processId st1 st3.
Proof.
  intros (emitted & Hevents & Hstatus) (emitted' & Hevents' & Hstatus').
  exists (emitted ++ emitted'). split; [by rewrite Hevents', Hevents, app_assoc|].
  destruct (status_of processId st1) as [s|].
  - destruct Hstatus as [Hgone|Hthere].
    + rewrite Hgone in Hstatus'. by left.
    + rewrite Hthere in Hstatus'. rewrite announced_app.
      exact Hstatus'.
  - by rewrite Hstatus in Hstatus'.
Qed.

(** Nothing was emitted and the record is as it was, or gone. *)
Lemma tracks_quiet processId st st' :
  events st' = events st →
  status_of processId st' = status_of processId st
  ∨ status_of processId st' = None →
  tracks processId st st'.
Proof.
  intros Hevents Hstatus. exists []. split; [by rewrite app_nil_r|].
  destruct (status_of processId st) as [s|]; simpl.
  - destruct Hstatus as [->| ->]; [by right|by left].
  - by destruct Hstatus as [->| ->].
Qed.

Lemma tracks_updateStatus processId now k s err st :
  tracks processId st (updateStatus now k s err st).
Proof.
  destruct (ProcessManager.processes st !! k) as [managed|] eqn:Hm.
  - exists [mkEvent k now (StatusData s)]. split.
    { unfold updateStatus. by rewrite Hm. }
    unfold status_of.
    destruct (decide (processId = k)) as [->|Hne].
    + rewrite (ProcessManagerProofs.getProcess_updateStatus_eq _ _ _ _ _ _ Hm).
      unfold getProcess. rewrite Hm. simpl. right.
      rewrite ProcessManagerProofs.next_info_status.
      unfold announced. simpl. by rewrite String.eqb_refl.
    + rewrite ProcessManagerProofs.getProcess_updateStatus_ne by done.
      destruct (getProcess processId st) as [i|]; simpl; [|done]. right.
      unfold announced. simpl.
      by apply String.eqb_neq in Hne as ->.
  - rewrite ProcessManagerProofs.updateStatus_absent by done.
    apply tracks_refl.
Qed.

(** Only log events were emitted, and the records are as they were. *)
Lemma tracks_silent processId st st' emitted :
  events st' = events st ++ emitted →
  (∀ s, announced processId emitted s = s) →
  same_records st st' →
  tracks processId st st'.
Proof.
  intros Hevents Hsilent Hsame. exists emitted. split; [exact Hevents|].
  rewrite (ProcessManagerProofs.status_of_same _ _ _ Hsame).
  destruct (status_of processId st) as [s|]; [|done]. right.
  by rewrite Hsilent.
Qed.

Lemma tracks_addLog processId now k message stream st :
  tracks processId st (addLog now k message stream st).
Proof.
  pose proof (ProcessManagerProofs.same_records_addLog now k message stream st)
    as Hsame.
  revert Hsame. unfold addLog.
  destruct (ProcessManager.processes st !! k) as [managed|];
    [|intros _; apply tracks_refl].
  intros Hsame. eapply tracks_silent; [reflexivity|done|exact Hsame].
Qed.

Lemma tracks_on_stdout processId now k data st :
  tracks processId st (on_stdout now k data st).
Proof.
  unfold on_stdout. generalize (lines_of data). intros lines. revert st.
  induction lines as [|line lines IH]; intros st; simpl; [apply tracks_refl|].
  eapply tracks_trans; [|apply IH]. unfold on_stdout_line.
  destruct (is_ready line); [|apply tracks_addLog].
  eapply tracks_trans; [apply tracks_addLog|apply tracks_updateStatus].
Qed.

Lemma tracks_on_stderr processId now k data st :
  tracks processId st (on_stderr now k data st).
Proof.
  unfold on_stderr. generalize (lines_of data). intros lines. revert st.
  induction lines as [|line lines IH]; intros st; simpl; [apply tracks_refl|].
  eapply tracks_trans; [apply tracks_addLog|apply IH].
Qed.

Lemma events_clear_process k st : events (clear_process k st) = events st.
Proof.
  unfold clear_process. by destruct (ProcessManager.processes st !! k).
Qed.

Lemma tracks_clear_process processId k st :
  tracks processId st (clear_process k st).
Proof.
  apply (tracks_silent _ _ _ []); [|done|].
  - by rewrite events_clear_process, app_nil_r.
  - apply ProcessManagerProofs.same_records_clear_process.
Qed.

Lemma tracks_on_exit processId now k code st :
  tracks processId st (on_exit now k code st).
Proof.
  unfold on_exit. destruct (closure_of k st) as [managed|];
    [|apply tracks_refl].
  eapply tracks_trans; [|apply tracks_clear_process].
  destruct (_ && _); apply tracks_updateStatus.
Qed.

Lemma tracks_kill processId now k force st :
  tracks processId st (kill now k force st).2.
Proof.
  unfold kill. destruct (ProcessManager.processes st !! k) as [managed|];
    [|apply tracks_refl].
  destruct (process managed) as [child|]; simpl;
    [|apply tracks_updateStatus].
  eapply tracks_trans; [apply tracks_updateStatus|].
  apply (tracks_silent _ _ _ []); [by rewrite app_nil_r|done|].
  apply ProcessManagerProofs.same_records_send.
Qed.

Lemma tracks_kill_timeout processId k st :
  tracks processId st (kill_timeout k st).
Proof.
  apply (tracks_silent _ _ _ []); [|done|].
  - rewrite app_nil_r. unfold kill_timeout.
    destruct (closure_of k st) as [managed|]; [|done].
    by destruct (process managed).
  - apply ProcessManagerProofs.kill_timeout_same.
Qed.

Lemma tracks_removeProcess processId k st :
  tracks processId st (removeProcess k st).2.
Proof.
  unfold removeProcess.
  destruct (ProcessManager.processes st !! k) as [managed|];
    [|apply tracks_refl].
  destruct (_ || _); [apply tracks_refl|]. simpl.
  apply tracks_quiet; [done|]. unfold status_of, getProcess. simpl.
  rewrite lookup_delete.
  destruct (decide (k = processId)); [by right|by left].
Qed.

Lemma tracks_set_usedPorts processId used st :
  tracks processId st (set_usedPorts used st).
Proof. by apply tracks_quiet; [|left]. Qed.

Lemma tracks_spawn_resume processId now k st r st' :
  spawn_resume now k st = Some (r, st') → tracks processId st st'.
Proof.
  unfold spawn_resume. destruct (closure_of k st) as [managed|]; [|done].
  destruct (decide _); intros [= <- <-]; [|apply tracks_refl].
  eapply tracks_trans; [apply tracks_set_usedPorts|apply tracks_updateStatus].
Qed.

Lemma tracks_spawn_begin processId now k modelId modelName modelPath
    userConfig child st :
  k ≠ processId →
  tracks processId st
    (spawn_begin now k modelId modelName modelPath userConfig child st).2.
Proof.
  intros Hne. unfold spawn_begin.
  destruct (PortManager.allocate (usedPorts st)) as [[port|message] used];
    [|apply tracks_refl].
  destruct child as [[childProcess childPid]|message]; simpl.
  - apply tracks_quiet; [done|]. left. unfold status_of, getProcess. simpl.
    by rewrite !lookup_insert_ne.
  - eapply tracks_trans; [|apply tracks_updateStatus].
    apply tracks_quiet; [done|]. left. unfold status_of, getProcess. simpl.
    by rewrite !lookup_insert_ne.
Qed.

Lemma tracks_step processId st op :
  created op ≠ Some processId → tracks processId st (step st op).
Proof.
  intros Hcreated. destruct op; simpl.
  - apply tracks_spawn_begin. simpl in Hcreated. congruence.
  - destruct (spawn_resume now processId0 st) as [[r st']|] eqn:Hresume;
      [|apply tracks_refl]. by eapply tracks_spawn_resume.
  - apply tracks_on_stdout.
  - apply tracks_on_stderr.
  - apply tracks_updateStatus.
  - apply tracks_on_exit.
  - apply tracks_kill.
  - apply tracks_kill_timeout.
  - apply tracks_removeProcess.
Qed.

Lemma tracks_steps processId ops st :
  (∀ op, op ∈ ops → created op ≠ Some processId) →
  tracks processId st (foldl step st ops).
Proof.
  revert st. induction ops as [|op ops IH]; intros st Hops; simpl;
    [apply tracks_refl|].
  eapply tracks_trans.
  - apply tracks_step, Hops. by left.
  - apply IH. intros op' Hop'. apply Hops. by right.
Qed.

Lemma processes_handleMessage prev event :
  processes (handleMessage prev (Forwarded event))
  = shown event <$> processes prev.
Proof.
  unfold handleMessage, shown.
  destruct (ev_data event) as [s|line stream]; simpl.
  - destruct (negb _); simpl; [done|]. by rewrite list_fmap_id.
  - destruct (_ && _); simpl; by rewrite list_fmap_id.
Qed.

Lemma shown_spec event p :
  id (shown event p) = id p
  ∧ (id p ≠ "" →
     status (shown event p) = announced (id p) [event] (status p)).
Proof.
  unfold shown, announced. simpl.
  destruct (ev_data event) as [s|line stream]; [|done].
  destruct (String.eqb (ev_processId event) "") eqn:Hempty; simpl.
  - split; [done|]. intros Hp. apply String.eqb_eq in Hempty.
    assert (String.eqb (id p) (ev_processId event) = false) as ->; [|done].
    apply String.eqb_neq. congruence.
  - by destruct (String.eqb (id p) (ev_processId event)).
Qed.

(** What the client makes of the forwarded events: every record keeps its
    id, and one with a non-empty id gets the status that the events
    announce for it. *)
Lemma client_follows emitted :
  ∀ prev, ∃ f,
    processes (foldl handleMessage prev (Forwarded <$> emitted))
    = f <$> processes prev
    ∧ ∀ p, id (f p) = id p
           ∧ (id p ≠ "" → status (f p) = announced (id p) emitted (status p)).
Proof.
  induction emitted as [|event emitted IH]; intros prev.
  - exists (λ p, p). split; [by rewrite list_fmap_id|done].
  - rewrite fmap_cons. cbn [foldl].
    destruct (IH (handleMessage prev (Forwarded event))) as (f & Hf & Hspec).
    exists (f ∘ shown event). split.
    { by rewrite Hf, processes_handleMessage, <- list_fmap_compose. }
    intros p. destruct (shown_spec event p) as [Hid Hstatus].
    destruct (Hspec (shown event p)) as [Hid' Hstatus']. simpl.
    split; [congruence|]. intros Hp.
    rewrite Hstatus' by congruence. rewrite Hid, (Hstatus Hp).
    by rewrite <- announced_app.
Qed.

(** End to end, from the supervisor through the stream to the client. A
    client connects in a state that the supervisor has reached and reads the
    stream while the supervisor goes on. For a record that was there when the
    client connected and is still there, the client shows the record, and
    with the status that the supervisor holds. *)
Theorem client_shows_the_status_of_the_supervisor (now : string)
    (file : option (list VLLMProcess)) (before ops : list Op)
    (processId : string) (i : VLLMProcess) :
  let st := run now file before in
  let st' := foldl step st ops in
  let client := read (stream st st') in
  processId ≠ "" →
  (∀ op, op ∈ ops → created op ≠ Some processId) →
  getProcess processId st' = Some i →
  (∃ p, p ∈ processes client ∧ id p = processId)
  ∧ ∀ p, p ∈ processes client → id p = processId → status p = status i.
Proof.
  intros st st' client Hid Hops Hi.
  destruct (tracks_steps processId ops st Hops) as (emitted & Hevents & Hstatus).
  fold st' in Hevents, Hstatus.
  assert (Hnow : status_of processId st' = Some (status i)).
  { unfold status_of. by rewrite Hi. }
  destruct (ProcessManager.processes st !! processId) as [managed|] eqn:Hm;
    unfold status_of, getProcess in Hstatus; rewrite Hm in Hstatus;
    simpl in Hstatus; fold (getProcess processId st') in Hstatus;
    fold (status_of processId st') in Hstatus;
    rewrite Hnow in Hstatus; [|done].
  destruct Hstatus as [|[= Hannounced]]; [done|].
  assert (Hread : ∃ f,
            processes client = f <$> getAllProcesses st
            ∧ ∀ p, id (f p) = id p
                   ∧ (id p ≠ "" →
                      status (f p) = announced (id p) emitted (status p))).
  { subst client. unfold read, stream. simpl. rewrite Hevents.
    rewrite drop_app_length.
    apply (client_follows emitted
             {| processes := getAllProcesses st; logs := ∅ |}). }
  destruct Hread as (f & Hclient & Hf).
  assert (Hrecords : ∀ p, p ∈ getAllProcesses st → id p = processId →
                          p = info managed).
  { intros p Hp Hp'. unfold getAllProcesses in Hp.
    apply list_elem_of_fmap in Hp as ([k i'] & -> & Hin).
    apply elem_of_map_to_list in Hin. rewrite lookup_fmap in Hin.
    destruct (ProcessManager.processes st !! k) as [m|] eqn:Hk; [|done].
    injection Hin as <-. simpl in *.
    pose proof (ProcessManagerFacts.filed_under_id_run now file before k m Hk)
      as Hfiled.
    unfold filed_under_id in Hfiled. rewrite Hfiled in Hp'. subst k.
    congruence. }
  split.
  - exists (f (info managed)). split.
    + rewrite Hclient. apply list_elem_of_fmap_2.
      unfold getAllProcesses. apply list_elem_of_fmap.
      exists (processId, info managed). split; [done|].
      apply elem_of_map_to_list. by rewrite lookup_fmap, Hm.
    + destruct (Hf (info managed)) as [-> _].
      exact (ProcessManagerFacts.filed_under_id_run now file before _ _ Hm).
  - intros p Hp Hp'. rewrite Hclient in Hp.
    apply list_elem_of_fmap in Hp as (q & -> & Hq).
    destruct (Hf q) as [Hsame Hfollow]. rewrite Hsame in Hp'.
    pose proof (Hrecords q Hq Hp') as Hq'.
    rewrite Hfollow by (by rewrite Hp'). by rewrite Hp', Hannounced, Hq'.
Qed.

Lemma client_sees_the_crash :
  let client := read (stream Scenarios.launched Scenarios.crashed) in
  ∃ p, p ∈ processes client ∧ id p = "p1" ∧ status p = error.
Proof.
  intros client.
  assert (Hcrashed : ∃ i, getProcess "p1" Scenarios.crashed = Some i
                          ∧ status i = error).
  { vm_compute. eexists. split; reflexivity. }
  destruct Hcrashed as (i & Hi & Herror).
  destruct (client_shows_the_status_of_the_supervisor
              "2026-01-01T00:00:00.000Z" None [Scenarios.launch]
              [OpExit "2026-01-01T00:00:05.000Z" "p1" (Some 1)] "p1" i)
    as [[p [Hp Hid]] Hstatus].
  - done.
  - intros op ->%list_elem_of_singleton. done.
  - exact Hi.
  - exists p. split; [exact Hp|]. split; [exact Hid|].
    rewrite <- Herror. by apply Hstatus.
Defined.

End ProcessStatusHookFacts.

(** ** More on the download coordinator *)

Module DownloadManagerFacts.
Import DownloadManager.

(** *** Destination file names *)

Lemma append_cons c s t : String c s +:+ t = String c (s +:+ t).
Proof. reflexivity. Qed.

Lemma append_empty t : "" +:+ t = t.
Proof. reflexivity. Qed.

Lemma rev_app_append s t acc :
  String.rev_app (s +:+ t) acc = String.rev_app t (String.rev_app s acc).
Proof.
  revert acc. induction s as [|c s IH]; intros acc.
  - by rewrite append_empty.
  - rewrite append_cons. simpl. apply IH.
Qed.

Lemma append_assoc s t u : (s +:+ t) +:+ u = s +:+ (t +:+ u).
Proof.
  induction s as [|c s IH]; [by rewrite !append_empty|].
  rewrite !append_cons. by rewrite IH.
Qed.

Lemma prefix_append s t : String.prefix s (s +:+ t) = true.
Proof.
  induction s as [|c s IH]; [by destruct t|].
  rewrite append_cons. simpl. by destruct (ascii_dec c c).
Qed.

Lemma ends_with_append s suffix : ends_with (s +:+ suffix) suffix = true.
Proof.
  unfold ends_with, String.rev. rewrite rev_app_append.
  assert (Hacc : ∀ t acc, String.rev_app t acc = String.rev_app t "" +:+ acc).
  { induction t as [|c t IH]; intros acc; simpl; [done|].
    rewrite (IH (String c acc)), (IH (String c "")).
    by rewrite append_assoc. }
  rewrite (Hacc suffix (String.rev_app s "")). apply prefix_append.
Qed.

Lemma sanitize_plain name c :
  In c (list_ascii_of_string (sanitize name)) → is_plain c = true.
Proof.
  induction name as [|a name IH]; simpl; [done|].
  intros [<-|Hrest]; [|by apply IH].
  by destruct (is_plain a) eqn:Ha.
Qed.

Lemma derive_filename_suffix base name :
  ends_with (derive_filename base name) ".gguf" = true.
Proof.
  unfold derive_filename.
  destruct (String.eqb base "") eqn:Hempty; simpl; [apply ends_with_append|].
  destruct (ends_with base ".gguf") eqn:Hends; simpl;
    [done|apply ends_with_append].
Qed.

(** The name of a destination file always ends in [.gguf]: it is the base
    name that was offered when that one does, and otherwise the display name
    with every character outside [a-zA-Z0-9-_] replaced by [_], so a slug of
    the same length without a path separator, followed by [.gguf]. *)
Theorem derive_filename_ends_in_gguf (base name : string) :
  let filename := derive_filename base name in
  ends_with filename ".gguf" = true
  ∧ (filename = base
     ∨ filename = sanitize name +:+ ".gguf"
       ∧ (base = "" ∨ ends_with base ".gguf" = false))
  ∧ String.length (sanitize name) = String.length name
  ∧ ∀ c, In c (list_ascii_of_string (sanitize name)) →
         is_plain c = true ∧ c ≠ "/"%char ∧ c ≠ "."%char.
Proof.
  intros filename. subst filename. unfold derive_filename.
  split; [|split; [|split]].
  - apply derive_filename_suffix.
  - destruct (String.eqb base "") eqn:Hempty; simpl.
    { right. split; [done|]. left. by apply String.eqb_eq. }
    destruct (ends_with base ".gguf") eqn:Hends; simpl; [by left|].
    right. split; [done|by right].
  - induction name as [|a name IH]; simpl; [done|by rewrite IH].
  - intros c Hc. pose proof (sanitize_plain name c Hc) as Hplain.
    split; [done|]. split; intros ->; discriminate.
Qed.

(** *** Requests *)

Lemma start_accepted now downloadId name filename source total controller st :
  ends_with filename ".gguf" = true →
  let st' := start now downloadId name filename source total controller st in
  accepted now downloadId st st' (started downloadId st').
Proof.
  intros Hends st'. subst st'. unfold start, started, updateStatus. simpl.
  rewrite lookup_insert_eq. simpl.
  eexists. split; [by rewrite lookup_insert_eq|].
  split; [by unfold getDownload; simpl; rewrite lookup_insert_eq|].
  repeat split; try done.
  intros other Hother. simpl. by rewrite !lookup_insert_ne.
Qed.

(** A request that a download function rejects changes nothing; one that it
    accepts is filed as [downloading] for a destination ending in [.gguf],
    with one status event. [downloadFromUrl] rejects what does not parse as
    an [http:] or [https:] URL, [downloadFromS3] a call without credentials
    or whose metadata request fails, [downloadFromHuggingFace] an empty
    repository id or file name; they reject nothing else. *)
Theorem download_requests (now : Z) (downloadId name : string)
    (st : Coordinator) :
  (∀ controller url parsed,
     let r := downloadFromUrl now downloadId controller name url parsed st in
     match parsed with
     | Some (protocol, base) =>
         if String.eqb protocol "http:" || String.eqb protocol "https:"
         then ∃ result, r.1 = Ok result ∧ accepted now downloadId st r.2 result
         else r = (Throw "Invalid URL", st)
     | None => r = (Throw "Invalid URL", st)
     end)
  ∧ (∀ controller bucket key credentials head base,
       let r :=
         downloadFromS3 now downloadId controller name bucket key credentials
           head base st in
       match credentials, head with
       | true, Ok contentLength =>
           ∃ result, r.1 = Ok result ∧ accepted now downloadId st r.2 result
       | true, Throw message => r = (Throw message, st)
       | false, _ => r = (Throw "AWS credentials not configured", st)
       end)
  ∧ (∀ child repoId hfFilename revision,
       let r :=
         downloadFromHuggingFace now downloadId child name repoId hfFilename
           revision st in
       if String.eqb repoId "" || String.eqb hfFilename ""
       then r = (Throw "Repository ID and filename are required", st)
       else ∃ result, r.1 = Ok result ∧ accepted now downloadId st r.2 result).
Proof.
  split; [|split].
  - intros controller url [[protocol base]|] r; subst r; simpl; [|done].
    destruct (String.eqb protocol "http:" || String.eqb protocol "https:");
      simpl; [|done].
    eexists. split; [reflexivity|]. apply start_accepted.
    apply (derive_filename_suffix base name).
  - intros controller bucket key [|] [contentLength|message] base r; subst r;
      simpl; try done.
    eexists. split; [reflexivity|]. apply start_accepted.
    apply (derive_filename_suffix base name).
  - intros child repoId hfFilename revision r. subst r.
    unfold downloadFromHuggingFace.
    destruct (String.eqb repoId "" || String.eqb hfFilename ""); [done|].
    eexists. split; [reflexivity|]. simpl.
    set (localFilename := if ends_with hfFilename ".gguf" then _ else _).
    assert (Hends : ends_with localFilename ".gguf" = true).
    { subst localFilename.
      destruct (ends_with hfFilename ".gguf") eqn:Hends;
        [done|apply ends_with_append]. }
    destruct (start_accepted now downloadId name localFilename
                (SourceHuggingFace repoId hfFilename revision) 0 None st Hends)
      as (download & Hstarted & Hget & Hid & Hstatus & Hcompleted & Hname
          & Hevents & Hfiles & Hregistered & Hothers).
    set (st1 := start _ _ _ _ _ _ _ _) in *.
    unfold started in Hstarted.
    destruct (downloads st1 !! downloadId) as [managed|] eqn:Hm; [|done].
    injection Hstarted as Hinfo.
    exists download. unfold started, getDownload, on_closure. rewrite Hm. simpl.
    rewrite lookup_insert_eq. simpl. rewrite Hinfo.
    repeat split; try done.
    intros other Hother. rewrite lookup_insert_ne by done. by apply Hothers.
Qed.

(** *** Completion *)

(** When a transfer completes, the artifact is registered under the record's
    name and file name and a ["complete"] event is emitted, whether or not
    the record is still in the map. A record that is still there becomes
    [completed], stamped, with the status event ahead of the ["complete"]
    event; for a record that [removeDownload] has dropped in the meantime the
    model is registered and announced all the same. *)
Theorem completion_registers_the_model (now : Z) (downloadId : string)
    (size : float) (modelId : string) (st : Coordinator)
    (managed : ManagedDownload) :
  closure_of downloadId st = Some managed →
  let st' := on_resolved now downloadId size modelId st in
  let i := info managed in
  registered st' = registered st ++ [(name i, filename i, size, source i)]
  ∧ files st' = files st
  ∧ match downloads st !! downloadId with
    | Some _ =>
        status_of downloadId st' = Some completed
        ∧ (completedAt <$> getDownload downloadId st') = Some (Some now)
        ∧ events st'
          = events st
            ++ [mkEvent downloadId now (StatusData completed None);
                mkEvent downloadId now (CompleteData modelId)]
    | None =>
        downloads st' = downloads st
        ∧ events st' = events st ++ [mkEvent downloadId now (CompleteData modelId)]
    end.
Proof.
  intros Hclosure st' i. subst st' i. unfold on_resolved. rewrite Hclosure.
  unfold closure_of in Hclosure. unfold updateStatus. simpl.
  destruct (downloads st !! downloadId) as [held|] eqn:Hm; simpl.
  - injection Hclosure as ->. split; [done|]. split; [done|].
    unfold status_of, getDownload. simpl. rewrite lookup_insert_eq. simpl.
    split; [done|]. split; [done|]. by rewrite <- app_assoc.
  - done.
Qed.

Lemma completion_after_removal :
  let st := (removeDownload "d2" DownloadScenarios.url_started).2 in
  let st' := on_url_resolved 900 "d2" "m7" st in
  getDownload "d2" st' = None
  ∧ length (registered st') = 1%nat
  ∧ last (events st') = Some (mkEvent "d2" 900 (CompleteData "m7")).
Proof.
  intros st st'.
  assert (Hheld : ∃ managed, closure_of "d2" st = Some managed
                             ∧ downloads st !! "d2" = None
                             ∧ registered st = []).
  { vm_compute. eexists. repeat split; reflexivity. }
  destruct Hheld as (managed & Hclosure & Hgone & Hnone).
  pose proof (completion_registers_the_model 900 "d2"
                (total (progress (info managed))) "m7" st managed Hclosure)
    as Hdone.
  cbv zeta in Hdone. rewrite Hgone in Hdone.
  destruct Hdone as (Hregistered & _ & Hdownloads & Hevents).
  assert (Hstep : st' = on_resolved 900 "d2" (total (progress (info managed)))
                          "m7" st).
  { subst st'. unfold on_url_resolved. by rewrite Hclosure. }
  rewrite Hstep. split; [|split].
  - unfold getDownload. by rewrite Hdownloads, Hgone.
  - by rewrite Hregistered, Hnone.
  - rewrite Hevents. apply last_snoc.
Defined.

End DownloadManagerFacts.
